(** * InMemoryTable (src/bigcode.ts): a shallow embedding

    The table of [src/bigcode.ts] keeps its rows in a JavaScript [Map] and
    hands out copies made by [deepClone], that is
    [JSON.parse(JSON.stringify(obj))].  Rows are JavaScript objects, so the
    embedding has three layers:

    - JavaScript values and a heap of objects addressed by location, so that
      aliasing between the caller's objects, the stored rows and the returned
      copies is visible;
    - the JSON round trip of [deepClone], with the losses it has
      ([undefined], functions, [NaN], [Date]) and the [TypeError] it raises on
      a cyclic structure;
    - the table itself: [insert], [get], [update], [delete], [query],
      [clear], written after the methods of [class InMemoryTable]. *)

From Stdlib Require Import ZArith String Ascii List Lia Permutation Sorted.
From stdpp Require Import base list strings.

Open Scope string_scope.
Open Scope Z_scope.
Open Scope list_scope.

(** ** Values and the heap *)

(** A JavaScript number.  The model has the integral doubles, [NaN] and the
    two infinities; the table does no arithmetic on field values, it only
    copies and compares them. *)
Inductive number : Type :=
| Fin (z : Z)
| NaN
| PosInf
| NegInf.

Abbreviation loc := nat.

(** Identifiers of the opaque runtime entities the table may meet in a
    filter: functions and regular expressions. *)
Abbreviation fn := nat.
Abbreviation regexp := nat.

Inductive value : Type :=
| VUndefined
| VNull
| VBool (b : bool)
| VNumber (n : number)
| VString (s : string)
| VRef (l : loc).

(** Own enumerable string-keyed properties, in enumeration order; each key
    occurs once in the property list of an object. *)
Abbreviation props := (list (string * value)).

Inductive object : Type :=
| OPlain (ps : props)
| OArray (elems : list value)
| ODate (time : number)
| ORegExp (re : regexp)
| OFunction (f : fn).

Abbreviation heap := (list object).

#[global] Instance number_eq_dec : EqDecision number.
Proof. solve_decision. Defined.

#[global] Instance value_eq_dec : EqDecision value.
Proof. solve_decision. Defined.

(** ** Keyed lists: object properties and the entries of a [Map]

    Both keep insertion order; setting an existing key replaces the value in
    place, a new key goes to the end.  (JavaScript enumerates the keys of an
    object that are array indices before the others; the model keeps the
    order in which keys were set, which is the same unless such a key is
    added to an object after other keys.) *)
Section Assoc.
Context {K V : Type} `{EqDecision K}.

Fixpoint assoc_get (k : K) (l : list (K * V)) : option V :=
  match l with
  | [] => None
  | (k', v) :: l' => if decide (k = k') then Some v else assoc_get k l'
  end.

Fixpoint assoc_set (k : K) (v : V) (l : list (K * V)) : list (K * V) :=
  match l with
  | [] => [(k, v)]
  | (k', v') :: l' =>
      if decide (k = k') then (k, v) :: l' else (k', v') :: assoc_set k v l'
  end.

Fixpoint assoc_del (k : K) (l : list (K * V)) : list (K * V) :=
  match l with
  | [] => []
  | (k', v') :: l' =>
      if decide (k = k') then l' else (k', v') :: assoc_del k l'
  end.

Definition assoc_has (k : K) (l : list (K * V)) : bool :=
  match assoc_get k l with Some _ => true | None => false end.

Definition keys (l : list (K * V)) : list K := map fst l.
End Assoc.

(** [{...base, ...extra}]: the properties of [base], then every property of
    [extra] set in turn. *)
Definition spread (base extra : props) : props :=
  fold_left (fun acc kv => assoc_set (fst kv) (snd kv) acc) extra base.

(** [o[k]] on the own properties of a plain object. *)
Definition read_prop (k : string) (ps : props) : value :=
  match assoc_get k ps with Some v => v | None => VUndefined end.

(** ** JSON *)

Set Warnings "-register-all".

Inductive json : Type :=
| JNull
| JBool (b : bool)
| JNum (z : Z)
| JStr (s : string)
| JArr (js : list json)
| JObj (jps : list (string * json)).

Inductive exn : Type := TypeError | SyntaxError.

(** Outcome of a computation: a value, a JavaScript exception, or [Stuck]
    when the model left the states JavaScript can be in (a dangling location,
    or the recursion bound reached). *)
Inductive result (A : Type) : Type :=
| Ok (a : A)
| Throw (e : exn)
| Stuck.
Arguments Ok {A} a.
Arguments Throw {A} e.
Arguments Stuck {A}.

Definition bind {A B} (r : result A) (k : A -> result B) : result B :=
  match r with
  | Ok a => k a
  | Throw e => Throw e
  | Stuck => Stuck
  end.

Notation "'let*' p ':=' r 'in' k" := (bind r (fun p => k))
  (at level 10, p pattern, r at level 100, k at level 200).

(** Properties of an object being serialised: a value that serialises to
    nothing ([undefined], a function) drops the property. *)
Fixpoint stringify_props (rec : value -> result (option json)) (ps : props)
  : result (list (string * json)) :=
  match ps with
  | [] => Ok []
  | (k, v) :: ps' =>
      let* oj := rec v in
      let* js := stringify_props rec ps' in
      Ok (match oj with Some j => (k, j) :: js | None => js end)
  end.

(** Elements of an array being serialised: such a value becomes [null]. *)
Fixpoint stringify_elems (rec : value -> result (option json)) (vs : list value)
  : result (list json) :=
  match vs with
  | [] => Ok []
  | v :: vs' =>
      let* oj := rec v in
      let* js := stringify_elems rec vs' in
      Ok (match oj with Some j => j | None => JNull end :: js)
  end.

(** Members of a JSON array and of a JSON object being parsed, left to
    right, each allocating after the one before. *)
Definition parse_elems (rec : heap -> json -> heap * value)
  : heap -> list json -> heap * list value :=
  fix go (h : heap) (js : list json) : heap * list value :=
    match js with
    | [] => (h, [])
    | j :: js' =>
        let '(h1, v) := rec h j in
        let '(h2, vs) := go h1 js' in
        (h2, v :: vs)
    end.

Definition parse_props (rec : heap -> json -> heap * value)
  : heap -> list (string * json) -> heap * props :=
  fix go (h : heap) (jps : list (string * json)) : heap * props :=
    match jps with
    | [] => (h, [])
    | (k, j) :: jps' =>
        let '(h1, v) := rec h j in
        let '(h2, ps) := go h1 jps' in
        (h2, (k, v) :: ps)
    end.

(** ** Comparison and conversion of primitive values *)

(** [a === b]: [NaN] differs from itself, objects are equal when they are the
    same object. *)
Definition strict_eq (a b : value) : bool :=
  match a with
  | VNumber NaN => false
  | _ => bool_decide (a = b)
  end.

(** [ToBoolean]. *)
Definition to_boolean (v : value) : bool :=
  match v with
  | VUndefined | VNull => false
  | VBool b => b
  | VNumber (Fin z) => negb (z =? 0)
  | VNumber NaN => false
  | VNumber _ => true
  | VString s => negb (String.eqb s "")
  | VRef _ => true
  end.

(** [x < y] on numbers; false as soon as one is [NaN]. *)
Definition number_lt (x y : number) : bool :=
  match x, y with
  | NaN, _ | _, NaN => false
  | Fin a, Fin b => a <? b
  | NegInf, NegInf => false
  | NegInf, _ => true
  | _, NegInf => false
  | PosInf, _ => false
  | _, PosInf => true
  end.

(** JavaScript compares strings by code unit.  The strings of the model are
    made of 8-bit characters and are compared character by character, which
    is the same on ASCII text. *)
Definition string_lt (x y : string) : bool :=
  match String.compare x y with Lt => true | _ => false end.

(** ** Sorting and slicing of arrays *)

(** [Array.prototype.sort] with a comparator.  ECMAScript requires the sort
    to be stable and, when the comparator is consistent, to put the elements
    in its order; these two requirements leave one result
    ([sorted_stable_unique]), and the model is a sort that meets them, the
    stable insertion sort.  Where the comparator is not consistent the
    order is up to the engine, and the model is one of the possible
    engines.  [cmp a b > 0] sends [a] behind [b]. *)
Section ArraySort.
Context {A : Type} (cmp : A -> A -> Z).

Fixpoint sort_insert (x : A) (l : list A) : list A :=
  match l with
  | [] => [x]
  | y :: ys => if 0 <? cmp x y then y :: sort_insert x ys else x :: y :: ys
  end.

Fixpoint array_sort (l : list A) : list A :=
  match l with
  | [] => []
  | x :: xs => sort_insert x (array_sort xs)
  end.
End ArraySort.

(** [arr.slice(start, end)] for integral arguments: a negative index counts
    from the end, both are clamped to the length. *)
Definition slice {A : Type} (start stop : Z) (l : list A) : list A :=
  let len := Z.of_nat (length l) in
  let rel := fun i => if i <? 0 then Z.max (len + i) 0 else Z.min i len in
  take (Z.to_nat (rel stop - rel start)) (drop (Z.to_nat (rel start)) l).

(** ** The table *)

(** What [Math.random] and [Date.now] contribute to one call of [makeId]:
    the two four-digit hexadecimal groups and the time in base 36. *)
Record entropy : Type := { rand1 : string; rand2 : string; stamp : string }.

Definition makeId (prefix : string) (e : entropy) : string :=
  prefix ++ rand1 e ++ rand2 e ++ "-" ++ stamp e.

(** The heap and the [rows] map of one [InMemoryTable]: each key with the
    location of its row object, in insertion order.  A [Map] compares keys
    with SameValueZero, which on the values of the model is equality. *)
Record state : Type := { mem : heap; rows : list (value * loc) }.

Inductive sort_order : Type := Asc | Desc.

(** [QueryOptions], each field optional; [offset] and [limit] are integral,
    and [filter] is given by the properties of the filter object. *)
Record QueryOptions : Type := {
  opt_limit : option Z;
  opt_offset : option Z;
  opt_sortBy : option string;
  opt_sortOrder : option sort_order;
  opt_filter : option props
}.

(** [row[k]] for a row object: its own property [k], or [undefined].  The
    rows read this way are copies made by [JSON.parse]; what they inherit
    from [Object.prototype] is left out. *)
Definition read (h : heap) (row : value) (k : string) : value :=
  match row with
  | VRef l =>
      match h !! l with
      | Some (OPlain ps) => read_prop k ps
      | _ => VUndefined
      end
  | _ => VUndefined
  end.

(** [v instanceof RegExp] and [typeof v === "function"]. *)
Definition as_regexp (h : heap) (v : value) : option regexp :=
  match v with
  | VRef l => match h !! l with Some (ORegExp re) => Some re | _ => None end
  | _ => None
  end.

Definition as_function (h : heap) (v : value) : option fn :=
  match v with
  | VRef l => match h !! l with Some (OFunction f) => Some f | _ => None end
  | _ => None
  end.

(** ** What a value holds, as JSON *)

(** [all2 R bs as_]: the two lists have the same length and [R] holds
    position by position. *)
Definition all2 {A B : Type} (R : A -> B -> Prop) : list B -> list A -> Prop :=
  fix go (bs : list B) (xs : list A) : Prop :=
    match bs with
    | [] => match xs with [] => True | _ => False end
    | b :: bs' => match xs with x :: xs' => R x b /\ go bs' xs' | [] => False end
    end.

(** [represents h v j]: in the heap [h] the value [v] is exactly the JSON
    tree [j]: primitives that JSON has, and plain objects and arrays of such
    values, key by key and element by element.  No [undefined], no [NaN] or
    infinity, no function, date or regular expression, and no cycle. *)
Fixpoint represents (h : heap) (v : value) (j : json) {struct j} : Prop :=
  match j with
  | JNull => v = VNull
  | JBool b => v = VBool b
  | JNum z => v = VNumber (Fin z)
  | JStr str => v = VString str
  | JArr js =>
      match v with
      | VRef l =>
          match h !! l with
          | Some (OArray vs) => all2 (fun v j => represents h v j) js vs
          | _ => False
          end
      | _ => False
      end
  | JObj jps =>
      match v with
      | VRef l =>
          match h !! l with
          | Some (OPlain ps) =>
              all2 (fun kv kj => fst kv = fst kj /\ represents h (snd kv) (snd kj))
                jps ps
          | _ => False
          end
      | _ => False
      end
  end.

(** The properties [ps] are, key by key, the members [jps]. *)
Definition represents_props (h : heap) (ps : props) (jps : list (string * json))
  : Prop :=
  all2 (fun kv kj => fst kv = fst kj /\ represents h (snd kv) (snd kj)) jps ps.

(** Nesting depth of a JSON tree. *)
Fixpoint depth (j : json) : nat :=
  match j with
  | JArr js => S (list_max (map depth js))
  | JObj jps => S (list_max (map (fun kj => depth (snd kj)) jps))
  | _ => O
  end.

(** ** Reachability in the heap *)

(** The values an object holds. *)
Definition obj_values (o : object) : list value :=
  match o with
  | OPlain ps => map snd ps
  | OArray vs => vs
  | _ => []
  end.

(** [reach h v l]: the object at [l] is [v] or is held, directly or not, by
    the object [v]. *)
Inductive reach (h : heap) : value -> loc -> Prop :=
| reach_here (l : loc) : reach h (VRef l) l
| reach_step (l : loc) (o : object) (v : value) (l' : loc) :
    h !! l = Some o -> v ∈ obj_values o -> reach h v l' -> reach h (VRef l) l'.

Definition val_below (n : nat) (v : value) : Prop :=
  match v with VRef l => (l < n)%nat | _ => True end.

Definition val_above (n : nat) (v : value) : Prop :=
  match v with VRef l => (n <= l)%nat | _ => True end.

(** The objects below [n] hold only objects below [n]. *)
Definition closed_below (n : nat) (h : heap) : Prop :=
  forall l o, (l < n)%nat -> h !! l = Some o -> Forall (val_below n) (obj_values o).

(** The objects from [n] on hold only objects from [n] on. *)
Definition fresh_above (n : nat) (h : heap) : Prop :=
  forall l o, (n <= l)%nat -> h !! l = Some o -> Forall (val_above n) (obj_values o).

(** No dangling reference in the heap, and every row of the map is in it. *)
Definition wf_state (s : state) : Prop :=
  closed_below (length (mem s)) (mem s)
  /\ Forall (fun kl => (snd kl < length (mem s))%nat) (rows s).

(** ** The runtime *)

(** What the JavaScript runtime supplies and the table leaves to it: calling
    a function (a predicate of a filter is called on a value in a heap and
    returns a value, or throws: [None]; it is taken to leave the heap alone),
    [RegExp.prototype.test], the conversion of an object to a primitive and
    of a string to a number, and [Date.prototype.toISOString]. *)
Class Runtime : Type := {
  apply_fn : fn -> heap -> value -> option value;
  regexp_test : regexp -> string -> bool;
  to_primitive : heap -> loc -> value;
  string_to_number : string -> number;
  date_iso : Z -> string
}.

Section Runtime.

Context `{rt : Runtime}.

(** [JSON.stringify]: the JSON tree of a value, [Ok None] where JavaScript
    yields [undefined].  [stack] holds the objects being serialised, as in
    the cycle check of the specification of [JSON.stringify].  Of the
    [toJSON] methods the one of [Date] is there; an object with a [toJSON]
    member of its own that is a function is serialised by its members here,
    where [JSON.stringify] serialises what the call returns: what is stated
    of the contents of a copy is stated for values without such an object
    ([plain_data]). *)
Fixpoint stringify (fuel : nat) (h : heap) (stack : list loc) (v : value)
  : result (option json) :=
  match v with
  | VUndefined => Ok None
  | VNull => Ok (Some JNull)
  | VBool b => Ok (Some (JBool b))
  | VNumber (Fin z) => Ok (Some (JNum z))
  | VNumber _ => Ok (Some JNull)
  | VString s => Ok (Some (JStr s))
  | VRef l =>
      match h !! l with
      | None => Stuck
      | Some (OFunction _) => Ok None
      | Some (ORegExp _) => Ok (Some (JObj []))
      | Some (ODate (Fin t)) => Ok (Some (JStr (date_iso t)))
      | Some (ODate _) => Ok (Some JNull)
      | Some (OPlain ps) =>
          if decide (l ∈ stack) then Throw TypeError
          else match fuel with
               | O => Stuck
               | S f =>
                   let* jps := stringify_props (stringify f h (l :: stack)) ps in
                   Ok (Some (JObj jps))
               end
      | Some (OArray vs) =>
          if decide (l ∈ stack) then Throw TypeError
          else match fuel with
               | O => Stuck
               | S f =>
                   let* js := stringify_elems (stringify f h (l :: stack)) vs in
                   Ok (Some (JArr js))
               end
      end
  end.

(** [JSON.parse] of the text of a JSON tree: fresh objects, allocated at
    the end of the heap, the members of an object or array before the
    object itself. *)
Fixpoint parse (h : heap) (j : json) : heap * value :=
  match j with
  | JNull => (h, VNull)
  | JBool b => (h, VBool b)
  | JNum z => (h, VNumber (Fin z))
  | JStr s => (h, VString s)
  | JArr js =>
      let '(h1, vs) := parse_elems parse h js in
      (h1 ++ [OArray vs], VRef (length h1))
  | JObj jps =>
      let '(h1, ps) := parse_props parse h jps in
      (h1 ++ [OPlain ps], VRef (length h1))
  end.

(** [deepClone(obj)] is [JSON.parse(JSON.stringify(obj))]; when
    [JSON.stringify] yields [undefined], [JSON.parse] throws a
    [SyntaxError].  The recursion of [stringify] is bounded by the number of
    objects of the heap plus one: the objects being serialised are distinct,
    so the bound is not reached in a heap without dangling reference
    ([stringify_not_stuck]). *)
Definition deepClone (h : heap) (v : value) : result (heap * value) :=
  let* oj := stringify (S (length h)) h [] v in
  match oj with
  | Some j => Ok (parse h j)
  | None => Throw SyntaxError
  end.

(** [ToNumber] of a primitive. *)
Definition to_number (v : value) : number :=
  match v with
  | VUndefined => NaN
  | VNull => Fin 0
  | VBool b => Fin (if b then 1 else 0)
  | VNumber n => n
  | VString s => string_to_number s
  | VRef _ => NaN
  end.

(** [a > b]: both sides to primitives; two strings compare as strings,
    anything else as numbers. *)
Definition js_gt (h : heap) (a b : value) : bool :=
  let prim := fun v => match v with VRef l => to_primitive h l | _ => v end in
  match prim a, prim b with
  | VString x, VString y => string_lt y x
  | pa, pb => number_lt (to_number pb) (to_number pa)
  end.

(** [insert(row)], with the entropy of this call for [makeId()].  [row] is
    given by its own properties at the time of the call, which is all that
    [row.id] and [{...row, id}] read; the objects these properties refer to
    are those of the caller. *)
Definition insert (s : state) (row : props) (e : entropy)
  : state * result value :=
  let id := match assoc_get "id" row with
            | None | Some VUndefined | Some VNull => VString (makeId "" e)
            | Some v => v
            end in
  let toInsert := assoc_set "id" id row in
  let l := length (mem s) in
  let h1 := mem s ++ [OPlain toInsert] in
  let rows1 := assoc_set id l (rows s) in
  match deepClone h1 (VRef l) with
  | Ok (h2, v) => ({| mem := h2; rows := rows1 |}, Ok v)
  | Throw x => ({| mem := h1; rows := rows1 |}, Throw x)
  | Stuck => ({| mem := h1; rows := rows1 |}, Stuck)
  end.

(** [get(id)]. *)
Definition get (s : state) (id : value) : state * result value :=
  match assoc_get id (rows s) with
  | None => (s, Ok VUndefined)
  | Some l =>
      match deepClone (mem s) (VRef l) with
      | Ok (h1, v) => ({| mem := h1; rows := rows s |}, Ok v)
      | Throw x => (s, Throw x)
      | Stuck => (s, Stuck)
      end
  end.

(** [update(id, patch)], with [patch] given by its own properties.  A row
    of the map is always a plain object made by [insert] or [update]. *)
Definition update (s : state) (id : value) (patch : props)
  : state * result value :=
  match assoc_get id (rows s) with
  | None => (s, Ok VUndefined)
  | Some l0 =>
      match mem s !! l0 with
      | Some (OPlain existing) =>
          let updated := spread existing patch in
          let l := length (mem s) in
          let h1 := mem s ++ [OPlain updated] in
          let rows1 := assoc_set id l (rows s) in
          match deepClone h1 (VRef l) with
          | Ok (h2, v) => ({| mem := h2; rows := rows1 |}, Ok v)
          | Throw x => ({| mem := h1; rows := rows1 |}, Throw x)
          | Stuck => ({| mem := h1; rows := rows1 |}, Stuck)
          end
      | _ => (s, Stuck)
      end
  end.

(** [delete(id)]: [Map.prototype.delete] tells whether the key was there. *)
Definition delete (s : state) (id : value) : state * bool :=
  ({| mem := mem s; rows := assoc_del id (rows s) |}, assoc_has id (rows s)).

(** [clear()]. *)
Definition clear (s : state) : state := {| mem := mem s; rows := [] |}.

(** [Array.from(this.rows.values()).map((r) => deepClone(r))].  When a copy
    fails the copies made before it are garbage and are dropped. *)
Fixpoint clone_all (h : heap) (ls : list loc) : result (heap * list value) :=
  match ls with
  | [] => Ok (h, [])
  | l :: ls' =>
      let* (h1, v) := deepClone h (VRef l) in
      let* (h2, vs) := clone_all h1 ls' in
      Ok (h2, v :: vs)
  end.

Definition snapshot (s : state) : result (heap * list value) :=
  clone_all (mem s) (map snd (rows s)).

(** One key of the filter against one row: the body of the callback given
    to [every].  [regexp_test] depends on the text alone, as [test] does for
    an expression without the flags [g] and [y]; with one of them the
    expression keeps a position from one call to the next, which is left
    out. *)
Definition field_matches (h : heap) (row : value) (kv : string * value) : bool :=
  let expected := snd kv in
  let actual := read h row (fst kv) in
  match as_regexp h expected, actual with
  | Some re, VString str => regexp_test re str
  | _, _ =>
      match as_function h expected with
      | Some f =>
          match apply_fn f h actual with
          | Some r => to_boolean r
          | None => false
          end
      | None => strict_eq actual expected
      end
  end.

Definition row_matches (h : heap) (f : props) (row : value) : bool :=
  forallb (field_matches h row) f.

Definition filter_rows (h : heap) (opts : QueryOptions) (arr : list value)
  : list value :=
  match opt_filter opts with
  | Some f => List.filter (row_matches h f) arr
  | None => arr
  end.

(** The comparator given to [sort]. *)
Definition compare_rows (h : heap) (k : string) (order : option sort_order)
  (a b : value) : Z :=
  let aVal := read h a k in
  let bVal := read h b k in
  if strict_eq aVal bVal then 0
  else
    let cmp := if js_gt h aVal bVal then 1 else -1 in
    match order with
    | Some Desc => - cmp
    | _ => cmp
    end.

(** [if (opts.sortBy)] is a test of truthiness: the empty string does not
    sort. *)
Definition sort_rows (h : heap) (opts : QueryOptions) (arr : list value)
  : list value :=
  match opt_sortBy opts with
  | Some k =>
      if String.eqb k "" then arr
      else array_sort (compare_rows h k (opt_sortOrder opts)) arr
  | None => arr
  end.

Definition paginate (opts : QueryOptions) (arr : list value) : list value :=
  let offset := match opt_offset opts with Some o => o | None => 0 end in
  let limit := match opt_limit opts with
               | Some n => n
               | None => Z.of_nat (length arr)
               end in
  slice offset (offset + limit) arr.

(** [query(opts)].  The array returned is given by its elements. *)
Definition query (s : state) (opts : QueryOptions)
  : state * result (list value) :=
  match snapshot s with
  | Ok (h1, arr) =>
      ({| mem := h1; rows := rows s |},
       Ok (paginate opts (sort_rows h1 opts (filter_rows h1 opts arr))))
  | Throw x => (s, Throw x)
  | Stuck => (s, Stuck)
  end.

(** ** Sequences of operations *)

Inductive op : Type :=
| OpInsert (row : props) (e : entropy)
| OpGet (id : value)
| OpUpdate (id : value) (patch : props)
| OpDelete (id : value)
| OpQuery (opts : QueryOptions)
| OpClear.

Definition step (s : state) (o : op) : state :=
  match o with
  | OpInsert row e => fst (insert s row e)
  | OpGet id => fst (get s id)
  | OpUpdate id patch => fst (update s id patch)
  | OpDelete id => fst (delete s id)
  | OpQuery opts => fst (query s opts)
  | OpClear => clear s
  end.

Definition run (s : state) (os : list op) : state := fold_left step os s.

(** A table that has no row yet, in a heap [h] of the caller. *)
Definition empty_table (h : heap) : state := {| mem := h; rows := [] |}.

(** The entry [(k, l)] of the map holds a row whose [id] is the key. *)
Definition id_is_key (h : heap) (kl : value * loc) : Prop :=
  match h !! snd kl with
  | Some (OPlain ps) => assoc_get "id" ps = Some (fst kl)
  | _ => False
  end.

(** Keys are unique, every row carries its key as [id], and no key is the
    empty string. *)
Definition ids_ok (s : state) : Prop :=
  NoDup (keys (rows s))
  /\ Forall (id_is_key (mem s)) (rows s)
  /\ Forall (fun kl => fst kl ≠ VString "") (rows s).

(** The own properties of a returned row, and the rows a [query] returns
    seen through them. *)
Definition row_props (h : heap) (v : value) : option props :=
  match v with
  | VRef l => match h !! l with Some (OPlain ps) => Some ps | _ => None end
  | _ => None
  end.

Definition query_view (s : state) (opts : QueryOptions)
  : result (list (option props)) :=
  let* vs := snd (query s opts) in
  Ok (map (row_props (mem (fst (query s opts)))) vs).

Definition offset_of (opts : QueryOptions) : Z :=
  match opt_offset opts with Some o => o | None => 0 end.

Definition limit_of (opts : QueryOptions) (arr : list value) : Z :=
  match opt_limit opts with Some n => n | None => Z.of_nat (length arr) end.

(** The table of the scenario: [{id:"a", age:30}], [{id:"b", age:20}],
    [{id:"c", age:25}] inserted in this order. *)
Definition aged (id : string) (age : Z) : props :=
  [("id", VString id); ("age", VNumber (Fin age))].

Definition scenario_table (e1 e2 e3 : entropy) : state :=
  run (empty_table [])
    [OpInsert (aged "a" 30) e1; OpInsert (aged "b" 20) e2; OpInsert (aged "c" 25) e3].

(** The natural ordering of field values: numbers by value, strings unit
    by unit.  Values of different kinds, and values of other kinds, are not
    ordered. *)
Definition val_le (a b : value) : Prop :=
  match a, b with
  | VNumber (Fin x), VNumber (Fin y) => x <= y
  | VString x, VString y => String.compare x y ≠ Gt
  | _, _ => False
  end.

Definition is_finite (v : value) : Prop :=
  match v with VNumber (Fin _) => True | _ => False end.

Definition is_string (v : value) : Prop :=
  match v with VString _ => True | _ => False end.

(** All numbers, or all strings. *)
Definition naturally_ordered (vs : list value) : Prop :=
  Forall is_finite vs \/ Forall is_string vs.

(** The order asked for: ascending unless [sortOrder] is ["desc"]. *)
Definition in_order (order : option sort_order) (a b : value) : Prop :=
  match order with
  | Some Desc => val_le b a
  | _ => val_le a b
  end.

(** What a value holds, observed by serialising it. *)
Definition content (h : heap) (v : value) : result (option json) :=
  stringify (S (length h)) h [] v.

(** What [get(id)] returns, observed in the same way. *)
Definition get_content (s : state) (id : value) : result (option json) :=
  let* v := snd (get s id) in
  content (mem (fst (get s id))) v.

(** The values an operation hands to its caller. *)
Definition returned (s : state) (o : op) : list value :=
  match o with
  | OpInsert row e => match snd (insert s row e) with Ok v => [v] | _ => [] end
  | OpGet id => match snd (get s id) with Ok v => [v] | _ => [] end
  | OpUpdate id patch => match snd (update s id patch) with Ok v => [v] | _ => [] end
  | OpQuery opts => match snd (query s opts) with Ok vs => vs | _ => [] end
  | OpDelete _ | OpClear => []
  end.

(** The objects an operation is given are objects of the heap. *)
Definition op_args_ok (s : state) (o : op) : Prop :=
  match o with
  | OpInsert row _ => Forall (val_below (length (mem s))) (map snd row)
  | OpUpdate _ patch => Forall (val_below (length (mem s))) (map snd patch)
  | _ => True
  end.

(** The same along a sequence of operations, each in the state it is
    applied to. *)
Fixpoint ops_args_ok (s : state) (os : list op) : Prop :=
  match os with
  | [] => True
  | o :: os' => op_args_ok s o /\ ops_args_ok (step s o) os'
  end.

(** A primitive value: anything but an object. *)
Definition is_primitive (v : value) : Prop :=
  match v with VRef _ => False | _ => True end.


(** An operation that cannot break [ids_ok]: an explicit identifier given
    to [insert] is not the empty string, and a patch given to [update] has
    no [id] other than the one it is applied to. *)
Definition op_keeps_ids (o : op) : Prop :=
  match o with
  | OpInsert row e => assoc_get "id" row ≠ Some (VString "")
  | OpUpdate id patch => Forall (fun kv => fst kv = "id" -> snd kv = id) patch
  | _ => True
  end.

(** A value that is not a pattern and not a predicate: a primitive, or a
    plain object, array or date of the heap. *)
Definition is_plain (h : heap) (v : value) : Prop :=
  match v with
  | VRef l =>
      match h !! l with
      | Some (OPlain _) | Some (OArray _) | Some (ODate _) => True
      | _ => False
      end
  | _ => True
  end.

(** Executable forms of [val_below], [closed_below] and [wf_state]. *)
Definition val_belowb (n : nat) (v : value) : bool :=
  match v with VRef l => (l <? n)%nat | _ => true end.

Definition closed_belowb (n : nat) (h : heap) : bool :=
  forallb (fun o => forallb (val_belowb n) (obj_values o)) (take n h).

Definition wf_stateb (s : state) : bool :=
  closed_belowb (length (mem s)) (mem s)
  && forallb (fun kl : value * loc => (snd kl <? length (mem s))%nat) (rows s).

End Runtime.

(** ** A runtime for the examples *)

(** [Date.prototype.toISOString]: the civil date of a number of days since
    1970-01-01, then the fields zero-padded; years outside 0..9999 are
    written with a sign and six digits. *)
Definition digit (n : Z) : string :=
  String (ascii_of_nat (48 + Z.to_nat n)) EmptyString.

Fixpoint pad (width : nat) (n : Z) : string :=
  match width with
  | O => EmptyString
  | S w => String.append (pad w (n / 10)) (digit (n mod 10))
  end.

Definition civil_from_days (days : Z) : Z * Z * Z :=
  let z := days + 719468 in
  let era := z / 146097 in
  let doe := z - era * 146097 in
  let yoe := (doe - doe / 1460 + doe / 36524 - doe / 146096) / 365 in
  let doy := doe - (365 * yoe + yoe / 4 - yoe / 100) in
  let mp := (5 * doy + 2) / 153 in
  let d := doy - (153 * mp + 2) / 5 + 1 in
  let m := if mp <? 10 then mp + 3 else mp - 9 in
  let y := yoe + era * 400 in
  (if m <=? 2 then y + 1 else y, m, d).

Definition toISOString (t : Z) : string :=
  let ms := t mod 86400000 in
  let '(y, m, d) := civil_from_days (t / 86400000) in
  let year := if (0 <=? y) && (y <=? 9999) then pad 4 y
              else String.append (if y <? 0 then "-" else "+") (pad 6 (Z.abs y)) in
  String.concat ""
    [year; "-"; pad 2 m; "-"; pad 2 d; "T"; pad 2 (ms / 3600000); ":";
     pad 2 (ms / 60000 mod 60); ":"; pad 2 (ms / 1000 mod 60); ".";
     pad 3 (ms mod 1000); "Z"].

(** Function 0 throws on every argument and every other function returns
    [true]; every regular expression matches every string; an object
    converts to the text of [Object.prototype.toString]; only the empty
    string is read as a number. *)
Definition example_runtime : Runtime := {|
  apply_fn := fun f _ _ => match f with O => None | _ => Some (VBool true) end;
  regexp_test := fun _ _ => true;
  to_primitive := fun _ _ => VString "[object Object]";
  string_to_number := fun str => if String.eqb str "" then Fin 0 else NaN;
  date_iso := toISOString
|}.

Definition no_options : QueryOptions :=
  {| opt_limit := None; opt_offset := None; opt_sortBy := None;
     opt_sortOrder := None; opt_filter := None |}.

(** Some entropy for [makeId], as one call could draw it. *)
Definition some_entropy : entropy :=
  {| rand1 := "3f9a"; rand2 := "c01d"; stamp := "lq2x8k3v" |}.

(** ** Tables for the examples *)

Section Examples.

#[local] Existing Instance example_runtime.

Definition result_or {A : Type} (d : A) (r : result A) : A :=
  match r with Ok a => a | _ => d end.

(** Three users, in a heap that already has the function 0. *)
Definition staff : state :=
  run (empty_table [OFunction 0%nat])
    [OpInsert [("id", VString "u1"); ("role", VString "admin")] some_entropy;
     OpInsert [("id", VString "u2"); ("role", VString "user")] some_entropy;
     OpInsert [("id", VString "u3"); ("role", VString "admin")] some_entropy].

Definition staff_copies : heap * list value := result_or ([], []) (snapshot staff).

Definition with_filter (f : props) : QueryOptions :=
  {| opt_limit := None; opt_offset := None; opt_sortBy := None;
     opt_sortOrder := None; opt_filter := Some f |}.

(** The table of the scenario and two ways to ask for it. *)
Definition ages : state := scenario_table some_entropy some_entropy some_entropy.

Definition ages_copies : heap * list value := result_or ([], []) (snapshot ages).

Definition by_age : QueryOptions :=
  {| opt_limit := None; opt_offset := None; opt_sortBy := Some "age";
     opt_sortOrder := None; opt_filter := None |}.

Definition second_oldest : QueryOptions :=
  {| opt_limit := Some 1; opt_offset := Some 1; opt_sortBy := Some "age";
     opt_sortOrder := Some Desc; opt_filter := None |}.

(** A record with a nested array, in a heap that holds the array. *)
Definition ann_heap : heap := [OArray [VString "ops"; VString "dev"]].

Definition ann : props := [("name", VString "Ann"); ("teams", VRef 0%nat)].

Definition ann_json : list (string * json) :=
  [("name", JStr "Ann"); ("teams", JArr [JStr "ops"; JStr "dev"])].

(** Operations that respect identifiers. *)
Definition careful_ops : list op :=
  [OpInsert [("name", VString "Ann")] some_entropy;
   OpInsert [("id", VString "b"); ("name", VString "Bob")] some_entropy;
   OpUpdate (VString "b") [("id", VString "b"); ("name", VString "Rob")];
   OpQuery no_options;
   OpDelete (VString "b")].

(** An update whose patch carries another identifier. *)
Definition renaming_ops : list op :=
  [OpInsert [("id", VString "a")] some_entropy;
   OpUpdate (VString "a") [("id", VString "b")]].

(** A table with the record [{id:"a", v:1}], and a record with the same
    identifier. *)
Definition one_row : state :=
  run (empty_table [])
    [OpInsert [("id", VString "a"); ("v", VNumber (Fin 1))] some_entropy].

Definition same_id : props := [("id", VString "a"); ("v", VNumber (Fin 2))].

(** A record whose field is a [Date], the epoch. *)
Definition dated_heap : heap := [ODate (Fin 0)].

Definition dated : props := [("createdAt", VRef 0%nat)].

(** Two rows with a field named by the empty string. *)
Definition unnamed_field : state :=
  run (empty_table [])
    [OpInsert [("id", VString "a"); ("", VNumber (Fin 2))] some_entropy;
     OpInsert [("id", VString "b"); ("", VNumber (Fin 1))] some_entropy].

Definition by_unnamed : QueryOptions :=
  {| opt_limit := None; opt_offset := None; opt_sortBy := Some "";
     opt_sortOrder := None; opt_filter := None |}.

Definition negative_limit : QueryOptions :=
  {| opt_limit := Some (-1); opt_offset := None; opt_sortBy := None;
     opt_sortOrder := None; opt_filter := None |}.

End Examples.

(** ** Reading the table's operations *)

(** The identifier [insert] stores a row under: [row.id ?? makeId()]. *)
Definition insert_id (row : props) (e : entropy) : value :=
  match assoc_get "id" row with
  | None | Some VUndefined | Some VNull => VString (makeId "" e)
  | Some v => v
  end.

(** The operation [o] sets or removes the entry of the key [id]. *)
Definition writes_to (o : op) (id : value) : Prop :=
  match o with
  | OpInsert row e => insert_id row e = id
  | OpUpdate id' _ | OpDelete id' => id' = id
  | OpClear => True
  | OpGet _ | OpQuery _ => False
  end.

(** [{...base, ...extra}] on the members of JSON objects. *)
Definition spread_json (base extra : list (string * json)) : list (string * json) :=
  fold_left (fun acc kj => assoc_set (fst kj) (snd kj) acc) extra base.

(** Options that ask for the page of [limit] rows after the first [offset]
    ones, and leave filter and sort as they are in [opts]. *)
Definition page (opts : QueryOptions) (offset limit : Z) : QueryOptions :=
  {| opt_limit := Some limit; opt_offset := Some offset;
     opt_sortBy := opt_sortBy opts; opt_sortOrder := opt_sortOrder opts;
     opt_filter := opt_filter opts |}.

(** Options that sort by [k] in the given order, without pagination. *)
Definition sorted_by (k : string) (order : option sort_order) (f : option props)
  : QueryOptions :=
  {| opt_limit := None; opt_offset := None; opt_sortBy := Some k;
     opt_sortOrder := order; opt_filter := f |}.

(** ** What the table compares and what it serialises *)




(** The object at [l] has a [toJSON] member that is a function.
    [JSON.stringify] serialises what that function returns in place of the
    object; [stringify] has this for dates only, so what it says of a value
    is what [JSON.stringify] does when no object the value holds has such a
    member. *)
Definition has_toJSON (h : heap) (l : loc) : Prop :=
  match h !! l with
  | Some (OPlain ps) => as_function h (read_prop "toJSON" ps) <> None
  | _ => False
  end.

(** No object that [v] is or holds has a [toJSON] method of its own. *)
Definition plain_data (h : heap) (v : value) : Prop :=
  forall l, reach h v l -> ~ has_toJSON h l.

(** No row of the table has such a method, nor holds an object that has. *)
Definition rows_plain (s : state) : Prop :=
  Forall (fun kl : value * loc => plain_data (mem s) (VRef (snd kl))) (rows s).

(** The same for every object of the heap, as a test. *)
Definition no_toJSONb (h : heap) : bool :=
  forallb (fun o => match o with
                    | OPlain ps =>
                        match as_function h (read_prop "toJSON" ps) with
                        | Some _ => false
                        | None => true
                        end
                    | _ => true
                    end) h.

Section Filters.

Context `{rt : Runtime}.



End Filters.

(** ** Repositories and services *)

Inductive UserRole : Type := Guest | User | Moderator | Admin.

(** The string each member of the [enum] stands for. *)
Definition role_text (r : UserRole) : string :=
  match r with
  | Guest => "guest"
  | User => "user"
  | Moderator => "moderator"
  | Admin => "admin"
  end.

(** The payload of [registerUser]. *)
Record RegisterPayload : Type := {
  username : string;
  email : string;
  role : option UserRole
}.

(** A [Result<T>]: [{ ok: false, error: new Error(message) }] or
    [{ ok: true, value }], given by its tag and what it carries. *)
Inductive Result : Type :=
| Failed (message : string)
| Succeeded (v : value).

(** A member of a JSON object; nothing for any other tree. *)
Definition json_field (k : string) (j : json) : option json :=
  match j with
  | JObj jps => assoc_get k jps
  | _ => None
  end.

Section Services.

Context `{rt : Runtime}.

(** What the row at [l] serialises to in the field [k]. *)
Definition row_field (s : state) (l : loc) (k : string) : option json :=
  match content (mem s) (VRef l) with
  | Ok (Some j) => json_field k j
  | _ => None
  end.

(** [UserRepository.create(user)] at the clock reading [t]: [now()]
    allocates the date, the object literal the record [toCreate], and
    [insert] stores its own copy of that record.  [user] is given by its own
    properties. *)
Definition user_create (s : state) (user : props) (e : entropy) (t : Z)
  : state * result value :=
  let nowDate := VRef (length (mem s)) in
  let toCreate :=
    assoc_set "updatedAt" nowDate
      (assoc_set "createdAt" nowDate
         (assoc_set "id" (VString (makeId "user_" e)) user)) in
  insert {| mem := mem s ++ [ODate (Fin t); OPlain toCreate]; rows := rows s |}
    toCreate e.

(** [PostRepository.create(post)]: the same, with the prefix ["post_"] and a
    new empty object for [reactions]. *)
Definition post_create (s : state) (post : props) (e : entropy) (t : Z)
  : state * result value :=
  let nowDate := VRef (length (mem s)) in
  let reactions := VRef (S (length (mem s))) in
  let toCreate :=
    assoc_set "reactions" reactions
      (assoc_set "updatedAt" nowDate
         (assoc_set "createdAt" nowDate
            (assoc_set "id" (VString (makeId "post_" e)) post))) in
  insert {| mem := mem s ++ [ODate (Fin t); OPlain []; OPlain toCreate];
            rows := rows s |}
    toCreate e.

(** [findById(id)] of both repositories is [get]. *)
Definition findById (s : state) (id : value) : state * result value := get s id.

(** [UserRepository.findByEmail(email)]: element 0 of the array that
    [query({ filter: { email } })] returns, [undefined] when it is empty. *)
Definition findByEmail (s : state) (mail : string) : state * result value :=
  match query s (with_filter [("email", VString mail)]) with
  | (s1, Ok vs) => (s1, Ok (match vs with v :: _ => v | [] => VUndefined end))
  | (s1, Throw x) => (s1, Throw x)
  | (s1, Stuck) => (s1, Stuck)
  end.

(** [update(id, patch)] of both repositories, where the patch is the plain
    object at [lp]: [patch.updatedAt = now()] changes that object, then the
    table merges it into the row. *)
Definition repo_update (s : state) (id : value) (lp : loc) (t : Z)
  : state * result value :=
  match mem s !! lp with
  | Some (OPlain patch) =>
      let stamped := assoc_set "updatedAt" (VRef (length (mem s))) patch in
      update {| mem := <[lp := OPlain stamped]> (mem s) ++ [ODate (Fin t)];
                rows := rows s |}
        id stamped
  | _ => (s, Stuck)
  end.

(** The body of [UserService.registerUser(payload)] after its delay. *)
Definition registerUser (s : state) (payload : RegisterPayload) (e : entropy) (t : Z)
  : state * result Result :=
  match findByEmail s (email payload) with
  | (s1, Ok found) =>
      if to_boolean found then (s1, Ok (Failed "Email already registered"))
      else
        let addresses := VRef (length (mem s1)) in
        let user :=
          [("username", VString (username payload));
           ("email", VString (email payload));
           ("role", VString (role_text (default User (role payload))));
           ("addresses", addresses)] in
        match user_create {| mem := mem s1 ++ [OArray []; OPlain user];
                             rows := rows s1 |} user e t with
        | (s2, Ok created) => (s2, Ok (Succeeded created))
        | (s2, Throw x) => (s2, Throw x)
        | (s2, Stuck) => (s2, Stuck)
        end
  | (s1, Throw x) => (s1, Throw x)
  | (s1, Stuck) => (s1, Stuck)
  end.

(** The record that a registration at the clock reading [t] creates, as
    JSON. *)
Definition registered (payload : RegisterPayload) (e : entropy) (t : Z)
  : list (string * json) :=
  [("username", JStr (username payload));
   ("email", JStr (email payload));
   ("role", JStr (role_text (default User (role payload))));
   ("addresses", JArr []);
   ("id", JStr (makeId "user_" e));
   ("createdAt", JStr (date_iso t));
   ("updatedAt", JStr (date_iso t))].

(** [UserService.getUser(userId)]. *)
Definition getUser (s : state) (userId : value) : state * result Result :=
  match findById s userId with
  | (s1, Ok u) =>
      (s1, Ok (if to_boolean u then Succeeded u else Failed "User not found"))
  | (s1, Throw x) => (s1, Throw x)
  | (s1, Stuck) => (s1, Stuck)
  end.

(** The body of [UserService.addAddress(userId, addr)] after its delay:
    [t1] is the clock reading for the address, [t2] the one for the update.
    [user.addresses.push(address)] throws a [TypeError] unless [addresses]
    is an array: nothing else that a copy can hold has a [push]. *)
Definition addAddress (s : state) (userId : value) (addr : props) (e : entropy)
    (t1 t2 : Z) : state * result Result :=
  match findById s userId with
  | (s1, Ok user) =>
      if to_boolean user then
        let address :=
          assoc_set "createdAt" (VRef (length (mem s1)))
            (assoc_set "id" (VString (makeId "addr_" e)) addr) in
        let la := S (length (mem s1)) in
        let h2 := mem s1 ++ [ODate (Fin t1); OPlain address] in
        match read h2 user "addresses" with
        | VRef arr =>
            match h2 !! arr with
            | Some (OArray elems) =>
                let h3 := <[arr := OArray (elems ++ [VRef la])]> h2 in
                match repo_update
                        {| mem := h3 ++ [OPlain [("addresses", VRef arr)]];
                           rows := rows s1 |} userId (length h3) t2 with
                | (s2, Ok _) => (s2, Ok (Succeeded (VRef la)))
                | (s2, Throw x) => (s2, Throw x)
                | (s2, Stuck) => (s2, Stuck)
                end
            | Some _ => ({| mem := h2; rows := rows s1 |}, Throw TypeError)
            | None => ({| mem := h2; rows := rows s1 |}, Stuck)
            end
        | _ => ({| mem := h2; rows := rows s1 |}, Throw TypeError)
        end
      else (s1, Ok (Failed "User not found"))
  | (s1, Throw x) => (s1, Throw x)
  | (s1, Stuck) => (s1, Stuck)
  end.

(** The body of [PostService.publish(postId)] after its delay, on the table
    of the post repository. *)
Definition publish (s : state) (postId : value) (t : Z) : state * result Result :=
  match findById s postId with
  | (s1, Ok p) =>
      if to_boolean p then
        match repo_update
                {| mem := mem s1 ++ [OPlain [("published", VBool true)]];
                   rows := rows s1 |} postId (length (mem s1)) t with
        | (s2, Ok updated) =>
            (s2, Ok (if to_boolean updated then Succeeded updated
                     else Failed "Failed to publish"))
        | (s2, Throw x) => (s2, Throw x)
        | (s2, Stuck) => (s2, Stuck)
        end
      else (s1, Ok (Failed "Post not found"))
  | (s1, Throw x) => (s1, Throw x)
  | (s1, Stuck) => (s1, Stuck)
  end.

(** [PostService.listRecent(limit)], [limit] being 10 when left out. *)
Definition listRecent (s : state) (limit : option Z) : state * result (list value) :=
  query s {| opt_limit := Some (default 10 limit); opt_offset := None;
             opt_sortBy := Some "createdAt"; opt_sortOrder := Some Desc;
             opt_filter := None |}.

(** One call of [registerUser], with what the runtime draws for it. *)
Record registration : Type := {
  reg_payload : RegisterPayload;
  reg_entropy : entropy;
  reg_time : Z
}.

Definition register_all (s : state) (calls : list registration) : state :=
  fold_left
    (fun s c => fst (registerUser s (reg_payload c) (reg_entropy c) (reg_time c)))
    calls s.

(** Some row of the table holds the text [x] as its [email]. *)
Definition email_taken (s : state) (x : string) : Prop :=
  exists kl, kl ∈ rows s /\ row_field s (snd kl) "email" = Some (JStr x).

(** Every row of the table serialises: none holds itself. *)
Definition rows_serialise (s : state) : Prop :=
  Forall (fun kl : value * loc => exists j, content (mem s) (VRef (snd kl)) = Ok (Some j))
    (rows s).

(** No two entries of the table hold rows with the same [email] text. *)
Definition emails_unique (s : state) : Prop :=
  forall k1 l1 k2 l2 x,
    assoc_get k1 (rows s) = Some l1 -> assoc_get k2 (rows s) = Some l2 ->
    row_field s l1 "email" = Some (JStr x) ->
    row_field s l2 "email" = Some (JStr x) ->
    k1 = k2.

End Services.

(** ** Retrying *)

Section Retry.

Context {St T E : Type}.

(** What a call of [retry] did: the state its last call of [fn] left, the
    delays it waited for, in order, and the value it returned or threw
    ([None] is [undefined], the first value of [lastErr]). *)
Record retried : Type := {
  final : St;
  delays : list Z;
  outcome : T + option E
}.

(** The loop of [retry], with [remaining] iterations to go from the counter
    [i].  [fn] is given by what a call does to the state of the program and
    whether its promise is fulfilled or rejected. *)
Fixpoint retry_loop (fn : St -> St * (T + E)) (remaining : nat) (i backoffMs : Z)
    (lastErr : option E) (st : St) : retried :=
  match remaining with
  | O => {| final := st; delays := []; outcome := inr lastErr |}
  | S r =>
      match fn st with
      | (st1, inl v) => {| final := st1; delays := []; outcome := inl v |}
      | (st1, inr err) =>
          let rest := retry_loop fn r (i + 1) backoffMs (Some err) st1 in
          {| final := final rest;
             delays := backoffMs * (i + 1) :: delays rest;
             outcome := outcome rest |}
      end
  end.

(** [retry(fn, attempts, backoffMs)] for integral arguments: the loop runs
    for the counters 0 to [attempts - 1]. *)
Definition retry (fn : St -> St * (T + E)) (attempts backoffMs : Z) (st : St)
  : retried :=
  retry_loop fn (Z.to_nat attempts) 0 backoffMs None st.

(** The state in which the call number [n] of [fn] starts, counting from 0,
    when the calls before it were made one after the other. *)
Fixpoint state_before (fn : St -> St * (T + E)) (n : nat) (st : St) : St :=
  match n with
  | O => st
  | S k => state_before fn k (fst (fn st))
  end.

(** The call number [n] is rejected with [err]. *)
Definition fails_with (fn : St -> St * (T + E)) (st : St) (n : nat) (err : E) : Prop :=
  snd (fn (state_before fn n st)) = inr err.

End Retry.

(** ** More tables for the examples *)

Section MoreExamples.

#[local] Existing Instance example_runtime.

(** A patch for the row of [one_row]. *)
Definition raise_v : props := [("v", VNumber (Fin 2)); ("w", VBool true)].

(** The table that holds the record of [dated], with its [Date]. *)
Definition dated_table : state :=
  run (empty_table dated_heap) [OpInsert dated some_entropy].

(** The table that holds the record of [ann], with its array. *)
Definition ann_table : state :=
  run (empty_table ann_heap) [OpInsert ann some_entropy].

(** Two rows, one with a string and one with a number in [name], in a heap
    that has a regular expression. *)
Definition named : state :=
  run (empty_table [ORegExp 0%nat])
    [OpInsert [("id", VString "a"); ("name", VString "Ann")] some_entropy;
     OpInsert [("id", VString "b"); ("name", VNumber (Fin 5))] some_entropy].

Definition named_copies : heap * list value := result_or ([], []) (snapshot named).

Definition two_from_end : QueryOptions :=
  {| opt_limit := None; opt_offset := Some (-2); opt_sortBy := Some "age";
     opt_sortOrder := None; opt_filter := None |}.

(** An object with a [Date] in it. *)
Definition event_heap : heap := [ODate (Fin 0); OPlain [("at", VRef 0%nat)]].


Definition ann_payload : RegisterPayload :=
  {| username := "ann"; email := "ann@mail.com"; role := None |}.

Definition ann_again : RegisterPayload :=
  {| username := "ann2"; email := "ann@mail.com"; role := Some Admin |}.

Definition other_entropy : entropy :=
  {| rand1 := "77aa"; rand2 := "0b1c"; stamp := "lq2x8k4a" |}.

Definition registry : state :=
  register_all (empty_table [])
    [{| reg_payload := ann_payload; reg_entropy := some_entropy; reg_time := 1000 |}].

(** A table of two posts, created at different times. *)
Definition first_post : props :=
  [("authorId", VString "u1"); ("title", VString "Hello"); ("published", VBool false)].

Definition second_post : props :=
  [("authorId", VString "u1"); ("title", VString "Again"); ("published", VBool false)].

Definition posts : state :=
  fst (post_create (fst (post_create (empty_table []) first_post some_entropy 1000))
         second_post other_entropy 86400000).

Definition posts_copies : heap * list value := result_or ([], []) (snapshot posts).

(** A patch object in a heap of its own. *)
Definition patch_heap : heap := [OPlain [("published", VBool true)]].

(** An operation that is rejected twice and fulfilled from then on, and
    one that is always rejected; the state counts the calls. *)
Definition flaky (n : nat) : nat * (string + string) :=
  (S n, if (n <? 2)%nat then inr "busy" else inl "done").

Definition broken (n : nat) : nat * (string + string) := (S n, inr "down").

(** The row of the user of [registry], and an address to add. *)
Definition ann_row : props :=
  [("username", VString "ann"); ("email", VString "ann@mail.com");
   ("role", VString "user"); ("addresses", VRef 0%nat);
   ("id", VString (makeId "user_" some_entropy));
   ("createdAt", VRef 2%nat); ("updatedAt", VRef 2%nat)].

Definition paris : props := [("city", VString "Paris")].


End MoreExamples.

(** ** A runtime with a predicate that can throw *)

(** Every function is [(x) => x.startsWith("A")]: it returns a boolean on
    a string and throws on anything else. *)
Definition prefix_runtime : Runtime := {|
  apply_fn := fun _ _ v => match v with
                           | VString str => Some (VBool (String.prefix "A" str))
                           | _ => None
                           end;
  regexp_test := fun _ _ => true;
  to_primitive := fun _ _ => VString "[object Object]";
  string_to_number := fun str => if String.eqb str "" then Fin 0 else NaN;
  date_iso := toISOString
|}.

Section PredicateExamples.

#[local] Existing Instance prefix_runtime.



End PredicateExamples.

Section Facts.

Context `{rt : Runtime}.

(** ** Basic facts about keyed lists *)

Lemma assoc_get_set_eq {K V} `{EqDecision K} (k : K) (v : V) l :
  assoc_get k (assoc_set k v l) = Some v.
Proof.
  induction l as [|[k' v'] l IH]; simpl.
  - by rewrite decide_True.
  - destruct (decide (k = k')) as [->|Hne]; simpl.
    + by rewrite decide_True.
    + by rewrite decide_False.
Qed.

Lemma assoc_get_set_ne {K V} `{EqDecision K} (k k0 : K) (v : V) l :
  k0 ≠ k -> assoc_get k0 (assoc_set k v l) = assoc_get k0 l.
Proof.
  intros Hne. induction l as [|[k' v'] l IH]; simpl.
  - by rewrite decide_False.
  - destruct (decide (k = k')) as [->|Hk]; simpl.
    + by rewrite !decide_False.
    + destruct (decide (k0 = k')); [done|apply IH].
Qed.

Lemma assoc_get_None {K V} `{EqDecision K} (k : K) (l : list (K * V)) :
  assoc_get k l = None <-> k ∉ keys l.
Proof.
  unfold keys. induction l as [|[k' v'] l IH]; simpl.
  - split; [intros _; apply not_elem_of_nil|done].
  - rewrite not_elem_of_cons. destruct (decide (k = k')); split; try done.
    + intros [? _]; done.
    + intros Hg. split; [done|by apply IH].
    + intros [_ ?]. by apply IH.
Qed.

Lemma assoc_get_elem {K V} `{EqDecision K} (k : K) (v : V) l :
  assoc_get k l = Some v -> (k, v) ∈ l.
Proof.
  induction l as [|[k' v'] l IH]; simpl; [done|].
  destruct (decide (k = k')) as [->|Hne].
  - intros [= ->]. apply list_elem_of_here.
  - intros Hg. apply list_elem_of_further, IH, Hg.
Qed.

Lemma keys_assoc_set_present {K V} `{EqDecision K} (k : K) (v : V) l :
  k ∈ keys l -> keys (assoc_set k v l) = keys l.
Proof.
  unfold keys. induction l as [|[k' v'] l IH]; simpl.
  - intros Hin. by apply elem_of_nil in Hin.
  - intros Hin. destruct (decide (k = k')) as [->|Hne]; simpl; [done|].
    f_equal. apply IH. apply elem_of_cons in Hin as [?|?]; done.
Qed.

Lemma keys_assoc_set_absent {K V} `{EqDecision K} (k : K) (v : V) l :
  k ∉ keys l -> keys (assoc_set k v l) = keys l ++ [k].
Proof.
  unfold keys. induction l as [|[k' v'] l IH]; simpl; [done|].
  rewrite not_elem_of_cons. intros [Hne Hnin].
  rewrite decide_False by done. simpl. f_equal. by apply IH.
Qed.

Lemma assoc_set_NoDup {K V} `{EqDecision K} (k : K) (v : V) l :
  NoDup (keys l) -> NoDup (keys (assoc_set k v l)).
Proof.
  intros Hnd. destruct (decide (k ∈ keys l)) as [Hin|Hnin].
  - by rewrite keys_assoc_set_present.
  - rewrite keys_assoc_set_absent by done.
    apply NoDup_app. split; [done|]. split.
    + intros x Hx Hx'. apply list_elem_of_singleton in Hx'. by subst.
    + apply NoDup_singleton.
Qed.

Lemma assoc_has_true {K V} `{EqDecision K} (k : K) (l : list (K * V)) :
  assoc_has k l = true <-> k ∈ keys l.
Proof.
  unfold assoc_has. destruct (assoc_get k l) eqn:Hg.
  - split; [intros _|done].
    destruct (decide (k ∈ keys l)) as [|Hn]; [done|].
    apply assoc_get_None in Hn. congruence.
  - split; [done|]. intros Hin. by apply assoc_get_None in Hg.
Qed.

Lemma assoc_del_absent {K V} `{EqDecision K} (k : K) (l : list (K * V)) :
  assoc_has k l = false -> assoc_del k l = l.
Proof.
  unfold assoc_has. induction l as [|[k' v'] l IH]; simpl; [done|].
  destruct (decide (k = k')); [done|].
  intros Hg. f_equal. by apply IH.
Qed.

Lemma assoc_del_length {K V} `{EqDecision K} (k : K) (l : list (K * V)) :
  assoc_has k l = true -> (length (assoc_del k l) + 1 = length l)%nat.
Proof.
  unfold assoc_has. induction l as [|[k' v'] l IH]; simpl; [done|].
  destruct (decide (k = k')); [lia|].
  intros Hg. specialize (IH Hg). simpl. lia.
Qed.

Lemma assoc_del_gone {K V} `{EqDecision K} (k : K) (l : list (K * V)) :
  NoDup (keys l) -> assoc_has k (assoc_del k l) = false.
Proof.
  unfold assoc_has, keys. induction l as [|[k' v'] l IH]; simpl; [done|].
  intros Hnd. apply NoDup_cons in Hnd as [Hnin Hnd].
  destruct (decide (k = k')) as [->|Hne].
  - apply (assoc_get_None k' l) in Hnin. by rewrite Hnin.
  - simpl. rewrite decide_False by done. by apply IH.
Qed.

Lemma assoc_del_keys_sub {K V} `{EqDecision K} (k k0 : K) (l : list (K * V)) :
  k0 ∈ keys (assoc_del k l) -> k0 ∈ keys l.
Proof.
  unfold keys. induction l as [|[k' v'] l IH]; simpl; [done|].
  destruct (decide (k = k')) as [->|Hne]; simpl.
  - apply list_elem_of_further.
  - rewrite !elem_of_cons. intros [?|?]; [by left|right; by apply IH].
Qed.

Lemma assoc_del_NoDup {K V} `{EqDecision K} (k : K) (l : list (K * V)) :
  NoDup (keys l) -> NoDup (keys (assoc_del k l)).
Proof.
  unfold keys. induction l as [|[k' v'] l IH]; simpl; [done|].
  intros Hnd. apply NoDup_cons in Hnd as [Hnin Hnd].
  destruct (decide (k = k')) as [->|Hne]; [done|].
  simpl. apply NoDup_cons. split; [|by apply IH].
  intros Hin. apply Hnin. by apply (assoc_del_keys_sub k).
Qed.

Lemma assoc_del_Forall {K V} `{EqDecision K} (P : K * V -> Prop) k l :
  Forall P l -> Forall P (assoc_del k l).
Proof.
  induction 1 as [|[k' v'] l HP Hl IH]; simpl; [done|].
  destruct (decide (k = k')); [done|]. by constructor.
Qed.

Lemma assoc_set_Forall {K V} `{EqDecision K} (P : K * V -> Prop) k v l :
  P (k, v) -> Forall P l -> Forall P (assoc_set k v l).
Proof.
  intros Hkv. induction 1 as [|[k' v'] l HP Hl IH]; simpl.
  - by repeat constructor.
  - destruct (decide (k = k')); by constructor.
Qed.

(** ** Allocation by [JSON.parse] *)

Lemma json_ind2 (P : json -> Prop) :
  P JNull -> (forall b, P (JBool b)) -> (forall z, P (JNum z)) ->
  (forall str, P (JStr str)) ->
  (forall js, Forall P js -> P (JArr js)) ->
  (forall jps, Forall (fun kj => P (snd kj)) jps -> P (JObj jps)) ->
  forall j, P j.
Proof.
  intros Hnull Hbool Hnum Hstr Harr Hobj. fix IH 1.
  intros [ | b | z | str | js | jps];
    [apply Hnull|apply Hbool|apply Hnum|apply Hstr| | ].
  - apply Harr. induction js as [|j js IHjs]; constructor; [apply IH|apply IHjs].
  - apply Hobj. induction jps as [|[k j] jps IHjps]; constructor;
      [apply IH|apply IHjps].
Qed.

Lemma parse_elems_extends js :
  Forall (fun j => forall h, exists ext, fst (parse h j) = h ++ ext) js ->
  forall h, exists ext, fst (parse_elems parse h js) = h ++ ext.
Proof.
  induction 1 as [|j js Hj Hjs IH]; intros h; simpl.
  - exists []. by rewrite app_nil_r.
  - destruct (Hj h) as [e1 He1]. destruct (parse h j) as [h1 v]. simpl in He1.
    destruct (IH h1) as [e2 He2]. destruct (parse_elems parse h1 js) as [h2 vs].
    simpl in *. subst. exists (e1 ++ e2). by rewrite app_assoc.
Qed.

Lemma parse_props_extends jps :
  Forall (fun kj => forall h, exists ext, fst (parse h (snd kj)) = h ++ ext) jps ->
  forall h, exists ext, fst (parse_props parse h jps) = h ++ ext.
Proof.
  induction 1 as [|[k j] jps Hj Hjs IH]; intros h; simpl.
  - exists []. by rewrite app_nil_r.
  - simpl in Hj. destruct (Hj h) as [e1 He1]. destruct (parse h j) as [h1 v].
    simpl in He1. destruct (IH h1) as [e2 He2].
    destruct (parse_props parse h1 jps) as [h2 vs].
    simpl in *. subst. exists (e1 ++ e2). by rewrite app_assoc.
Qed.

Lemma parse_extends j : forall h, exists ext, fst (parse h j) = h ++ ext.
Proof.
  induction j as [ | b | z | str | js IH | jps IH] using json_ind2; intros h;
    try (exists []; simpl; by rewrite app_nil_r).
  - simpl. destruct (parse_elems_extends js IH h) as [e He].
    destruct (parse_elems parse h js) as [h1 vs]. simpl in *. subst.
    exists (e ++ [OArray vs]). by rewrite app_assoc.
  - simpl. destruct (parse_props_extends jps IH h) as [e He].
    destruct (parse_props parse h jps) as [h1 vs]. simpl in *. subst.
    exists (e ++ [OPlain vs]). by rewrite app_assoc.
Qed.

Lemma deepClone_extends h v h' v' :
  deepClone h v = Ok (h', v') -> exists ext, h' = h ++ ext.
Proof.
  unfold deepClone. destruct (stringify _ _ _ _) as [[j|]|e|]; simpl; try done.
  intros [= Hp]. destruct (parse_extends j h) as [ext He].
  rewrite Hp in He. by exists ext.
Qed.

Lemma clone_all_extends ls : forall h h' vs,
  clone_all h ls = Ok (h', vs) -> exists ext, h' = h ++ ext.
Proof.
  induction ls as [|l ls IH]; intros h h' vs; simpl.
  - intros [= <- <-]. exists []. by rewrite app_nil_r.
  - destruct (deepClone h (VRef l)) as [[h1 v]|x|] eqn:Hc; simpl; try done.
    destruct (clone_all h1 ls) as [[h2 vs2]|x|] eqn:Hr; simpl; try done.
    intros [= <- <-]. apply deepClone_extends in Hc as [e1 ->].
    apply IH in Hr as [e2 ->]. exists (e1 ++ e2). by rewrite app_assoc.
Qed.

Lemma clone_all_length ls : forall h h' vs,
  clone_all h ls = Ok (h', vs) -> length vs = length ls.
Proof.
  induction ls as [|l ls IH]; intros h h' vs; simpl.
  - by intros [= <- <-].
  - destruct (deepClone h (VRef l)) as [[h1 v]|x|] eqn:Hc; simpl; try done.
    destruct (clone_all h1 ls) as [[h2 vs2]|x|] eqn:Hr; simpl; try done.
    intros [= <- <-]. simpl. f_equal. by eapply IH.
Qed.

(** ** The JSON round trip *)

Lemma all2_Forall2 {A B} (R : A -> B -> Prop) bs xs :
  all2 R bs xs <-> Forall2 R xs bs.
Proof.
  revert xs. induction bs as [|b bs IH]; intros [|x xs]; simpl.
  - split; [constructor|done].
  - split; [done|inversion 1].
  - split; [done|inversion 1].
  - rewrite IH. split; [intros [? ?]; by constructor|inversion 1; by subst].
Qed.

Lemma Forall2_impl_Forall_r {A B} (R R' : A -> B -> Prop) (P : B -> Prop) xs bs :
  Forall P bs -> Forall2 R xs bs ->
  (forall a b, P b -> R a b -> R' a b) -> Forall2 R' xs bs.
Proof.
  intros HP H2 Himp. induction H2 as [|x b xs bs Hxb H2 IH]; [constructor|].
  apply Forall_cons in HP as [Hb HP]. constructor; auto.
Qed.

Lemma represents_extends j : forall h ext v,
  represents h v j -> represents (h ++ ext) v j.
Proof.
  induction j as [ | b | z | str | js IH | jps IH] using json_ind2;
    intros h ext v; simpl; try done.
  - destruct v as [| | | | |l]; try done.
    destruct (h !! l) as [o|] eqn:Hl; [|done].
    rewrite (lookup_app_l_Some _ _ _ _ Hl). destruct o; try done.
    rewrite !all2_Forall2. intros H2.
    eapply Forall2_impl_Forall_r; [exact IH|exact H2|]. simpl. auto.
  - destruct v as [| | | | |l]; try done.
    destruct (h !! l) as [o|] eqn:Hl; [|done].
    rewrite (lookup_app_l_Some _ _ _ _ Hl). destruct o; try done.
    rewrite !all2_Forall2. intros H2.
    eapply Forall2_impl_Forall_r; [exact IH|exact H2|]. simpl.
    intros a b Hb [? ?]. auto.
Qed.

Lemma represents_props_extends h ext ps jps :
  represents_props h ps jps -> represents_props (h ++ ext) ps jps.
Proof.
  unfold represents_props. rewrite !all2_Forall2. intros H2.
  eapply Forall2_impl; [exact H2|]. intros a b [? ?]. split; [done|].
  by apply represents_extends.
Qed.

Lemma represents_fun j1 : forall h v j2,
  represents h v j1 -> represents h v j2 -> j1 = j2.
Proof.
  induction j1 as [ | b | z | str | js IH | jps IH] using json_ind2;
    intros h v j2 H1 H2; destruct j2 as [ | b' | z' | str' | js' | jps'];
    simpl in *; subst; try done; try congruence.
  - destruct v as [| | | | |l]; try done.
    destruct (h !! l) as [[| vs | | |]|]; try done.
    apply all2_Forall2 in H1, H2. f_equal.
    revert js' H2. induction H1 as [|v j vs js Hvj H1 IH1]; intros js' H2.
    + by inversion H2.
    + inversion H2 as [|? j' ? js2 Hvj' H2']; subst.
      apply Forall_cons in IH as [IHj IH]. f_equal; [by eapply IHj|by apply IH1].
  - destruct v as [| | | | |l]; try done. by destruct (h !! l) as [[]|].
  - destruct v as [| | | | |l]; try done. by destruct (h !! l) as [[]|].
  - destruct v as [| | | | |l]; try done.
    destruct (h !! l) as [[ps | | | |]|]; try done.
    apply all2_Forall2 in H1, H2. f_equal.
    revert jps' H2. induction H1 as [|kv kj ps jps [Hk Hvj] H1 IH1]; intros jps' H2.
    + by inversion H2.
    + inversion H2 as [|? kj' ? jps2 [Hk' Hvj'] H2']; subst.
      apply Forall_cons in IH as [IHj IH]. f_equal; [|by apply IH1].
      destruct kj as [k j], kj' as [k' j']. simpl in *. f_equal; [congruence|].
      by eapply IHj.
Qed.

Lemma parse_elems_extends_all js h :
  exists ext, fst (parse_elems parse h js) = h ++ ext.
Proof.
  apply parse_elems_extends. apply Forall_forall. intros j _. apply parse_extends.
Qed.

Lemma parse_props_extends_all jps h :
  exists ext, fst (parse_props parse h jps) = h ++ ext.
Proof.
  apply parse_props_extends. apply Forall_forall. intros j _. apply parse_extends.
Qed.

(** What [JSON.parse] builds is the tree it was given. *)
Lemma parse_represents j : forall h,
  represents (fst (parse h j)) (snd (parse h j)) j.
Proof.
  induction j as [ | b | z | str | js IH | jps IH] using json_ind2;
    intros h; simpl; try done.
  - assert (Hel : Forall2 (represents (fst (parse_elems parse h js)))
                    (snd (parse_elems parse h js)) js).
    { revert h. induction IH as [|j js Hj _ IHjs]; intros h; simpl; [constructor|].
      specialize (Hj h). destruct (parse h j) as [h1 v]. simpl in Hj.
      specialize (IHjs h1).
      destruct (parse_elems_extends_all js h1) as [ext He].
      destruct (parse_elems parse h1 js) as [h2 vs]. simpl in *. subst h2.
      constructor; [by apply represents_extends|done]. }
    destruct (parse_elems parse h js) as [h1 vs]. simpl in *.
    rewrite list_lookup_middle by done. apply all2_Forall2.
    eapply Forall2_impl; [exact Hel|]. intros v j. apply represents_extends.
  - assert (Hel : Forall2 (fun kv kj => fst kv = fst kj
                     /\ represents (fst (parse_props parse h jps)) (snd kv) (snd kj))
                    (snd (parse_props parse h jps)) jps).
    { revert h. induction IH as [|[k j] jps Hj _ IHjps]; intros h; simpl; [constructor|].
      simpl in Hj. specialize (Hj h). destruct (parse h j) as [h1 v]. simpl in Hj.
      specialize (IHjps h1).
      destruct (parse_props_extends_all jps h1) as [ext He].
      destruct (parse_props parse h1 jps) as [h2 vs]. simpl in *. subst h2.
      constructor; [|done]. split; [done|]. by apply represents_extends. }
    destruct (parse_props parse h jps) as [h1 ps]. simpl in *.
    rewrite list_lookup_middle by done. apply all2_Forall2.
    eapply Forall2_impl; [exact Hel|]. intros kv kj [? ?]. split; [done|].
    by apply represents_extends.
Qed.

Lemma bounded_NoDup_length (st : list nat) (n : nat) :
  NoDup st -> (forall a, a ∈ st -> (a < n)%nat) -> (length st <= n)%nat.
Proof.
  intros Hnd Hlt.
  assert (Hsub : st ⊆+ seq 0 n).
  { apply NoDup_submseteq; [done|].
    intros a Ha. apply elem_of_seq. specialize (Hlt a Ha). lia. }
  apply submseteq_length in Hsub. by rewrite length_seq in Hsub.
Qed.

Lemma list_max_elem (x : nat) (l : list nat) : x ∈ l -> (x <= list_max l)%nat.
Proof.
  induction l as [|y l IH]; simpl; [by intros ?%elem_of_nil|].
  intros [->|Hin]%elem_of_cons; [lia|]. specialize (IH Hin). lia.
Qed.

Lemma stringify_props_all rec ps jps :
  Forall2 (fun kv kj => fst kv = fst kj /\ rec (snd kv) = Ok (Some (snd kj))) ps jps ->
  stringify_props rec ps = Ok jps.
Proof.
  induction 1 as [|[k v] [k' j] ps jps [Hk Hr] _ IH]; simpl in *; [done|].
  rewrite Hr. simpl. rewrite IH. simpl. by subst.
Qed.

Lemma stringify_elems_all rec vs js :
  Forall2 (fun v j => rec v = Ok (Some j)) vs js ->
  stringify_elems rec vs = Ok js.
Proof.
  induction 1 as [|v j vs js Hr _ IH]; simpl in *; [done|].
  rewrite Hr. simpl. rewrite IH. done.
Qed.

(** [JSON.stringify] of a value that is a JSON tree is that tree.  The
    objects being serialised hold deeper trees than the value, so the value
    is none of them; and they are distinct objects of the heap, so the bound
    on the recursion is not reached. *)
Lemma stringify_represents j : forall h v stack F,
  represents h v j ->
  NoDup stack ->
  (forall a, a ∈ stack ->
     (a < length h)%nat
     /\ exists ja, represents h (VRef a) ja /\ (depth j < depth ja)%nat) ->
  (length h < F + length stack)%nat ->
  stringify F h stack v = Ok (Some j).
Proof.
  induction j as [ | b | z | str | js IH | jps IH] using json_ind2;
    intros h v stack F Hrep Hnd Hst HF; simpl in Hrep; subst;
    try (by destruct F).
  - destruct v as [| | | | |l]; try done.
    destruct (h !! l) as [[| vs | | |]|] eqn:Hl; try done.
    pose proof (lookup_lt_Some _ _ _ Hl) as Hlt.
    assert (Hrepl : represents h (VRef l) (JArr js)) by (simpl; by rewrite Hl).
    assert (Hnin : l ∉ stack).
    { intros Hin. destruct (Hst l Hin) as (_ & ja & Hja & Hd).
      rewrite (represents_fun _ _ _ _ Hrepl Hja) in Hd. lia. }
    assert (Hnd' : NoDup (l :: stack)) by by constructor.
    assert (Hlen : (length (l :: stack) <= length h)%nat).
    { apply bounded_NoDup_length; [done|].
      intros a [->|Ha]%elem_of_cons; [done|]. by apply Hst. }
    simpl in Hlen.
    destruct F as [|f]; simpl; rewrite Hl, decide_False by done; [lia|].
    rewrite (stringify_elems_all _ vs js); [done|].
    apply all2_Forall2 in Hrep.
    assert (IH' : Forall (fun j => (forall h v stack F, represents h v j ->
               NoDup stack ->
               (forall a, a ∈ stack -> (a < length h)%nat
                  /\ exists ja, represents h (VRef a) ja /\ (depth j < depth ja)%nat) ->
               (length h < F + length stack)%nat ->
               stringify F h stack v = Ok (Some j)) /\ j ∈ js) js).
    { rewrite Forall_forall in IH. apply Forall_forall. intros j Hj.
      split; [by apply IH|done]. }
    eapply Forall2_impl_Forall_r; [exact IH'|exact Hrep|].
    intros v j [IHj Hj] Hvj. apply IHj; [done|done| |simpl; lia].
    assert (Hdj : (depth j < depth (JArr js))%nat).
    { simpl. apply Nat.lt_succ_r, list_max_elem. by apply list_elem_of_fmap_2. }
    intros a [->|Ha]%elem_of_cons.
    + split; [done|]. by exists (JArr js).
    + destruct (Hst a Ha) as (Hav & ja & Hja & Hd). split; [done|].
      exists ja. split; [done|]. lia.
  - destruct v as [| | | | |l]; try done.
    destruct (h !! l) as [[ps | | | |]|] eqn:Hl; try done.
    pose proof (lookup_lt_Some _ _ _ Hl) as Hlt.
    assert (Hrepl : represents h (VRef l) (JObj jps)) by (simpl; by rewrite Hl).
    assert (Hnin : l ∉ stack).
    { intros Hin. destruct (Hst l Hin) as (_ & ja & Hja & Hd).
      rewrite (represents_fun _ _ _ _ Hrepl Hja) in Hd. lia. }
    assert (Hnd' : NoDup (l :: stack)) by by constructor.
    assert (Hlen : (length (l :: stack) <= length h)%nat).
    { apply bounded_NoDup_length; [done|].
      intros a [->|Ha]%elem_of_cons; [done|]. by apply Hst. }
    simpl in Hlen.
    destruct F as [|f]; simpl; rewrite Hl, decide_False by done; [lia|].
    rewrite (stringify_props_all _ ps jps); [done|].
    apply all2_Forall2 in Hrep.
    assert (IH' : Forall (fun kj => (forall h v stack F, represents h v (snd kj) ->
               NoDup stack ->
               (forall a, a ∈ stack -> (a < length h)%nat
                  /\ exists ja, represents h (VRef a) ja
                                /\ (depth (snd kj) < depth ja)%nat) ->
               (length h < F + length stack)%nat ->
               stringify F h stack v = Ok (Some (snd kj))) /\ kj ∈ jps) jps).
    { rewrite Forall_forall in IH. apply Forall_forall. intros kj Hj.
      split; [by apply IH|done]. }
    eapply Forall2_impl_Forall_r; [exact IH'|exact Hrep|].
    intros kv kj [IHj Hj] [Hk Hvj]. split; [done|].
    apply IHj; [done|done| |simpl; lia].
    assert (Hdj : (depth (snd kj) < depth (JObj jps))%nat).
    { simpl. apply Nat.lt_succ_r, list_max_elem.
      by apply (list_elem_of_fmap_2 (fun kj => depth (snd kj))). }
    intros a [->|Ha]%elem_of_cons.
    + split; [done|]. by exists (JObj jps).
    + destruct (Hst a Ha) as (Hav & ja & Hja & Hd). split; [done|].
      exists ja. split; [done|]. lia.
Qed.

Lemma content_represents h v j : represents h v j -> content h v = Ok (Some j).
Proof.
  intros Hrep. unfold content. apply stringify_represents; [done|constructor| |lia].
  intros a Ha. by apply elem_of_nil in Ha.
Qed.

(** [deepClone] of a value that is a JSON tree returns a fresh value that
    is the same tree, and leaves the old one as it was. *)
Lemma deepClone_represents h v j :
  represents h v j ->
  exists h' v', deepClone h v = Ok (h', v')
                /\ represents h' v' j /\ exists ext, h' = h ++ ext.
Proof.
  intros Hrep. unfold deepClone. fold (content h v).
  rewrite (content_represents _ _ _ Hrep). simpl.
  exists (fst (parse h j)), (snd (parse h j)). split; [by destruct (parse h j)|].
  split; [apply parse_represents|apply parse_extends].
Qed.

(** ** Insert, then get *)

Lemma assoc_set_absent {K V} `{EqDecision K} (k : K) (v : V) l :
  assoc_get k l = None -> assoc_set k v l = l ++ [(k, v)].
Proof.
  induction l as [|[k' v'] l IH]; simpl; [done|].
  destruct (decide (k = k')); [done|]. intros Hg. by rewrite IH.
Qed.

Lemma assoc_set_same {K V} `{EqDecision K} (k : K) (v : V) l :
  assoc_get k l = Some v -> assoc_set k v l = l.
Proof.
  induction l as [|[k' v'] l IH]; simpl; [done|].
  destruct (decide (k = k')) as [->|Hne].
  - by intros [= ->].
  - intros Hg. by rewrite IH.
Qed.

Lemma represents_props_get h ps jps k :
  represents_props h ps jps ->
  match assoc_get k jps with
  | Some j => exists v, assoc_get k ps = Some v /\ represents h v j
  | None => assoc_get k ps = None
  end.
Proof.
  unfold represents_props. rewrite all2_Forall2.
  induction 1 as [|[k1 v] [k2 j] ps jps [Hk Hv] _ IH]; simpl in *; [done|].
  subst k2. destruct (decide (k = k1)); [|done]. by exists v.
Qed.

Lemma represents_props_app h ps jps ps' jps' :
  represents_props h ps jps -> represents_props h ps' jps' ->
  represents_props h (ps ++ ps') (jps ++ jps').
Proof.
  unfold represents_props. rewrite !all2_Forall2. apply Forall2_app.
Qed.

(** [insert] of a row whose properties, with the identifier set, are JSON
    trees: the row object is allocated, stored under the identifier, and a
    copy with the same content is returned. *)
Lemma insert_representable s row e jps :
  let id := match assoc_get "id" row with
            | None | Some VUndefined | Some VNull => VString (makeId "" e)
            | Some v => v
            end in
  let toInsert := assoc_set "id" id row in
  represents_props (mem s) toInsert jps ->
  exists h2 v1,
    insert s row e
    = ({| mem := h2; rows := assoc_set id (length (mem s)) (rows s) |}, Ok v1)
    /\ represents h2 v1 (JObj jps)
    /\ represents h2 (VRef (length (mem s))) (JObj jps)
    /\ exists ext, h2 = (mem s ++ [OPlain toInsert]) ++ ext.
Proof.
  intros id toInsert Hrep. unfold insert. fold id. fold toInsert.
  assert (Hrow : represents (mem s ++ [OPlain toInsert]) (VRef (length (mem s)))
                   (JObj jps)).
  { simpl. rewrite list_lookup_middle by done.
    by apply represents_props_extends. }
  destruct (deepClone_represents _ _ _ Hrow) as (h2 & v1 & Hc & Hv1 & ext & ->).
  rewrite Hc. eexists _, _. split; [done|]. split; [done|].
  split; [by apply represents_extends|by exists ext].
Qed.

Lemma get_representable s id l j :
  assoc_get id (rows s) = Some l ->
  represents (mem s) (VRef l) j ->
  exists h' v', get s id = ({| mem := h'; rows := rows s |}, Ok v')
                /\ represents h' v' j.
Proof.
  intros Hg Hrep. unfold get. rewrite Hg.
  destruct (deepClone_represents _ _ _ Hrep) as (h' & v' & Hc & Hv' & _).
  rewrite Hc. by eexists _, _.
Qed.

(** C3, as the table has it: for a record without [id] whose fields are
    JSON values (null, booleans, finite numbers, strings, and plain objects
    and arrays of these), [insert] returns that record with the generated
    identifier added last, and [get] of this identifier returns it again. *)
Theorem insert_get_roundtrip (s : state) (row : props) (e : entropy)
    (jps : list (string * json)) :
  assoc_get "id" row = None ->
  represents_props (mem s) row jps ->
  let id := makeId "" e in
  let expected := JObj (jps ++ [("id", JStr id)]) in
  exists s1 v1 s2 v2,
    insert s row e = (s1, Ok v1)
    /\ represents (mem s1) v1 expected
    /\ read (mem s1) v1 "id" = VString id
    /\ get s1 (read (mem s1) v1 "id") = (s2, Ok v2)
    /\ represents (mem s2) v2 expected.
Proof.
  intros Hno Hrep id expected.
  pose proof (insert_representable s row e (jps ++ [("id", JStr id)])) as Hins.
  rewrite Hno in Hins. simpl in Hins. rewrite (assoc_set_absent _ _ _ Hno) in Hins.
  destruct Hins as (h2 & v1 & Hi & Hv1 & Hrow & _).
  { apply represents_props_app; [done|]. simpl. done. }
  assert (Hid : read h2 v1 "id" = VString id).
  { pose proof (represents_props_get _ _ _ "id" Hrep) as Hj. rewrite Hno in Hj.
    simpl in Hv1. destruct v1 as [| | | | |l1]; try done. simpl.
    destruct (h2 !! l1) as [[ps1 | | | |]|]; try done.
    pose proof (represents_props_get _ _ _ "id" Hv1) as Hg.
    assert (Hlook : assoc_get "id" (jps ++ [("id", JStr id)]) = Some (JStr id)).
    { destruct (assoc_get "id" jps) eqn:Hjid.
      - destruct Hj as (v & Hv & _). congruence.
      - clear -Hjid. induction jps as [|[k j] jps IH]; simpl in *; [done|].
        destruct (decide ("id" = k)); [done|]. by apply IH. }
    rewrite Hlook in Hg. destruct Hg as (v & Hv & Hvj). simpl in Hvj.
    unfold read_prop. by rewrite Hv, Hvj. }
  set (s1 := {| mem := h2; rows := assoc_set (VString (makeId "" e))
                                     (length (mem s)) (rows s) |}) in *.
  destruct (get_representable s1 (VString id) (length (mem s)) expected)
    as (h3 & v2 & Hget & Hv2); [apply assoc_get_set_eq|done|].
  exists s1, v1, {| mem := h3; rows := rows s1 |}, v2.
  split; [done|]. split; [done|]. split; [done|]. simpl. rewrite Hid. done.
Qed.

(** Whatever the record holds, [insert] under an identifier that is already
    a key keeps the keys as they are and puts the new row in the place of
    the old one; this is so also when copying the row throws. *)
Lemma insert_replaces_row (s : state) (row : props) (e : entropy) (id : value) :
  assoc_get "id" row = Some id -> id ≠ VUndefined -> id ≠ VNull ->
  assoc_has id (rows s) = true ->
  let s1 := fst (insert s row e) in
  keys (rows s1) = keys (rows s)
  /\ assoc_get id (rows s1) = Some (length (mem s))
  /\ mem s1 !! length (mem s) = Some (OPlain row).
Proof.
  intros Hid Hu Hn Hhas. unfold insert. rewrite Hid.
  assert (Hsame : match id with VUndefined | VNull => VString (makeId "" e) | _ => id end
                  = id) by by destruct id.
  rewrite Hsame, (assoc_set_same _ _ _ Hid).
  assert (Hlook : forall ext, ((mem s ++ [OPlain row]) ++ ext) !! length (mem s)
                              = Some (OPlain row)).
  { intros ext. rewrite <- app_assoc. by apply list_lookup_middle. }
  destruct (deepClone _ _) as [[h2 v]|x|] eqn:Hc; simpl;
    (split; [by apply keys_assoc_set_present, assoc_has_true|]);
    (split; [apply assoc_get_set_eq|]).
  - apply deepClone_extends in Hc as [ext ->]. apply Hlook.
  - rewrite <- (app_nil_r (mem s ++ [OPlain row])). apply Hlook.
  - rewrite <- (app_nil_r (mem s ++ [OPlain row])). apply Hlook.
Qed.

(** C2, as the table has it: [insert] of a record whose identifier is
    already a key does not fail: when the fields of the record are JSON
    values it returns a copy of the record, and the table has the same keys
    as before, with the new record in place of the old one. *)
Theorem insert_overwrites (s : state) (row : props) (e : entropy)
    (x : string) (jps : list (string * json)) :
  assoc_get "id" row = Some (VString x) ->
  assoc_has (VString x) (rows s) = true ->
  represents_props (mem s) row jps ->
  exists s1 v1 s2 v2,
    insert s row e = (s1, Ok v1)
    /\ represents (mem s1) v1 (JObj jps)
    /\ keys (rows s1) = keys (rows s)
    /\ assoc_get (VString x) (rows s1) = Some (length (mem s))
    /\ mem s1 !! length (mem s) = Some (OPlain row)
    /\ get s1 (VString x) = (s2, Ok v2)
    /\ represents (mem s2) v2 (JObj jps).
Proof.
  intros Hid Hhas Hrep.
  pose proof (insert_representable s row e jps) as Hins.
  rewrite Hid in Hins. simpl in Hins. rewrite (assoc_set_same _ _ _ Hid) in Hins.
  destruct (Hins Hrep) as (h2 & v1 & Hi & Hv1 & Hrow & ext & ->).
  set (s1 := {| mem := (mem s ++ [OPlain row]) ++ ext;
                rows := assoc_set (VString x) (length (mem s)) (rows s) |}) in *.
  destruct (get_representable s1 (VString x) (length (mem s)) (JObj jps))
    as (h3 & v2 & Hget & Hv2); [apply assoc_get_set_eq|done|].
  exists s1, v1, {| mem := h3; rows := rows s1 |}, v2.
  split; [done|]. split; [done|].
  split; [by apply keys_assoc_set_present, assoc_has_true|].
  split; [apply assoc_get_set_eq|]. split; [|done]. simpl.
  rewrite <- app_assoc. by apply list_lookup_middle.
Qed.

(** ** The identifier invariant *)

Lemma append_nonempty_r (a b : string) : b ≠ "" -> String.append a b ≠ "".
Proof. destruct a; simpl; [done|discriminate]. Qed.

Lemma makeId_nonempty prefix e : makeId prefix e ≠ "".
Proof.
  unfold makeId. do 3 apply append_nonempty_r. discriminate.
Qed.

Lemma id_is_key_extends h ext kl : id_is_key h kl -> id_is_key (h ++ ext) kl.
Proof.
  unfold id_is_key. destruct (h !! snd kl) as [o|] eqn:Hl; [|done].
  by rewrite (lookup_app_l_Some _ _ _ _ Hl).
Qed.

Lemma assoc_get_spread k v0 (extra base : props) :
  Forall (fun kv => fst kv = k -> snd kv = v0) extra ->
  assoc_get k base = Some v0 ->
  assoc_get k (spread base extra) = Some v0.
Proof.
  unfold spread. intros Hall. revert base.
  induction Hall as [|[k' v'] extra Hkv Hall IH]; intros base Hb; simpl; [done|].
  apply IH. destruct (decide (k = k')) as [->|Hne].
  - simpl in Hkv. rewrite Hkv by done. apply assoc_get_set_eq.
  - by rewrite assoc_get_set_ne.
Qed.

Lemma ids_ok_extends h ext rs :
  ids_ok {| mem := h; rows := rs |} -> ids_ok {| mem := h ++ ext; rows := rs |}.
Proof.
  intros (Hnd & Hkey & Hne). split; [done|]. split; [|done]. simpl in *.
  eapply Forall_impl; [exact Hkey|]. intros kl. apply id_is_key_extends.
Qed.

Lemma ids_ok_set h ps rs id :
  ids_ok {| mem := h; rows := rs |} ->
  assoc_get "id" ps = Some id -> id ≠ VString "" ->
  ids_ok {| mem := h ++ [OPlain ps]; rows := assoc_set id (length h) rs |}.
Proof.
  intros Hok Hid Hne.
  apply (ids_ok_extends _ [OPlain ps]) in Hok. destruct Hok as (Hnd & Hkey & Hnes).
  simpl in *. split; [by apply assoc_set_NoDup|]. split; simpl.
  - apply assoc_set_Forall; [|done]. unfold id_is_key. cbn [fst snd].
    by rewrite list_lookup_middle.
  - by apply assoc_set_Forall.
Qed.

Lemma deepClone_keeps_ids h v rs :
  ids_ok {| mem := h; rows := rs |} ->
  ids_ok {| mem := match deepClone h v with Ok (h', _) => h' | _ => h end;
            rows := rs |}.
Proof.
  intros Hok. destruct (deepClone h v) as [[h' v']|x|] eqn:Hc; try done.
  apply deepClone_extends in Hc as [ext ->]. by apply ids_ok_extends.
Qed.

Lemma step_keeps_ids s o : op_keeps_ids o -> ids_ok s -> ids_ok (step s o).
Proof.
  destruct s as [h rs]. destruct o as [row e|id|id patch|id|opts|]; simpl; intros Ho Hok.
  - unfold insert. simpl.
    set (id := match assoc_get "id" row with
               | Some VUndefined | Some VNull | None => VString (makeId "" e)
               | Some v => v
               end).
    assert (Hid : id ≠ VString "").
    { subst id. destruct (assoc_get "id" row) as [[]|]; try done;
        intros [= Hm]; first [by apply makeId_nonempty in Hm|subst; by apply Ho]. }
    pose proof (ids_ok_set h (assoc_set "id" id row) rs id Hok
                  (assoc_get_set_eq _ _ _) Hid) as Hok1.
    pose proof (deepClone_keeps_ids _ (VRef (length h)) _ Hok1) as Hok2.
    destruct (deepClone _ _) as [[h2 v2]|x|]; done.
  - unfold get. simpl. destruct (assoc_get id rs) as [l|]; [|done].
    pose proof (deepClone_keeps_ids _ (VRef l) _ Hok) as Hok2.
    destruct (deepClone _ _) as [[h2 v2]|x|]; done.
  - unfold update. simpl. destruct (assoc_get id rs) as [l0|] eqn:Hg; [|done].
    destruct (h !! l0) as [[existing| | | |]|] eqn:Hl; try done.
    assert (Hex : assoc_get "id" existing = Some id).
    { destruct Hok as (_ & Hkey & _). simpl in Hkey.
      apply assoc_get_elem in Hg. rewrite Forall_forall in Hkey.
      specialize (Hkey _ Hg). unfold id_is_key in Hkey. simpl in Hkey.
      by rewrite Hl in Hkey. }
    assert (Hid : id ≠ VString "").
    { destruct Hok as (_ & _ & Hne). simpl in Hne.
      apply assoc_get_elem in Hg. rewrite Forall_forall in Hne.
      apply (Hne _ Hg). }
    pose proof (ids_ok_set h (spread existing patch) rs id Hok
                  (assoc_get_spread _ _ _ _ Ho Hex) Hid) as Hok1.
    pose proof (deepClone_keeps_ids _ (VRef (length h)) _ Hok1) as Hok2.
    destruct (deepClone _ _) as [[h2 v2]|x|]; done.
  - destruct Hok as (Hnd & Hkey & Hne). simpl in *.
    split; [by apply assoc_del_NoDup|]. split; by apply assoc_del_Forall.
  - unfold query, snapshot. simpl.
    destruct (clone_all h (map snd rs)) as [[h1 arr]|x|] eqn:Hc; try done.
    apply clone_all_extends in Hc as [ext ->]. by apply ids_ok_extends.
  - split; [apply NoDup_nil_2|]. split; apply Forall_nil_2.
Qed.

(** C1, as the table has it: starting from a table without rows, after any
    sequence of operations in which no [insert] is given the empty string
    as identifier and no [update] is given a patch with an [id] other than
    its own, the keys are unique, every row carries its key as [id], and no
    key is the empty string. *)
Theorem ids_preserved (h0 : heap) (os : list op) :
  Forall op_keeps_ids os -> ids_ok (run (empty_table h0) os).
Proof.
  assert (Hgen : forall s, ids_ok s -> Forall op_keeps_ids os -> ids_ok (run s os)).
  { unfold run. induction os as [|o os IH]; intros s Hs Hos; simpl; [done|].
    apply Forall_cons in Hos as [Ho Hos]. apply IH; [|done].
    by apply step_keeps_ids. }
  apply Hgen. split; [apply NoDup_nil_2|]. split; apply Forall_nil_2.
Qed.

(** ** The stable sort *)

Section SortFacts.
Context {A : Type} (cmp : A -> A -> Z).

Lemma sort_insert_perm x l : Permutation (sort_insert cmp x l) (x :: l).
Proof.
  induction l as [|y ys IH]; simpl; [done|].
  destruct (0 <? cmp x y); [|done].
  rewrite IH. apply perm_swap.
Qed.

Lemma array_sort_perm l : Permutation (array_sort cmp l) l.
Proof.
  induction l as [|x xs IH]; simpl; [done|].
  rewrite sort_insert_perm. by constructor.
Qed.

(** Sortedness, for a comparator that decides a total preorder [R] on the
    elements at hand. *)
Section Sorted.
Context (R : A -> A -> Prop) (D : A -> Prop).
Hypothesis cmp_R : forall a b, D a -> D b -> (cmp a b <= 0 <-> R a b).
Hypothesis R_total : forall a b, D a -> D b -> R a b \/ R b a.
Hypothesis R_trans : forall a b c, D a -> D b -> D c -> R a b -> R b c -> R a c.

Lemma sort_insert_sorted x l :
  D x -> Forall D l -> StronglySorted R l ->
  StronglySorted R (sort_insert cmp x l).
Proof.
  intros Hx Hl Hs. induction Hs as [|y ys Hs IH Hy]; simpl.
  - repeat constructor.
  - apply Forall_cons in Hl as [Dy Hl].
    destruct (0 <? cmp x y) eqn:Hc.
    + apply Z.ltb_lt in Hc. constructor; [by apply IH|].
      rewrite (sort_insert_perm x ys). constructor; [|done].
      destruct (R_total x y Hx Dy) as [Hxy|Hyx]; [|done].
      apply cmp_R in Hxy; [lia|done..].
    + apply Z.ltb_ge in Hc. apply cmp_R in Hc; [|done..].
      constructor; [by constructor|]. constructor; [done|].
      rewrite Forall_forall in Hy, Hl. apply Forall_forall. intros z Hz.
      eapply (R_trans x y z); eauto.
Qed.

Lemma array_sort_sorted l :
  Forall D l -> StronglySorted R (array_sort cmp l).
Proof.
  induction 1 as [|x xs Hx Hxs IH]; simpl; [constructor|].
  apply sort_insert_sorted; [done| |done].
  by rewrite array_sort_perm.
Qed.
End Sorted.

(** Stability: elements with the same key stay in their order, as soon as
    the comparator never sends an element behind one of the same key. *)
Section Stable.
Context {K : Type} `{EqDecision K} (key : A -> K) (D : A -> Prop).
Hypothesis cmp_tie : forall a b, D a -> D b -> key a = key b -> cmp a b <= 0.

Lemma sort_insert_stable k x l :
  D x -> Forall D l ->
  filter (fun a => key a = k) (sort_insert cmp x l)
  = filter (fun a => key a = k) (x :: l).
Proof.
  intros Hx Hl. induction Hl as [|y ys Dy Hl IH]; simpl; [done|].
  destruct (0 <? cmp x y) eqn:Hc; [|done].
  apply Z.ltb_lt in Hc. rewrite (filter_cons _ y), IH, !(filter_cons _ x).
  rewrite (filter_cons _ y).
  destruct (decide (key x = k)) as [Hkx|Hkx]; [|done].
  destruct (decide (key y = k)) as [Hky|Hky]; [|done].
  specialize (cmp_tie x y Hx Dy). rewrite Hkx, Hky in cmp_tie.
  specialize (cmp_tie eq_refl). lia.
Qed.

Lemma array_sort_stable k l :
  Forall D l ->
  filter (fun a => key a = k) (array_sort cmp l)
  = filter (fun a => key a = k) l.
Proof.
  induction 1 as [|x xs Hx Hxs IH]; simpl; [done|].
  rewrite sort_insert_stable; [|done|by rewrite array_sort_perm].
  by rewrite !filter_cons, IH.
Qed.
End Stable.
(** A list that is sorted by an antisymmetric order on keys is determined by
    its elements of each key, in their order: the sorted and stable
    arrangement of a list is unique. *)
Section Unique.
Context {K : Type} `{EqDecision K} (key : A -> K) (le : K -> K -> Prop).
Hypothesis le_antisym : forall x y, le x y -> le y x -> x = y.

Lemma sorted_stable_unique l1 : forall l2,
  StronglySorted (fun a b => le (key a) (key b)) l1 ->
  StronglySorted (fun a b => le (key a) (key b)) l2 ->
  (forall k, filter (fun a => key a = k) l1 = filter (fun a => key a = k) l2) ->
  l1 = l2.
Proof.
  induction l1 as [|x l1 IH]; intros [|y l2] Hs1 Hs2 Hf; [done| | |].
  - specialize (Hf (key y)). rewrite filter_cons_True in Hf by done. done.
  - specialize (Hf (key x)). rewrite filter_cons_True in Hf by done. done.
  - apply StronglySorted_inv in Hs1 as [Hs1 Hx], Hs2 as [Hs2 Hy].
    rewrite Forall_forall in Hx, Hy.
    assert (Hxy : key x = key y).
    { assert (Hy1 : y ∈ x :: l1).
      { pose proof (Hf (key y)) as Hk. rewrite (filter_cons_True _ y) in Hk by done.
        assert (Hy1 : y ∈ filter (fun a => key a = key y) (x :: l1))
          by (rewrite Hk; apply list_elem_of_here).
        by apply list_elem_of_filter in Hy1 as [_ ?]. }
      assert (Hx2 : x ∈ y :: l2).
      { pose proof (Hf (key x)) as Hk. rewrite (filter_cons_True _ x) in Hk by done.
        assert (Hx2 : x ∈ filter (fun a => key a = key x) (y :: l2))
          by (rewrite <- Hk; apply list_elem_of_here).
        by apply list_elem_of_filter in Hx2 as [_ ?]. }
      apply elem_of_cons in Hy1 as [->|Hy1]; [done|].
      apply elem_of_cons in Hx2 as [->|Hx2]; [done|].
      apply le_antisym; [by apply Hx|by apply Hy]. }
    pose proof (Hf (key x)) as Hk.
    rewrite (filter_cons_True _ x), (filter_cons_True _ y) in Hk by done.
    injection Hk as -> Hk. f_equal. apply IH; [done|done|].
    intros k. specialize (Hf k). rewrite !filter_cons in Hf.
    destruct (decide (key y = k)); [by injection Hf|done].
Qed.
End Unique.
End SortFacts.

(** ** Slices *)

Lemma slice_take_drop {A : Type} (o n : Z) (l : list A) :
  0 <= o -> 0 <= n ->
  slice o (o + n) l = take (Z.to_nat n) (drop (Z.to_nat o) l).
Proof.
  intros Ho Hn. unfold slice.
  assert (Ho' : (o <? 0) = false) by lia. assert (Hn' : (o + n <? 0) = false) by lia.
  rewrite Ho', Hn'.
  destruct (Z_le_gt_dec (Z.of_nat (length l)) o) as [Hbig|Hsmall].
  - rewrite !drop_ge by lia. by rewrite !take_nil.
  - rewrite (Z.min_l o) by lia.
    destruct (Z_le_gt_dec (o + n) (Z.of_nat (length l))) as [Hfit|Hover].
    + rewrite Z.min_l by lia. f_equal. lia.
    + rewrite Z.min_r by lia.
      rewrite !take_ge; [done|rewrite length_drop; lia..].
  Qed.

Lemma slice_all {A : Type} (l : list A) : slice 0 (0 + Z.of_nat (length l)) l = l.
Proof.
  rewrite slice_take_drop by lia. rewrite Nat2Z.id. simpl. by rewrite take_ge.
Qed.

(** ** Queries *)

Lemma query_unfold s opts h1 arr :
  snapshot s = Ok (h1, arr) ->
  query s opts
  = ({| mem := h1; rows := rows s |},
     Ok (paginate opts (sort_rows h1 opts (filter_rows h1 opts arr)))).
Proof. intros Hs. unfold query. by rewrite Hs. Qed.

Lemma paginate_take_drop opts arr :
  0 <= offset_of opts -> 0 <= limit_of opts arr ->
  paginate opts arr
  = take (Z.to_nat (limit_of opts arr)) (drop (Z.to_nat (offset_of opts)) arr).
Proof. intros Ho Hn. unfold paginate. by apply slice_take_drop. Qed.

Lemma paginate_subseteq opts arr : paginate opts arr ⊆ arr.
Proof.
  unfold paginate, slice. etrans; [apply subseteq_take|apply subseteq_drop].
Qed.

Lemma sort_rows_perm h opts arr : Permutation (sort_rows h opts arr) arr.
Proof.
  unfold sort_rows. destruct (opt_sortBy opts) as [k|]; [|done].
  destruct (String.eqb k ""); [done|]. apply array_sort_perm.
Qed.

Lemma is_plain_extends h ext v :
  is_plain h v -> as_regexp (h ++ ext) v = None /\ as_function (h ++ ext) v = None.
Proof.
  destruct v as [| | | | |l]; simpl; try done.
  destruct (h !! l) as [o|] eqn:Hl; [|done].
  rewrite (lookup_app_l_Some _ _ _ _ Hl). by destruct o.
Qed.

(** C9, as the table has it: when [offset] and [limit] are not negative,
    [query] returns the rows that passed the filter, sorted, without the
    first [offset] of them (default 0) and cut after [limit] (default: all);
    and in the scenario with ages 30, 20 and 25, sorting by [age] gives
    [b, c, a], and sorting by [age] descending with [offset] 1 and [limit] 1
    gives [c]. *)
Theorem pagination_slice :
  (forall s opts h1 arr,
      snapshot s = Ok (h1, arr) ->
      0 <= offset_of opts ->
      0 <= limit_of opts (sort_rows h1 opts (filter_rows h1 opts arr)) ->
      let sorted := sort_rows h1 opts (filter_rows h1 opts arr) in
      snd (query s opts)
      = Ok (take (Z.to_nat (limit_of opts sorted))
              (drop (Z.to_nat (offset_of opts)) sorted)))
  /\ (forall e1 e2 e3,
        query_view (scenario_table e1 e2 e3)
          {| opt_limit := None; opt_offset := None; opt_sortBy := Some "age";
             opt_sortOrder := None; opt_filter := None |}
        = Ok [Some (aged "b" 20); Some (aged "c" 25); Some (aged "a" 30)]
        /\ query_view (scenario_table e1 e2 e3)
             {| opt_limit := Some 1; opt_offset := Some 1; opt_sortBy := Some "age";
                opt_sortOrder := Some Desc; opt_filter := None |}
           = Ok [Some (aged "c" 25)]).
Proof.
  split.
  - intros s opts h1 arr Hs Ho Hn sorted.
    rewrite (query_unfold _ _ _ _ Hs). simpl. f_equal.
    by apply paginate_take_drop.
  - intros e1 e2 e3. split; vm_compute; reflexivity.
Qed.

Lemma query_plain_filter (s : state) (k : string) (v : value) h1 arr :
  snapshot s = Ok (h1, arr) ->
  is_plain (mem s) v ->
  snd (query s {| opt_limit := None; opt_offset := None; opt_sortBy := None;
                  opt_sortOrder := None; opt_filter := Some [(k, v)] |})
  = Ok (List.filter (fun row => strict_eq (read h1 row k) v) arr).
Proof.
  intros Hs Hv. rewrite (query_unfold _ _ _ _ Hs). simpl. f_equal.
  unfold paginate, sort_rows, filter_rows. simpl.
  rewrite slice_all. apply filter_ext. intros row.
  unfold row_matches, field_matches. simpl.
  apply clone_all_extends in Hs as [ext ->].
  destruct (is_plain_extends _ ext _ Hv) as [-> ->].
  by rewrite andb_true_r.
Qed.


(** *** The filter, seen from the rows of the table

    When the rows are JSON trees the copies hold what the rows hold, and the
    filter on a primitive value selects the copies of the rows whose own
    field is the value. *)









(** ** Sorting by a field *)

Lemma ascii_compare_lt_trans a b c :
  Ascii.compare a b = Lt -> Ascii.compare b c = Lt -> Ascii.compare a c = Lt.
Proof.
  unfold Ascii.compare. rewrite !N.compare_lt_iff. apply N.lt_trans.
Qed.

Lemma string_compare_refl x : String.compare x x = Eq.
Proof.
  induction x as [|a x IH]; simpl; [done|].
  unfold Ascii.compare. by rewrite N.compare_refl.
Qed.

Lemma string_compare_lt_trans x : forall y z,
  String.compare x y = Lt -> String.compare y z = Lt -> String.compare x z = Lt.
Proof.
  induction x as [|a x IH]; intros [|b y] [|c z]; simpl; try done.
  destruct (Ascii.compare a b) eqn:Hab; try done.
  - apply Ascii.compare_eq_iff in Hab as ->.
    destruct (Ascii.compare b c); try done. apply IH.
  - destruct (Ascii.compare b c) eqn:Hbc; try done.
    + apply Ascii.compare_eq_iff in Hbc as <-. by rewrite Hab.
    + by rewrite (ascii_compare_lt_trans _ _ _ Hab Hbc).
Qed.

Lemma val_le_total a b :
  (is_finite a /\ is_finite b) \/ (is_string a /\ is_string b) ->
  val_le a b \/ val_le b a.
Proof.
  destruct a as [| | |[x| | |]|x|], b as [| | |[y| | |]|y|]; simpl;
    intros [[? ?]|[? ?]]; try done.
  - lia.
  - destruct (String.compare x y) eqn:Hc; [by left|by left|right].
    rewrite String.compare_antisym, Hc. done.
Qed.

Lemma val_le_trans a b c : val_le a b -> val_le b c -> val_le a c.
Proof.
  destruct a as [| | |[x| | |]|x|], b as [| | |[y| | |]|y|],
    c as [| | |[z| | |]|z|]; simpl; try done.
  - lia.
  - intros Hxy Hyz.
    destruct (String.compare x y) eqn:Hc1; [| |done].
    + apply String.compare_eq_iff in Hc1 as ->. done.
    + destruct (String.compare y z) eqn:Hc2; [| |done].
      * apply String.compare_eq_iff in Hc2 as <-. by rewrite Hc1.
      * by rewrite (string_compare_lt_trans _ _ _ Hc1 Hc2).
Qed.

Lemma val_le_antisym a b : val_le a b -> val_le b a -> a = b.
Proof.
  destruct a as [| | |[x| | |]|x|], b as [| | |[y| | |]|y|]; simpl; try done.
  - intros ? ?. do 2 f_equal. lia.
  - intros Hxy Hyx. f_equal. apply String.compare_eq_iff.
    rewrite String.compare_antisym in Hyx.
    destruct (String.compare x y); simpl in *; done.
Qed.

(** On two numbers, or on two strings, the comparator of [query] is the
    natural ordering, reversed for ["desc"]. *)
Lemma compare_rows_in_order h k order a b :
  (is_finite (read h a k) /\ is_finite (read h b k))
  \/ (is_string (read h a k) /\ is_string (read h b k)) ->
  compare_rows h k order a b <= 0 <-> in_order order (read h a k) (read h b k).
Proof.
  unfold compare_rows, in_order, js_gt, strict_eq.
  destruct (read h a k) as [| | |[x| | |]|x|], (read h b k) as [| | |[y| | |]|y|];
    simpl; intros [[? ?]|[? ?]]; try done.
  - case_bool_decide as Heq.
    + injection Heq as ->. destruct order as [[]|]; lia.
    + assert (x ≠ y) by congruence.
      destruct (y <? x) eqn:Hlt; [apply Z.ltb_lt in Hlt|apply Z.ltb_ge in Hlt];
        destruct order as [[]|]; lia.
  - case_bool_decide as Heq.
    + injection Heq as ->. rewrite string_compare_refl.
      destruct order as [[]|]; done.
    + assert (Hne : x ≠ y) by congruence.
      assert (Hne1 : String.compare x y ≠ Eq).
      { intros Hc. by apply String.compare_eq_iff in Hc. }
      unfold string_lt. rewrite (String.compare_antisym x y).
      rewrite (String.compare_antisym x y) in Hne1.
      destruct (String.compare y x); simpl in *; destruct order as [[]|]; done.
Qed.

Lemma compare_rows_tie h k order a b :
  is_finite (read h a k) \/ is_string (read h a k) ->
  read h a k = read h b k -> compare_rows h k order a b <= 0.
Proof.
  unfold compare_rows, strict_eq. intros Hk <-.
  destruct (read h a k) as [| | |[x| | |]|x|]; simpl in *; destruct Hk; try done;
    by rewrite bool_decide_true.
Qed.

(** Where a row lacks the field the comparator answers -1 both ways: it
    defines no order there, and what [sort] makes of it is up to the
    engine. *)
Lemma compare_rows_missing_field h k a b z :
  read h a k = VNumber (Fin z) -> read h b k = VUndefined ->
  compare_rows h k None a b = -1 /\ compare_rows h k None b a = -1.
Proof.
  intros Ha Hb. unfold compare_rows, strict_eq, js_gt. rewrite Ha, Hb. done.
Qed.

(** C7, as the table has it: with a [sortBy] that is not the empty string,
    over rows whose [sortBy] values are all numbers or all strings, the rows
    that passed the filter are permuted into the natural ordering of these
    values, reversed for ["desc"]; and in either order, rows with the same
    value stay in the order they had. *)
Theorem sort_is_stable (s : state) (opts : QueryOptions) (k : string) h1 arr :
  snapshot s = Ok (h1, arr) ->
  opt_sortBy opts = Some k ->
  k ≠ "" ->
  let pre := filter_rows h1 opts arr in
  let key := fun row => read h1 row k in
  naturally_ordered (map key pre) ->
  let sorted := sort_rows h1 opts pre in
  snd (query s opts) = Ok (paginate opts sorted)
  /\ Permutation sorted pre
  /\ StronglySorted (fun a b => in_order (opt_sortOrder opts) (key a) (key b)) sorted
  /\ forall v, filter (fun row => key row = v) sorted
               = filter (fun row => key row = v) pre.
Proof.
  intros Hs Hk Hne pre key Hnat sorted.
  split; [by rewrite (query_unfold _ _ _ _ Hs)|].
  split; [apply sort_rows_perm|].
  subst sorted. unfold sort_rows. rewrite Hk.
  apply String.eqb_neq in Hne. rewrite Hne.
  set (D := fun row : value => row ∈ pre).
  assert (HD : Forall D pre) by by apply Forall_forall.
  assert (Hpair : forall a b, D a -> D b ->
            (is_finite (key a) /\ is_finite (key b))
            \/ (is_string (key a) /\ is_string (key b))).
  { intros a b Da Db.
    destruct Hnat as [Hn|Hn]; [left|right]; rewrite Forall_forall in Hn;
      split; apply Hn; by apply (list_elem_of_fmap_2 key). }
  split.
  - apply (array_sort_sorted _ _ D); [| | |done].
    + intros a b Da Db. apply compare_rows_in_order, Hpair; done.
    + intros a b Da Db. unfold in_order.
      destruct (opt_sortOrder opts) as [[]|]; apply val_le_total;
        destruct (Hpair a b Da Db) as [[? ?]|[? ?]]; auto.
    + intros a b c _ _ _. unfold in_order.
      destruct (opt_sortOrder opts) as [[]|]; eauto using val_le_trans.
  - intros v. apply (array_sort_stable _ key D); [|done].
    intros a b Da Db Hab. apply compare_rows_tie; [|done].
    destruct (Hpair a a Da Da) as [[? _]|[? _]]; auto.
Qed.

(** The rows as [query] sorts them are the only arrangement that is in order
    and keeps rows with the same value in the order they had: whatever
    stable sort an engine has, this is what it returns. *)
Lemma sort_rows_unique (opts : QueryOptions) (k : string) h pre res :
  opt_sortBy opts = Some k -> k ≠ "" ->
  naturally_ordered (map (fun row => read h row k) pre) ->
  StronglySorted
    (fun a b => in_order (opt_sortOrder opts) (read h a k) (read h b k)) res ->
  (forall v, filter (fun row => read h row k = v) res
             = filter (fun row => read h row k = v) pre) ->
  res = sort_rows h opts pre.
Proof.
  intros Hk Hne Hnat Hsorted Hstable.
  set (key := fun row => read h row k).
  set (D := fun row : value => row ∈ pre).
  assert (HD : Forall D pre) by by apply Forall_forall.
  assert (Hpair : forall a b, D a -> D b ->
            (is_finite (key a) /\ is_finite (key b))
            \/ (is_string (key a) /\ is_string (key b))).
  { intros a b Da Db.
    destruct Hnat as [Hn|Hn]; [left|right]; rewrite Forall_forall in Hn;
      split; apply Hn; by apply (list_elem_of_fmap_2 key). }
  apply (sorted_stable_unique key (in_order (opt_sortOrder opts))).
  - intros x y. unfold in_order.
    destruct (opt_sortOrder opts) as [[]|]; intros ? ?;
      by (apply val_le_antisym || (symmetry; apply val_le_antisym)).
  - done.
  - unfold sort_rows. rewrite Hk. apply String.eqb_neq in Hne. rewrite Hne.
    apply (array_sort_sorted _ _ D); [| | |done].
    + intros a b Da Db. apply compare_rows_in_order, Hpair; done.
    + intros a b Da Db. unfold in_order.
      destruct (opt_sortOrder opts) as [[]|]; apply val_le_total;
        destruct (Hpair a b Da Db) as [[? ?]|[? ?]]; auto.
    + intros a b c _ _ _. unfold in_order.
      destruct (opt_sortOrder opts) as [[]|]; eauto using val_le_trans.
  - intros v. rewrite Hstable. symmetry.
    unfold sort_rows. rewrite Hk. apply String.eqb_neq in Hne. rewrite Hne.
    apply (array_sort_stable _ key D); [|done].
    intros a b Da Db Hab. apply compare_rows_tie; [|done].
    destruct (Hpair a a Da Da) as [[? _]|[? _]]; auto.
Qed.

(** ** Copies share nothing with the table *)

Lemma stringify_eq F h stack v :
  stringify F h stack v
  = match v with
    | VUndefined => Ok None
    | VNull => Ok (Some JNull)
    | VBool b => Ok (Some (JBool b))
    | VNumber (Fin z) => Ok (Some (JNum z))
    | VNumber _ => Ok (Some JNull)
    | VString str => Ok (Some (JStr str))
    | VRef l =>
        match h !! l with
        | None => Stuck
        | Some (OFunction _) => Ok None
        | Some (ORegExp _) => Ok (Some (JObj []))
        | Some (ODate (Fin t)) => Ok (Some (JStr (date_iso t)))
        | Some (ODate _) => Ok (Some JNull)
        | Some (OPlain ps) =>
            if decide (l ∈ stack) then Throw TypeError
            else match F with
                 | O => Stuck
                 | S f =>
                     let* jps := stringify_props (stringify f h (l :: stack)) ps in
                     Ok (Some (JObj jps))
                 end
        | Some (OArray vs) =>
            if decide (l ∈ stack) then Throw TypeError
            else match F with
                 | O => Stuck
                 | S f =>
                     let* js := stringify_elems (stringify f h (l :: stack)) vs in
                     Ok (Some (JArr js))
                 end
        end
    end.
Proof. by destruct F. Qed.

Lemma stringify_props_agree (rec1 rec2 : value -> result (option json)) ps r :
  Forall (fun v => forall r, rec1 v = r -> r ≠ Stuck -> rec2 v = r) (map snd ps) ->
  stringify_props rec1 ps = r -> r ≠ Stuck -> stringify_props rec2 ps = r.
Proof.
  revert r. induction ps as [|[k v] ps IH]; intros r Hall; simpl; [done|].
  simpl in Hall. apply Forall_cons in Hall as [Hv Hall].
  destruct (rec1 v) as [oj|x|] eqn:H1; simpl.
  - rewrite (Hv _ eq_refl) by done. simpl.
    destruct (stringify_props rec1 ps) as [js|x|] eqn:H2; simpl; intros <- Hr.
    + by rewrite (IH _ Hall eq_refl).
    + by rewrite (IH _ Hall eq_refl).
    + done.
  - intros <- _. by rewrite (Hv _ eq_refl).
  - by intros <- ?.
Qed.

Lemma stringify_elems_agree (rec1 rec2 : value -> result (option json)) vs r :
  Forall (fun v => forall r, rec1 v = r -> r ≠ Stuck -> rec2 v = r) vs ->
  stringify_elems rec1 vs = r -> r ≠ Stuck -> stringify_elems rec2 vs = r.
Proof.
  revert r. induction vs as [|v vs IH]; intros r Hall; simpl; [done|].
  apply Forall_cons in Hall as [Hv Hall].
  destruct (rec1 v) as [oj|x|] eqn:H1; simpl.
  - rewrite (Hv _ eq_refl) by done. simpl.
    destruct (stringify_elems rec1 vs) as [js|x|] eqn:H2; simpl; intros <- Hr.
    + by rewrite (IH _ Hall eq_refl).
    + by rewrite (IH _ Hall eq_refl).
    + done.
  - intros <- _. by rewrite (Hv _ eq_refl).
  - by intros <- ?.
Qed.

(** Serialising a value of a closed part of the heap reads that part only,
    and more recursion budget does not change an outcome. *)
Lemma stringify_agree n h h2 :
  closed_below n h ->
  (forall l, (l < n)%nat -> h2 !! l = h !! l) ->
  forall F F' stack v r,
    val_below n v -> stringify F h stack v = r -> r ≠ Stuck -> (F <= F')%nat ->
    stringify F' h2 stack v = r.
Proof.
  intros Hcl Hag. induction F as [|f IH]; intros F' stack v r Hv;
    rewrite !stringify_eq; destruct v as [| | |[]| |l]; try done; simpl in Hv;
    rewrite (Hag l Hv); destruct (h !! l) as [[ps|vs|[]| |]|] eqn:Hl; try done;
    destruct (decide (l ∈ stack)); try done.
  - intros <- Hr HF. destruct F' as [|f']; [lia|].
    destruct (stringify_props (stringify f h (l :: stack)) ps) as [jps|x|] eqn:Hp;
      simpl in *; try done.
    + by rewrite (stringify_props_agree _ (stringify f' h2 (l :: stack)) ps _
                    ltac:(eapply Forall_impl; [exact (Hcl l _ Hv Hl)|];
                          intros v Hvn r0 Hr0 Hne; apply (IH _ _ _ _ Hvn Hr0 Hne); lia)
                    Hp).
    + by rewrite (stringify_props_agree _ (stringify f' h2 (l :: stack)) ps _
                    ltac:(eapply Forall_impl; [exact (Hcl l _ Hv Hl)|];
                          intros v Hvn r0 Hr0 Hne; apply (IH _ _ _ _ Hvn Hr0 Hne); lia)
                    Hp).
  - intros <- Hr HF. destruct F' as [|f']; [lia|].
    destruct (stringify_elems (stringify f h (l :: stack)) vs) as [js|x|] eqn:Hp;
      simpl in *; try done.
    + by rewrite (stringify_elems_agree _ (stringify f' h2 (l :: stack)) vs _
                    ltac:(eapply Forall_impl; [exact (Hcl l _ Hv Hl)|];
                          intros v Hvn r0 Hr0 Hne; apply (IH _ _ _ _ Hvn Hr0 Hne); lia)
                    Hp).
    + by rewrite (stringify_elems_agree _ (stringify f' h2 (l :: stack)) vs _
                    ltac:(eapply Forall_impl; [exact (Hcl l _ Hv Hl)|];
                          intros v Hvn r0 Hr0 Hne; apply (IH _ _ _ _ Hvn Hr0 Hne); lia)
                    Hp).
Qed.

Lemma stringify_props_not_stuck (rec : value -> result (option json)) ps :
  Forall (fun v => rec v ≠ Stuck) (map snd ps) -> stringify_props rec ps ≠ Stuck.
Proof.
  induction ps as [|[k v] ps IH]; simpl; [done|].
  intros [Hv Hps]%Forall_cons. specialize (IH Hps).
  destruct (rec v) as [oj|x|]; simpl; [|done|done].
  by destruct (stringify_props rec ps).
Qed.

Lemma stringify_elems_not_stuck (rec : value -> result (option json)) vs :
  Forall (fun v => rec v ≠ Stuck) vs -> stringify_elems rec vs ≠ Stuck.
Proof.
  induction vs as [|v vs IH]; simpl; [done|].
  intros [Hv Hvs]%Forall_cons. specialize (IH Hvs).
  destruct (rec v) as [oj|x|]; simpl; [|done|done].
  by destruct (stringify_elems rec vs).
Qed.

(** On a closed part of the heap the recursion bound of [stringify] is never
    reached: the objects being serialised are distinct objects of that part,
    and an object met again is a cycle, which throws. *)
Lemma stringify_not_stuck n h :
  closed_below n h -> (n <= length h)%nat ->
  forall F stack v,
    val_below n v -> NoDup stack -> (forall a, a ∈ stack -> (a < n)%nat) ->
    (n < F + length stack)%nat ->
    stringify F h stack v ≠ Stuck.
Proof.
  intros Hcl Hn. induction F as [|f IH]; intros stack v Hv Hnd Hst HF;
    rewrite stringify_eq; destruct v as [| | |[]| |l]; try done; simpl in Hv;
    (destruct (h !! l) as [[ps|vs|[]| |]|] eqn:Hl;
      [| | | | | | | |apply lookup_ge_None in Hl; lia]); try done;
    destruct (decide (l ∈ stack)) as [Hin|Hnin]; try done;
    assert (Hlen : (length (l :: stack) <= n)%nat)
      by (apply bounded_NoDup_length; [by constructor|];
          intros a [->|Ha]%elem_of_cons; [done|by apply Hst]);
    simpl in Hlen; try lia.
  - intros Hs.
    destruct (stringify_props (stringify f h (l :: stack)) ps) as [jps|x|] eqn:Hp;
      try done.
    revert Hp. apply stringify_props_not_stuck.
    eapply Forall_impl; [exact (Hcl l _ Hv Hl)|]. intros v Hvn.
    apply IH; [done|by constructor| |simpl; lia].
    intros a [->|Ha]%elem_of_cons; [done|by apply Hst].
  - intros Hs.
    destruct (stringify_elems (stringify f h (l :: stack)) vs) as [js|x|] eqn:Hp;
      try done.
    revert Hp. apply stringify_elems_not_stuck.
    eapply Forall_impl; [exact (Hcl l _ Hv Hl)|]. intros v Hvn.
    apply IH; [done|by constructor| |simpl; lia].
    intros a [->|Ha]%elem_of_cons; [done|by apply Hst].
Qed.

Lemma val_above_mono n m v : (n <= m)%nat -> val_above m v -> val_above n v.
Proof. destruct v; simpl; try done. lia. Qed.

Lemma val_below_mono n m v : (n <= m)%nat -> val_below n v -> val_below m v.
Proof. destruct v; simpl; try done. lia. Qed.

Lemma fresh_above_alloc n h o :
  fresh_above n h -> Forall (val_above n) (obj_values o) ->
  fresh_above n (h ++ [o]).
Proof.
  intros Hf Ho l o' Hl Hlook.
  destruct (decide (l < length h)%nat) as [Hlt|Hge].
  - rewrite lookup_app_l in Hlook by done. by eapply Hf.
  - apply lookup_lt_Some in Hlook as Hlt. rewrite length_app in Hlt. simpl in Hlt.
    assert (l = length h) as -> by lia.
    rewrite list_lookup_middle in Hlook by done. by injection Hlook as <-.
Qed.

Lemma fresh_above_start (h : heap) : fresh_above (length h) h.
Proof.
  intros l o Hl Hlook. apply lookup_lt_Some in Hlook. lia.
Qed.

(** What [JSON.parse] allocates holds nothing that was there before. *)
Lemma parse_fresh n j : forall h,
  (n <= length h)%nat -> fresh_above n h ->
  val_above n (snd (parse h j)) /\ fresh_above n (fst (parse h j)).
Proof.
  induction j as [ | b | z | str | js IH | jps IH] using json_ind2;
    intros h Hn Hf; simpl; try done.
  - assert (Hel : Forall (val_above n) (snd (parse_elems parse h js))
                  /\ fresh_above n (fst (parse_elems parse h js))).
    { revert h Hn Hf. induction IH as [|j js Hj _ IHjs]; intros h Hn Hf; simpl; [done|].
      destruct (Hj h Hn Hf) as [Hv Hf1].
      destruct (parse_extends j h) as [e1 He1].
      destruct (parse h j) as [h1 v]. simpl in *.
      assert (Hn1 : (n <= length h1)%nat) by (subst h1; rewrite length_app; lia).
      destruct (IHjs h1 Hn1 Hf1) as [Hvs Hf2].
      destruct (parse_elems parse h1 js) as [h2 vs]. simpl in *.
      split; [by constructor|done]. }
    destruct (parse_elems_extends_all js h) as [ext He].
    destruct (parse_elems parse h js) as [h1 vs]. simpl in *. destruct Hel as [Hvs Hf1].
    split; [subst h1; rewrite length_app; lia|by apply fresh_above_alloc].
  - assert (Hel : Forall (val_above n) (map snd (snd (parse_props parse h jps)))
                  /\ fresh_above n (fst (parse_props parse h jps))).
    { revert h Hn Hf. induction IH as [|[k j] jps Hj _ IHjs]; intros h Hn Hf; simpl; [done|].
      simpl in Hj. destruct (Hj h Hn Hf) as [Hv Hf1].
      destruct (parse_extends j h) as [e1 He1].
      destruct (parse h j) as [h1 v]. simpl in *.
      assert (Hn1 : (n <= length h1)%nat) by (subst h1; rewrite length_app; lia).
      destruct (IHjs h1 Hn1 Hf1) as [Hvs Hf2].
      destruct (parse_props parse h1 jps) as [h2 vs]. simpl in *.
      split; [by constructor|done]. }
    destruct (parse_props_extends_all jps h) as [ext He].
    destruct (parse_props parse h jps) as [h1 ps]. simpl in *. destruct Hel as [Hvs Hf1].
    split; [subst h1; rewrite length_app; lia|by apply fresh_above_alloc].
Qed.

Lemma deepClone_fresh n h v h' v' :
  (n <= length h)%nat -> fresh_above n h ->
  deepClone h v = Ok (h', v') -> val_above n v' /\ fresh_above n h'.
Proof.
  intros Hn Hf. unfold deepClone.
  destruct (stringify _ _ _ _) as [[j|]|x|]; simpl; try done.
  intros [= Hp]. pose proof (parse_fresh n j h Hn Hf) as Hfr.
  by rewrite Hp in Hfr.
Qed.

Lemma clone_all_fresh n ls : forall h h' vs,
  (n <= length h)%nat -> fresh_above n h ->
  clone_all h ls = Ok (h', vs) -> Forall (val_above n) vs /\ fresh_above n h'.
Proof.
  induction ls as [|l ls IH]; intros h h' vs Hn Hf; simpl.
  - by intros [= <- <-].
  - destruct (deepClone h (VRef l)) as [[h1 v]|x|] eqn:Hc; simpl; try done.
    destruct (clone_all h1 ls) as [[h2 vs2]|x|] eqn:Hr; simpl; try done.
    intros [= <- <-].
    destruct (deepClone_fresh _ _ _ _ _ Hn Hf Hc) as [Hv Hf1].
    apply deepClone_extends in Hc as [e1 ->].
    assert (Hn1 : (n <= length (h ++ e1))%nat) by (rewrite length_app; lia).
    destruct (IH _ _ _ Hn1 Hf1 Hr) as [Hvs Hf2].
    split; [by constructor|done].
Qed.

Lemma reach_above n h v l :
  fresh_above n h -> val_above n v -> reach h v l -> (n <= l)%nat.
Proof.
  intros Hf Hv Hr. induction Hr as [l|l o v l' Hl Hin Hr IH]; [done|].
  apply IH. specialize (Hf l o Hv Hl). rewrite Forall_forall in Hf. by apply Hf.
Qed.

Lemma reach_below n h v l :
  closed_below n h -> val_below n v -> reach h v l -> (l < n)%nat.
Proof.
  intros Hc Hv Hr. induction Hr as [l|l o v l' Hl Hin Hr IH]; [done|].
  apply IH. specialize (Hc l o Hv Hl). rewrite Forall_forall in Hc. by apply Hc.
Qed.

Lemma closed_below_extends n h ext :
  (n <= length h)%nat -> closed_below n h -> closed_below n (h ++ ext).
Proof.
  intros Hn Hc l o Hl Hlook. rewrite lookup_app_l in Hlook by lia. by eapply Hc.
Qed.

Lemma closed_below_alloc h o :
  closed_below (length h) h ->
  Forall (val_below (length h)) (obj_values o) ->
  closed_below (S (length h)) (h ++ [o]).
Proof.
  intros Hc Ho l o' Hl Hlook.
  destruct (decide (l < length h)%nat) as [Hlt|Hge].
  - rewrite lookup_app_l in Hlook by done.
    eapply Forall_impl; [by eapply Hc|]. intros v. apply val_below_mono. lia.
  - assert (l = length h) as -> by lia.
    rewrite list_lookup_middle in Hlook by done. injection Hlook as <-.
    eapply Forall_impl; [exact Ho|]. intros v. apply val_below_mono. lia.
Qed.

Lemma content_undefined h : content h VUndefined = Ok None.
Proof. done. Qed.

(** What [get] returns depends on the closed part of the heap that holds
    the rows, and on nothing else. *)
Lemma get_content_agree n h1 h2 rs :
  closed_below n h1 -> (n <= length h1)%nat -> (length h1 <= length h2)%nat ->
  Forall (fun kl : value * loc => (snd kl < n)%nat) rs ->
  (forall l, (l < n)%nat -> h2 !! l = h1 !! l) ->
  forall id,
    get_content {| mem := h2; rows := rs |} id
    = get_content {| mem := h1; rows := rs |} id.
Proof.
  intros Hcl Hn Hlen Hrs Hag id. unfold get_content, get. simpl.
  destruct (assoc_get id rs) as [l|] eqn:Hg; [|done].
  assert (Hl : (l < n)%nat).
  { apply assoc_get_elem in Hg. rewrite Forall_forall in Hrs. apply (Hrs _ Hg). }
  unfold deepClone.
  assert (Hns : stringify (S (length h1)) h1 [] (VRef l) ≠ Stuck).
  { apply (stringify_not_stuck n); try done; [constructor| |simpl; lia].
    intros a Ha. by apply elem_of_nil in Ha. }
  rewrite (stringify_agree n h1 h2 Hcl Hag _ (S (length h2)) [] (VRef l) _ Hl eq_refl)
    by (done || lia).
  destruct (stringify (S (length h1)) h1 [] (VRef l)) as [[j|]|x|]; try done.
  simpl. pose proof (parse_represents j h1) as Hr1.
  pose proof (parse_represents j h2) as Hr2.
  destruct (parse h1 j) as [h1' v1], (parse h2 j) as [h2' v2]. simpl in *.
  by rewrite (content_represents _ _ _ Hr1), (content_represents _ _ _ Hr2).
Qed.

Lemma assoc_set_values {V} (P : V -> Prop) (k : string) v (l : list (string * V)) :
  P v -> Forall P (map snd l) -> Forall P (map snd (assoc_set k v l)).
Proof.
  intros Hv. induction l as [|[k' v'] l IH]; simpl.
  - by repeat constructor.
  - intros [Hv' Hl]%Forall_cons. destruct (decide (k = k')); simpl;
      constructor; auto.
Qed.

Lemma spread_values (P : value -> Prop) (base extra : props) :
  Forall P (map snd base) -> Forall P (map snd extra) ->
  Forall P (map snd (spread base extra)).
Proof.
  unfold spread. revert base.
  induction extra as [|[k v] extra IH]; intros base Hb He; simpl; [done|].
  simpl in He. apply Forall_cons in He as [Hv He].
  apply IH; [|done]. by apply assoc_set_values.
Qed.

Lemma assoc_get_value {V} (k : string) (v : V) (l : list (string * V)) :
  assoc_get k l = Some v -> v ∈ map snd l.
Proof.
  intros Hg%assoc_get_elem. by apply (list_elem_of_fmap_2 snd) in Hg.
Qed.

Lemma val_belowb_spec n v : val_belowb n v = true -> val_below n v.
Proof. destruct v; simpl; try done. intros H. by apply Nat.ltb_lt. Qed.

Lemma closed_belowb_spec n h : closed_belowb n h = true -> closed_below n h.
Proof.
  unfold closed_belowb. rewrite forallb_forall. intros Hall l o Hl Hlook.
  assert (Hin : o ∈ take n h).
  { apply list_elem_of_lookup. exists l. by rewrite lookup_take_lt. }
  apply list_elem_of_In, Hall in Hin. rewrite forallb_forall in Hin.
  apply Forall_forall. intros v Hv. apply val_belowb_spec, Hin.
  by apply list_elem_of_In.
Qed.

Lemma wf_stateb_spec s : wf_stateb s = true -> wf_state s.
Proof.
  unfold wf_stateb. intros [Hc Hr]%andb_true_iff. split.
  - by apply closed_belowb_spec.
  - rewrite forallb_forall in Hr. apply Forall_forall. intros kl Hkl.
    apply Nat.ltb_lt, Hr. by apply list_elem_of_In.
Qed.

(** After an operation there is a bound [n] such that the rows and all
    they hold are below [n], and what was returned and all it holds is at
    [n] or above. *)
Lemma step_region s o :
  wf_state s -> op_args_ok s o ->
  exists n,
    (length (mem s) <= n <= length (mem (step s o)))%nat
    /\ closed_below n (mem (step s o))
    /\ Forall (fun kl : value * loc => (snd kl < n)%nat) (rows (step s o))
    /\ fresh_above n (mem (step s o))
    /\ Forall (val_above n) (returned s o).
Proof.
  destruct s as [h rs]. intros [Hcl Hrs] Hargs. simpl in *.
  destruct o as [row e|id|id patch|id|opts|]; simpl in *.
  - exists (S (length h)). unfold insert. simpl.
    set (id := match assoc_get "id" row with
               | Some VUndefined | Some VNull | None => VString (makeId "" e)
               | Some v => v
               end).
    assert (Hid : val_below (length h) id).
    { subst id. destruct (assoc_get "id" row) as [v|] eqn:Hg; [|done].
      apply assoc_get_value in Hg. rewrite Forall_forall in Hargs.
      specialize (Hargs _ Hg). by destruct v. }
    set (h1 := h ++ [OPlain (assoc_set "id" id row)]).
    assert (Hlen1 : length h1 = S (length h)).
    { subst h1. rewrite length_app. simpl. lia. }
    assert (Hcl1 : closed_below (S (length h)) h1).
    { apply closed_below_alloc; [done|]. simpl. by apply assoc_set_values. }
    assert (Hrs1 : Forall (fun kl : value * loc => (snd kl < S (length h))%nat)
                     (assoc_set id (length h) rs)).
    { apply assoc_set_Forall; [simpl; lia|].
      eapply Forall_impl; [exact Hrs|]. simpl. lia. }
    assert (Hf1 : fresh_above (S (length h)) h1).
    { rewrite <- Hlen1. apply fresh_above_start. }
    destruct (deepClone h1 (VRef (length h))) as [[h2 v]|x|] eqn:Hc; simpl.
    + assert (Hle1 : (S (length h) <= length h1)%nat) by lia.
      destruct (deepClone_fresh (S (length h)) _ _ _ _ Hle1 Hf1 Hc) as [Hv Hf2].
      apply deepClone_extends in Hc as [ext ->].
      split; [rewrite length_app; lia|].
      split; [apply closed_below_extends; [lia|done]|].
      split; [done|]. split; [done|]. by constructor.
    + split; [lia|]. by repeat (split; [done|]).
    + split; [lia|]. by repeat (split; [done|]).
  - exists (length h). unfold get. simpl.
    destruct (assoc_get id rs) as [l|]; simpl.
    + destruct (deepClone h (VRef l)) as [[h2 v]|x|] eqn:Hc; simpl.
      * destruct (deepClone_fresh (length h) _ _ _ _ (le_n _)
                    (fresh_above_start h) Hc) as [Hv Hf2].
        apply deepClone_extends in Hc as [ext ->].
        split; [rewrite length_app; lia|].
        split; [apply closed_below_extends; [lia|done]|].
        split; [done|]. split; [done|]. by constructor.
      * split; [lia|]. split; [done|]. split; [done|].
        split; [apply fresh_above_start|done].
      * split; [lia|]. split; [done|]. split; [done|].
        split; [apply fresh_above_start|done].
    + split; [lia|]. split; [done|]. split; [done|].
      split; [apply fresh_above_start|by repeat constructor].
  - unfold update. simpl.
    destruct (assoc_get id rs) as [l0|] eqn:Hg; simpl.
    2:{ exists (length h). split; [lia|]. split; [done|]. split; [done|].
        split; [apply fresh_above_start|by repeat constructor]. }
    destruct (h !! l0) as [[existing| | | |]|] eqn:Hl0; simpl;
      try (exists (length h); split; [lia|]; split; [done|]; split; [done|];
           split; [apply fresh_above_start|done]).
    exists (S (length h)).
    assert (Hex : Forall (val_below (length h)) (map snd existing)).
    { apply assoc_get_elem in Hg. rewrite Forall_forall in Hrs.
      specialize (Hrs _ Hg). simpl in Hrs. apply (Hcl l0 _ Hrs Hl0). }
    set (h1 := h ++ [OPlain (spread existing patch)]).
    assert (Hlen1 : length h1 = S (length h)).
    { subst h1. rewrite length_app. simpl. lia. }
    assert (Hcl1 : closed_below (S (length h)) h1).
    { apply closed_below_alloc; [done|]. simpl. by apply spread_values. }
    assert (Hrs1 : Forall (fun kl : value * loc => (snd kl < S (length h))%nat)
                     (assoc_set id (length h) rs)).
    { apply assoc_set_Forall; [simpl; lia|].
      eapply Forall_impl; [exact Hrs|]. simpl. lia. }
    assert (Hf1 : fresh_above (S (length h)) h1).
    { rewrite <- Hlen1. apply fresh_above_start. }
    destruct (deepClone h1 (VRef (length h))) as [[h2 v]|x|] eqn:Hc; simpl.
    + assert (Hle1 : (S (length h) <= length h1)%nat) by lia.
      destruct (deepClone_fresh (S (length h)) _ _ _ _ Hle1 Hf1 Hc) as [Hv Hf2].
      apply deepClone_extends in Hc as [ext ->].
      split; [rewrite length_app; lia|].
      split; [apply closed_below_extends; [lia|done]|].
      split; [done|]. split; [done|]. by constructor.
    + split; [lia|]. by repeat (split; [done|]).
    + split; [lia|]. by repeat (split; [done|]).
  - exists (length h). split; [lia|]. split; [done|].
    split; [by apply assoc_del_Forall|]. split; [apply fresh_above_start|done].
  - exists (length h). unfold query, snapshot. simpl.
    destruct (clone_all h (map snd rs)) as [[h1 arr]|x|] eqn:Hc; simpl.
    + destruct (clone_all_fresh (length h) _ _ _ _ (le_n _)
                  (fresh_above_start h) Hc) as [Hv Hf2].
      apply clone_all_extends in Hc as [ext ->].
      split; [rewrite length_app; lia|].
      split; [apply closed_below_extends; [lia|done]|].
      split; [done|]. split; [done|].
      rewrite Forall_forall in Hv. apply Forall_forall. intros r Hr. apply Hv.
      apply paginate_subseteq in Hr. by rewrite sort_rows_perm in Hr;
        unfold filter_rows in Hr; destruct (opt_filter opts);
        [apply list_elem_of_In, filter_In in Hr as [Hr _]; apply list_elem_of_In|].
    + split; [lia|]. split; [done|]. split; [done|].
      split; [apply fresh_above_start|done].
    + split; [lia|]. split; [done|]. split; [done|].
      split; [apply fresh_above_start|done].
  - exists (length h). split; [lia|]. split; [done|].
    split; [done|]. split; [apply fresh_above_start|done].
Qed.

(** ** Well-formed states stay well-formed *)

Lemma parse_closed j : forall h,
  closed_below (length h) h ->
  closed_below (length (fst (parse h j))) (fst (parse h j))
  /\ val_below (length (fst (parse h j))) (snd (parse h j)).
Proof.
  induction j as [ | b | z | str | js IH | jps IH] using json_ind2;
    intros h Hcl; simpl; try done.
  - assert (Hel : closed_below (length (fst (parse_elems parse h js)))
                    (fst (parse_elems parse h js))
                  /\ Forall (val_below (length (fst (parse_elems parse h js))))
                       (snd (parse_elems parse h js))).
    { revert h Hcl. induction IH as [|j js Hj _ IHjs]; intros h Hcl; simpl; [done|].
      destruct (Hj h Hcl) as [Hcl1 Hv].
      destruct (parse h j) as [h1 v]. simpl in *.
      destruct (IHjs h1 Hcl1) as [Hcl2 Hvs].
      destruct (parse_elems_extends_all js h1) as [ext He].
      destruct (parse_elems parse h1 js) as [h2 vs]. simpl in *.
      split; [done|]. constructor; [|done].
      eapply val_below_mono; [|exact Hv]. subst h2. rewrite length_app. lia. }
    destruct (parse_elems parse h js) as [h1 vs]. simpl in *. destruct Hel as [Hcl1 Hvs].
    rewrite length_app. simpl. rewrite Nat.add_1_r.
    split; [by apply closed_below_alloc|lia].
  - assert (Hel : closed_below (length (fst (parse_props parse h jps)))
                    (fst (parse_props parse h jps))
                  /\ Forall (val_below (length (fst (parse_props parse h jps))))
                       (map snd (snd (parse_props parse h jps)))).
    { revert h Hcl. induction IH as [|[k j] jps Hj _ IHjs]; intros h Hcl; simpl; [done|].
      simpl in Hj. destruct (Hj h Hcl) as [Hcl1 Hv].
      destruct (parse h j) as [h1 v]. simpl in *.
      destruct (IHjs h1 Hcl1) as [Hcl2 Hvs].
      destruct (parse_props_extends_all jps h1) as [ext He].
      destruct (parse_props parse h1 jps) as [h2 vs]. simpl in *.
      split; [done|]. constructor; [|done].
      eapply val_below_mono; [|exact Hv]. subst h2. rewrite length_app. lia. }
    destruct (parse_props parse h jps) as [h1 ps]. simpl in *. destruct Hel as [Hcl1 Hvs].
    rewrite length_app. simpl. rewrite Nat.add_1_r.
    split; [by apply closed_below_alloc|lia].
Qed.

Lemma deepClone_closed h v h' v' :
  closed_below (length h) h -> deepClone h v = Ok (h', v') ->
  closed_below (length h') h'.
Proof.
  intros Hcl. unfold deepClone.
  destruct (stringify _ _ _ _) as [[j|]|x|]; simpl; try done.
  intros [= Hp]. destruct (parse_closed j h Hcl) as [Hcl' _]. by rewrite Hp in Hcl'.
Qed.

Lemma clone_all_closed ls : forall h h' vs,
  closed_below (length h) h -> clone_all h ls = Ok (h', vs) ->
  closed_below (length h') h'.
Proof.
  induction ls as [|l ls IH]; intros h h' vs Hcl; simpl.
  - by intros [= <- <-].
  - destruct (deepClone h (VRef l)) as [[h1 v]|x|] eqn:Hc; simpl; try done.
    destruct (clone_all h1 ls) as [[h2 vs2]|x|] eqn:Hr; simpl; try done.
    intros [= <- <-]. eapply IH; [|exact Hr]. by eapply deepClone_closed.
Qed.

Lemma wf_state_alloc h rs ps k :
  wf_state {| mem := h; rows := rs |} ->
  Forall (val_below (length h)) (map snd ps) ->
  wf_state {| mem := h ++ [OPlain ps]; rows := assoc_set k (length h) rs |}.
Proof.
  intros [Hcl Hrs] Hps. simpl in *. split; simpl; rewrite length_app; simpl;
    rewrite Nat.add_1_r.
  - by apply closed_below_alloc.
  - apply assoc_set_Forall; [simpl; lia|].
    eapply Forall_impl; [exact Hrs|]. simpl. lia.
Qed.

Lemma wf_state_clone h rs v :
  wf_state {| mem := h; rows := rs |} ->
  wf_state {| mem := match deepClone h v with Ok (h', _) => h' | _ => h end;
              rows := rs |}.
Proof.
  intros [Hcl Hrs]. simpl in *.
  destruct (deepClone h v) as [[h' v']|x|] eqn:Hc; try done.
  split; simpl; [by eapply deepClone_closed|].
  apply deepClone_extends in Hc as [ext ->].
  eapply Forall_impl; [exact Hrs|]. simpl. intros kl. rewrite length_app. lia.
Qed.

Lemma step_wf s o : wf_state s -> op_args_ok s o -> wf_state (step s o).
Proof.
  destruct s as [h rs]. intros Hwf Hargs.
  destruct o as [row e|id|id patch|id|opts|]; simpl in *.
  - unfold insert. simpl.
    set (id := match assoc_get "id" row with
               | Some VUndefined | Some VNull | None => VString (makeId "" e)
               | Some v => v
               end).
    assert (Hid : val_below (length h) id).
    { subst id. destruct (assoc_get "id" row) as [v|] eqn:Hg; [|done].
      apply assoc_get_value in Hg. rewrite Forall_forall in Hargs.
      specialize (Hargs _ Hg). by destruct v. }
    pose proof (wf_state_alloc h rs (assoc_set "id" id row) id Hwf
                  (assoc_set_values _ _ _ _ Hid Hargs)) as Hwf1.
    pose proof (wf_state_clone _ _ (VRef (length h)) Hwf1) as Hwf2.
    by destruct (deepClone _ _) as [[h2 v2]|x|].
  - unfold get. simpl. destruct (assoc_get id rs) as [l|]; [|done].
    pose proof (wf_state_clone _ _ (VRef l) Hwf) as Hwf2.
    by destruct (deepClone _ _) as [[h2 v2]|x|].
  - unfold update. simpl. destruct (assoc_get id rs) as [l0|] eqn:Hg; [|done].
    destruct (h !! l0) as [[existing| | | |]|] eqn:Hl0; try done.
    assert (Hex : Forall (val_below (length h)) (map snd existing)).
    { destruct Hwf as [Hcl Hrs]. simpl in *.
      apply assoc_get_elem in Hg. rewrite Forall_forall in Hrs.
      specialize (Hrs _ Hg). simpl in Hrs. apply (Hcl l0 _ Hrs Hl0). }
    pose proof (wf_state_alloc h rs (spread existing patch) id Hwf
                  (spread_values _ _ _ Hex Hargs)) as Hwf1.
    pose proof (wf_state_clone _ _ (VRef (length h)) Hwf1) as Hwf2.
    by destruct (deepClone _ _) as [[h2 v2]|x|].
  - destruct Hwf as [Hcl Hrs]. split; [done|]. simpl in *. by apply assoc_del_Forall.
  - unfold query, snapshot. simpl. destruct Hwf as [Hcl Hrs]. simpl in *.
    destruct (clone_all h (map snd rs)) as [[h1 arr]|x|] eqn:Hc; try done.
    split; simpl; [by eapply clone_all_closed|].
    apply clone_all_extends in Hc as [ext ->].
    eapply Forall_impl; [exact Hrs|]. simpl. intros kl. rewrite length_app. lia.
  - destruct Hwf as [Hcl Hrs]. by split.
Qed.

(** Every state reached from a table without rows in a heap without dangling
    reference, by operations given objects of the heap, is well-formed. *)
Lemma run_wf (h0 : heap) (os : list op) :
  closed_below (length h0) h0 -> ops_args_ok (empty_table h0) os ->
  wf_state (run (empty_table h0) os).
Proof.
  intros Hcl. assert (Hwf : wf_state (empty_table h0)) by by split.
  revert Hwf. generalize (empty_table h0). unfold run.
  induction os as [|o os IH]; intros s Hwf Hos; simpl in *; [done|].
  destruct Hos as [Ho Hos]. apply IH; [by apply step_wf|done].
Qed.

(** C4: whatever an operation returns is made of objects that did not
    exist before the call and that no row of the table holds; and after
    any change made to these objects only (other objects may be added),
    every [get] returns what it would have returned without the change. *)
Theorem copy_isolation (s : state) (o : op) :
  wf_state s -> op_args_ok s o ->
  let s1 := step s o in
  (forall r l, r ∈ returned s o -> reach (mem s1) r l ->
     (length (mem s) <= l)%nat
     /\ forall kl, kl ∈ rows s1 -> ~ reach (mem s1) (VRef (snd kl)) l)
  /\ forall h2,
      (length (mem s1) <= length h2)%nat ->
      (forall l, (l < length (mem s1))%nat ->
         (forall r, r ∈ returned s o -> ~ reach (mem s1) r l) ->
         h2 !! l = mem s1 !! l) ->
      forall id,
        get_content {| mem := h2; rows := rows s1 |} id = get_content s1 id.
Proof.
  intros Hwf Hargs s1.
  destruct (step_region s o Hwf Hargs) as (n & [Hn1 Hn2] & Hcl & Hrs & Hf & Hret).
  fold s1 in Hn2, Hcl, Hrs, Hf. rewrite Forall_forall in Hret. split.
  - intros r l Hr Hreach.
    pose proof (reach_above n _ _ _ Hf (Hret _ Hr) Hreach) as Hl.
    split; [lia|]. intros kl Hkl Hreach'.
    rewrite Forall_forall in Hrs. specialize (Hrs _ Hkl).
    pose proof (reach_below n _ (VRef (snd kl)) _ Hcl Hrs Hreach'). lia.
  - intros h2 Hlen Hag id. destruct s1 as [h1 rs1]. simpl in *.
    apply (get_content_agree n); try done.
    intros l Hl. apply Hag; [lia|]. intros r Hr Hreach.
    pose proof (reach_above n _ _ _ Hf (Hret _ Hr) Hreach). lia.
Qed.

(** ** Point operations *)

(** C10: [delete(id)] tells whether it removed something.  On a present
    [id] the first call returns [true] and the table has exactly one row
    less; a second call returns [false] and changes nothing.  On a missing
    [id] the call returns [false], leaves the table as it is, and nothing
    is thrown. *)
Theorem delete_idempotent (s : state) (id : value) :
  NoDup (keys (rows s)) ->
  (assoc_has id (rows s) = true ->
     snd (delete s id) = true
     /\ (length (rows (fst (delete s id))) + 1 = length (rows s))%nat
     /\ delete (fst (delete s id)) id = (fst (delete s id), false))
  /\ (assoc_has id (rows s) = false -> delete s id = (s, false)).
Proof.
  intros Hnd. destruct s as [h rs]. unfold delete. simpl in *. split.
  - intros Hhas. split; [done|]. split; [by apply assoc_del_length|].
    rewrite assoc_del_gone by done.
    by rewrite (assoc_del_absent id (assoc_del id rs)) by by apply assoc_del_gone.
  - intros Hhas. rewrite Hhas. by rewrite assoc_del_absent.
Qed.

(** C6: [update(id, patch)] on an [id] that is not in the table returns
    [undefined] and leaves the table, rows and heap, as it was, whatever
    the patch. *)
Theorem update_missing (s : state) (id : value) (patch : props) :
  assoc_get id (rows s) = None ->
  update s id patch = (s, Ok VUndefined)
  /\ length (rows (fst (update s id patch))) = length (rows s).
Proof.
  intros Hg. unfold update. rewrite Hg. done.
Qed.

(** ** What the rows hold, whatever their fields *)

(** The content of a value depends on the closed part of the heap it lives
    in, and on nothing else. *)
Lemma content_agree n h h2 v :
  closed_below n h -> (n <= length h)%nat -> (length h <= length h2)%nat ->
  (forall l, (l < n)%nat -> h2 !! l = h !! l) ->
  val_below n v -> content h2 v = content h v.
Proof.
  intros Hcl Hn Hlen Hag Hv. unfold content.
  apply (stringify_agree n h h2 Hcl Hag _ _ [] v _ Hv eq_refl); [|lia].
  apply (stringify_not_stuck n); try done; [constructor| |simpl; lia].
  intros a Ha. by apply elem_of_nil in Ha.
Qed.

Lemma content_extends h ext v :
  closed_below (length h) h -> val_below (length h) v ->
  content (h ++ ext) v = content h v.
Proof.
  intros Hcl Hv. apply (content_agree (length h)); try done.
  - rewrite length_app. lia.
  - intros l Hl. by apply lookup_app_l.
Qed.

Lemma deepClone_content h v :
  deepClone h v
  = match content h v with
    | Ok (Some j) => Ok (parse h j)
    | Ok None => Throw SyntaxError
    | Throw x => Throw x
    | Stuck => Stuck
    end.
Proof. unfold deepClone, content. by destruct (stringify _ _ _ _) as [[j|]|x|]. Qed.

(** What [get] hands out is what serialising the stored row gives. *)
Lemma get_content_row s id :
  get_content s id
  = match assoc_get id (rows s) with
    | None => Ok None
    | Some l =>
        match content (mem s) (VRef l) with
        | Ok (Some j) => Ok (Some j)
        | Ok None => Throw SyntaxError
        | Throw x => Throw x
        | Stuck => Stuck
        end
    end.
Proof.
  unfold get_content, get. destruct (assoc_get id (rows s)) as [l|]; [|done].
  rewrite deepClone_content.
  destruct (content (mem s) (VRef l)) as [[j|]|x|]; try done. simpl.
  pose proof (parse_represents j (mem s)) as Hr.
  destruct (parse (mem s) j) as [h1 v1]. simpl in *. by apply content_represents.
Qed.

Lemma step_mem_extends s o : exists ext, mem (step s o) = mem s ++ ext.
Proof.
  assert (Hnil : exists ext, mem s = mem s ++ ext) by (exists []; by rewrite app_nil_r).
  destruct o as [row e|id|id patch|id|opts|]; simpl; try done.
  - unfold insert. destruct (deepClone _ _) as [[h2 v]|x|] eqn:Hc; simpl; eauto.
    apply deepClone_extends in Hc as [ext ->]. rewrite <- app_assoc. eauto.
  - unfold get. destruct (assoc_get id (rows s)) as [l|]; [|done].
    destruct (deepClone _ _) as [[h2 v]|x|] eqn:Hc; simpl; try done.
    by apply deepClone_extends in Hc.
  - unfold update. destruct (assoc_get id (rows s)) as [l|]; [|done].
    destruct (mem s !! l) as [[existing| | | |]|]; try done.
    destruct (deepClone _ _) as [[h2 v]|x|] eqn:Hc; simpl; eauto.
    apply deepClone_extends in Hc as [ext ->]. rewrite <- app_assoc. eauto.
  - unfold query. destruct (snapshot s) as [[h1 arr]|x|] eqn:Hs; simpl; try done.
    by apply clone_all_extends in Hs.
Qed.

Lemma assoc_get_del_ne {K V} `{EqDecision K} (k k0 : K) (l : list (K * V)) :
  k0 ≠ k -> assoc_get k0 (assoc_del k l) = assoc_get k0 l.
Proof.
  intros Hne. induction l as [|[k' v'] l IH]; simpl; [done|].
  destruct (decide (k = k')) as [->|Hk].
  - by destruct (decide (k0 = k')).
  - simpl. by rewrite IH.
Qed.

Lemma step_rows_other s o id :
  ~ writes_to o id -> assoc_get id (rows (step s o)) = assoc_get id (rows s).
Proof.
  destruct o as [row e|id'|id' patch|id'|opts|]; simpl; intros Hw.
  - unfold insert. fold (insert_id row e).
    assert (Hset : assoc_get id (assoc_set (insert_id row e) (length (mem s)) (rows s))
                   = assoc_get id (rows s))
      by (apply assoc_get_set_ne; congruence).
    by destruct (deepClone _ _) as [[h2 v]|x|].
  - unfold get. destruct (assoc_get id' (rows s)) as [l|]; [|done].
    by destruct (deepClone _ _) as [[h2 v]|x|].
  - unfold update. destruct (assoc_get id' (rows s)) as [l|]; [|done].
    destruct (mem s !! l) as [[existing| | | |]|]; try done.
    assert (Hset : assoc_get id (assoc_set id' (length (mem s)) (rows s))
                   = assoc_get id (rows s))
      by (apply assoc_get_set_ne; congruence).
    by destruct (deepClone _ _) as [[h2 v]|x|].
  - apply assoc_get_del_ne. congruence.
  - unfold query. by destruct (snapshot s) as [[h1 arr]|x|].
  - done.
Qed.

(** X2: an operation changes what [get] returns for the key it writes to
    and for no other: after [insert], [update] or [delete] on one
    identifier, and after any [get] or [query], [get] of every other
    identifier returns the same content as before (or is [undefined] as
    before). *)
Theorem other_rows_untouched (s : state) (o : op) (id : value) :
  wf_state s -> ~ writes_to o id ->
  get_content (step s o) id = get_content s id
  /\ (id ∈ keys (rows (step s o)) <-> id ∈ keys (rows s)).
Proof.
  intros [Hcl Hrows] Hw. pose proof (step_rows_other s o id Hw) as Hg. split.
  - rewrite !get_content_row, Hg.
    destruct (assoc_get id (rows s)) as [l|] eqn:Hl; [|done].
    destruct (step_mem_extends s o) as [ext ->].
    rewrite content_extends; [done|done|]. simpl.
    apply assoc_get_elem in Hl. rewrite Forall_forall in Hrows. apply (Hrows _ Hl).
  - rewrite <- !assoc_has_true. unfold assoc_has. by rewrite Hg.
Qed.

(** ** Update, get, insert, delete and clear *)

Lemma represents_props_set h ps jps k v j :
  represents_props h ps jps -> represents h v j ->
  represents_props h (assoc_set k v ps) (assoc_set k j jps).
Proof.
  unfold represents_props. rewrite !all2_Forall2. intros Hps Hv.
  induction Hps as [|[k1 v1] [k2 j1] ps jps [Hk Hv1] Hps IH]; simpl in *.
  - constructor; [by split|constructor].
  - subst k2. destruct (decide (k = k1)); (constructor; [by split|done]).
Qed.

Lemma represents_props_spread h extra jextra :
  represents_props h extra jextra ->
  forall base jbase,
    represents_props h base jbase ->
    represents_props h (spread base extra) (spread_json jbase jextra).
Proof.
  unfold spread, spread_json, represents_props at 1. rewrite all2_Forall2.
  induction 1 as [|[k1 v1] [k2 j1] extra jextra [Hk Hv1] _ IH]; intros base jbase Hb;
    simpl in *; [done|].
  subst k2. apply IH. by apply represents_props_set.
Qed.

Lemma spread_json_get_absent k (extra : list (string * json)) :
  assoc_get k extra = None ->
  forall base, assoc_get k (spread_json base extra) = assoc_get k base.
Proof.
  unfold spread_json. induction extra as [|[k1 j1] extra IH]; simpl; [done|].
  destruct (decide (k = k1)); [done|]. intros Hno base.
  rewrite IH by done. by apply assoc_get_set_ne.
Qed.

Lemma spread_json_get_present k j (extra : list (string * json)) :
  NoDup (keys extra) -> assoc_get k extra = Some j ->
  forall base, assoc_get k (spread_json base extra) = Some j.
Proof.
  unfold spread_json. induction extra as [|[k1 j1] extra IH]; simpl; [done|].
  intros [Hnin Hnd]%NoDup_cons. destruct (decide (k = k1)) as [->|Hne].
  - intros [= ->] base. fold (spread_json (assoc_set k1 j base) extra).
    rewrite spread_json_get_absent; [apply assoc_get_set_eq|].
    by apply assoc_get_None.
  - intros Hg base. by apply IH.
Qed.

(** X1: [update] merges the patch into the stored row, as [{...existing,
    ...patch}] does: for a row and a patch of JSON values it returns the
    members of the row with those of the patch set over them, keeps the keys
    of the table as they are, and a following [get] returns the same; a
    member the patch does not name is the row's, a member it names is the
    patch's. *)
Theorem update_merges (s : state) (id : value) (l0 : loc) (existing patch : props)
    (jrow jpatch : list (string * json)) :
  assoc_get id (rows s) = Some l0 ->
  mem s !! l0 = Some (OPlain existing) ->
  represents_props (mem s) existing jrow ->
  represents_props (mem s) patch jpatch ->
  NoDup (keys jpatch) ->
  let merged := spread_json jrow jpatch in
  (exists s1 v1 s2 v2,
      update s id patch = (s1, Ok v1)
      /\ represents (mem s1) v1 (JObj merged)
      /\ keys (rows s1) = keys (rows s)
      /\ get s1 id = (s2, Ok v2)
      /\ represents (mem s2) v2 (JObj merged))
  /\ forall k,
      assoc_get k merged
      = match assoc_get k jpatch with
        | Some j => Some j
        | None => assoc_get k jrow
        end.
Proof.
  intros Hg Hl0 Hrow Hpatch Hnd merged. split.
  - unfold update. rewrite Hg, Hl0.
    assert (Hnew : represents (mem s ++ [OPlain (spread existing patch)])
                     (VRef (length (mem s))) (JObj merged)).
    { simpl. rewrite list_lookup_middle by done.
      apply represents_props_extends. by apply represents_props_spread. }
    destruct (deepClone_represents _ _ _ Hnew) as (h2 & v1 & Hc & Hv1 & ext & ->).
    rewrite Hc.
    set (s1 := {| mem := (mem s ++ [OPlain (spread existing patch)]) ++ ext;
                  rows := assoc_set id (length (mem s)) (rows s) |}).
    destruct (get_representable s1 id (length (mem s)) (JObj merged))
      as (h3 & v2 & Hget & Hv2);
      [apply assoc_get_set_eq|by apply represents_extends|].
    exists s1, v1, {| mem := h3; rows := rows s1 |}, v2.
    split; [done|]. split; [done|]. split; [|done]. simpl.
    apply keys_assoc_set_present, assoc_has_true. unfold assoc_has. by rewrite Hg.
  - intros k. subst merged. destruct (assoc_get k jpatch) as [j|] eqn:Hk.
    + by apply spread_json_get_present.
    + by apply spread_json_get_absent.
Qed.

(** X5: what [get] returns is JSON data: [undefined] when the identifier
    has no entry, and else, for a row that holds no object with a [toJSON]
    method of its own, a value that is exactly the JSON tree that
    serialising the stored row gives, so no date, no [NaN], no [undefined]
    and no function is in it; the entries of the table are the same after
    the call. *)
Theorem get_returns_json (s s1 : state) (id v : value) :
  (forall l, assoc_get id (rows s) = Some l -> plain_data (mem s) (VRef l)) ->
  get s id = (s1, Ok v) ->
  rows s1 = rows s
  /\ ((assoc_get id (rows s) = None /\ v = VUndefined /\ s1 = s)
      \/ exists l j,
          assoc_get id (rows s) = Some l
          /\ content (mem s) (VRef l) = Ok (Some j)
          /\ represents (mem s1) v j).
Proof.
  intros _. unfold get. destruct (assoc_get id (rows s)) as [l|] eqn:Hg.
  - rewrite deepClone_content.
    destruct (content (mem s) (VRef l)) as [[j|]|x|] eqn:Hc; try done.
    pose proof (parse_represents j (mem s)) as Hr.
    destruct (parse (mem s) j) as [h1 v1]. intros [= <- <-]. simpl in *.
    split; [done|]. right. by exists l, j.
  - intros [= <- <-]. split; [done|]. by left.
Qed.

(** X6: [insert] puts its identifier ([row.id], or the generated one) last
    among the keys when it is new, and leaves the keys as they are when it
    is already one, also when it is a generated identifier that collides:
    the table grows by one row exactly when the identifier is new. *)
Theorem insert_keys (s : state) (row : props) (e : entropy) :
  keys (rows (fst (insert s row e)))
  = (if assoc_has (insert_id row e) (rows s) then keys (rows s)
     else keys (rows s) ++ [insert_id row e])
  /\ assoc_has (insert_id row e) (rows (fst (insert s row e))) = true.
Proof.
  assert (Hrows : rows (fst (insert s row e))
                  = assoc_set (insert_id row e) (length (mem s)) (rows s)).
  { unfold insert. fold (insert_id row e).
    by destruct (deepClone _ _) as [[h2 v]|x|]. }
  rewrite Hrows. split.
  - destruct (assoc_has (insert_id row e) (rows s)) eqn:Hhas.
    + by apply keys_assoc_set_present, assoc_has_true.
    + apply keys_assoc_set_absent. rewrite <- assoc_has_true. by rewrite Hhas.
  - unfold assoc_has. by rewrite assoc_get_set_eq.
Qed.

Lemma filter_all {A : Type} (P : A -> Prop) `{forall x, Decision (P x)} (l : list A) :
  Forall P l -> filter P l = l.
Proof.
  induction 1 as [|x l Hx _ IH]; [done|]. by rewrite filter_cons_True, IH.
Qed.

Lemma keys_assoc_del {K V} `{EqDecision K} (k : K) (l : list (K * V)) :
  NoDup (keys l) -> keys (assoc_del k l) = filter (fun k' => k' ≠ k) (keys l).
Proof.
  unfold keys. induction l as [|[k' v'] l IH]; simpl; [done|].
  intros [Hnin Hnd]%NoDup_cons. destruct (decide (k = k')) as [->|Hne].
  - rewrite filter_cons_False by (intros H0; by apply H0).
    symmetry. apply filter_all. apply Forall_forall. intros x Hx ->. done.
  - rewrite filter_cons_True by done. simpl. by rewrite IH.
Qed.

(** X7: after [delete(id)] the identifier has no row: [get] returns
    [undefined] and [update] changes nothing; and the [Map] keeps insertion
    order, so a row inserted again under a deleted identifier goes to the
    end of the table, behind the rows that were after it. *)
Theorem delete_then_get (s : state) (id : value) :
  NoDup (keys (rows s)) ->
  let s1 := fst (delete s id) in
  get s1 id = (s1, Ok VUndefined)
  /\ (forall patch, update s1 id patch = (s1, Ok VUndefined))
  /\ forall row e,
      insert_id row e = id ->
      keys (rows (fst (insert s1 row e)))
      = filter (fun k => k ≠ id) (keys (rows s)) ++ [id].
Proof.
  intros Hnd s1.
  assert (Hgone : assoc_get id (rows s1) = None).
  { pose proof (assoc_del_gone id (rows s) Hnd) as Hg. unfold assoc_has in Hg.
    simpl. by destruct (assoc_get id (assoc_del id (rows s))). }
  split; [|split].
  - unfold get. by rewrite Hgone.
  - intros patch. unfold update. by rewrite Hgone.
  - intros row e Hid.
    assert (Hrows : rows (fst (insert s1 row e))
                    = assoc_set id (length (mem s1)) (rows s1)).
    { unfold insert. fold (insert_id row e). rewrite Hid.
      by destruct (deepClone _ _) as [[h2 v]|x|]. }
    rewrite Hrows, keys_assoc_set_absent by by apply assoc_get_None.
    simpl. by rewrite keys_assoc_del.
Qed.

Lemma slice_nil {A : Type} (a b : Z) : slice a b (@nil A) = [].
Proof. unfold slice. by rewrite drop_nil, take_nil. Qed.

(** X8: after [clear()] the table is empty for every reader: [get] of any
    identifier returns [undefined], [query] with any options returns the
    empty array, and neither changes the state; the objects of the heap are
    left as they were. *)
Theorem clear_empties (s : state) :
  let s1 := clear s in
  mem s1 = mem s
  /\ (forall id, get s1 id = (s1, Ok VUndefined))
  /\ (forall opts, query s1 opts = (s1, Ok []))
  /\ forall id, delete s1 id = (s1, false).
Proof.
  intros s1. split; [done|]. split; [done|]. split; [|done].
  intros opts. unfold query, snapshot. simpl. f_equal. f_equal.
  assert (Hf : filter_rows (mem s) opts [] = []).
  { unfold filter_rows. by destruct (opt_filter opts). }
  assert (Hs : sort_rows (mem s) opts [] = []).
  { unfold sort_rows. destruct (opt_sortBy opts) as [k|]; [|done].
    by destruct (String.eqb k ""). }
  rewrite Hf, Hs. unfold paginate. apply slice_nil.
Qed.


(** ** More about queries *)

Lemma slice_sublist {A : Type} (a b : Z) (l : list A) : slice a b l `sublist_of` l.
Proof. unfold slice. etrans; [apply sublist_take|apply sublist_drop]. Qed.

Lemma filter_rows_sublist h opts arr : filter_rows h opts arr `sublist_of` arr.
Proof.
  unfold filter_rows. destruct (opt_filter opts) as [f|]; [|done].
  induction arr as [|x arr IH]; simpl; [done|].
  destruct (row_matches h f x); by constructor.
Qed.

(** X3: whatever the options, also with a negative [offset] or [limit],
    [query] on a table whose rows can be copied returns copies made for this
    call, each at most once: the result is a sub-collection of the snapshot
    and has at most as many rows as the table. *)
Theorem query_within_snapshot (s : state) (opts : QueryOptions) h1 arr :
  snapshot s = Ok (h1, arr) ->
  exists res,
    query s opts = ({| mem := h1; rows := rows s |}, Ok res)
    /\ res ⊆+ arr
    /\ (length res <= length (rows s))%nat.
Proof.
  intros Hs. rewrite (query_unfold _ _ _ _ Hs). eexists. split; [done|].
  assert (Hsub : paginate opts (sort_rows h1 opts (filter_rows h1 opts arr)) ⊆+ arr).
  { etrans; [apply sublist_submseteq, slice_sublist|].
    etrans; [apply Permutation_submseteq, sort_rows_perm|].
    apply sublist_submseteq, filter_rows_sublist. }
  split; [done|]. apply submseteq_length in Hsub.
  unfold snapshot in Hs. apply clone_all_length in Hs.
  rewrite length_map in Hs. lia.
Qed.

(** The copies of rows that serialise: one per row, each the JSON tree its
    row serialises to. *)
Lemma clone_all_contents h0 ls :
  closed_below (length h0) h0 ->
  Forall (fun l => (l < length h0)%nat) ls ->
  forall ext,
    match clone_all (h0 ++ ext) ls with
    | Ok (h', vs) =>
        Forall2 (fun l v => exists j, content h0 (VRef l) = Ok (Some j)
                                      /\ represents h' v j) ls vs
    | Throw x =>
        Exists (fun l => content h0 (VRef l) = Throw x
                         \/ (content h0 (VRef l) = Ok None /\ x = SyntaxError)) ls
    | Stuck => False
    end.
Proof.
  intros Hcl. induction 1 as [|l ls Hl Hls IH]; intros ext; simpl; [done|].
  rewrite deepClone_content, content_extends by done.
  assert (Hns : content h0 (VRef l) ≠ Stuck).
  { unfold content. apply (stringify_not_stuck (length h0)); try done;
      [constructor| |simpl; lia].
    intros a Ha. by apply elem_of_nil in Ha. }
  destruct (content h0 (VRef l)) as [[j|]|x|] eqn:Hc; simpl; try done.
  - pose proof (parse_represents j (h0 ++ ext)) as Hr.
    destruct (parse_extends j (h0 ++ ext)) as [e1 He1].
    destruct (parse (h0 ++ ext) j) as [h1 v]. simpl in *. subst h1.
    specialize (IH (ext ++ e1)). rewrite app_assoc in IH.
    destruct (clone_all ((h0 ++ ext) ++ e1) ls) as [[h2 vs]|x|] eqn:Hr2; simpl; try done.
    + constructor; [|done]. exists j. split; [done|].
      apply clone_all_extends in Hr2 as [e2 ->]. by apply represents_extends.
    + by apply Exists_cons_tl.
  - apply Exists_cons_hd. by right.
  - apply Exists_cons_hd. by left.
Qed.

(** X4: over rows that hold no object with a [toJSON] method of its own,
    [query()] without options returns one copy per row, in the order of
    insertion, and each copy is the JSON tree its row serialises to (a date
    field as its ISO text, and so on); it returns whenever every row
    serialises. *)
Theorem query_all_contents (s : state) :
  wf_state s ->
  rows_plain s ->
  Forall (fun kl : value * loc => exists j, content (mem s) (VRef (snd kl)) = Ok (Some j))
    (rows s) ->
  exists h1 arr,
    query s no_options = ({| mem := h1; rows := rows s |}, Ok arr)
    /\ Forall2 (fun (kl : value * loc) v =>
                  exists j, content (mem s) (VRef (snd kl)) = Ok (Some j)
                            /\ represents h1 v j)
         (rows s) arr.
Proof.
  intros [Hcl Hrows] _ Hser.
  pose proof (clone_all_contents (mem s) (map snd (rows s)) Hcl) as Hall.
  rewrite Forall_fmap in Hall. specialize (Hall Hrows []). rewrite app_nil_r in Hall.
  fold (snapshot s) in Hall.
  destruct (snapshot s) as [[h1 arr]|x|] eqn:Hs; [| |done].
  - exists h1, arr. rewrite (query_unfold _ _ _ _ Hs). split.
    + simpl. unfold paginate. simpl. by rewrite slice_all.
    + by apply Forall2_fmap_l in Hall.
  - exfalso. apply Exists_exists in Hall as (l & Hin & Hbad).
    apply list_elem_of_fmap in Hin as (kl & -> & Hkl).
    rewrite Forall_forall in Hser. destruct (Hser _ Hkl) as [j Hj].
    rewrite Hj in Hbad. by destruct Hbad as [|[]].
Qed.

(** X9: within one state of the table, consecutive pages join up: the page
    of [n] rows at offset [o] followed by the page of [m] rows at offset
    [o + n] is the page of [n + m] rows at offset [o], for every filter and
    sort. *)
Theorem pages_concatenate (s : state) (opts : QueryOptions) (o n m : Z) h1 arr :
  snapshot s = Ok (h1, arr) ->
  0 <= o -> 0 <= n -> 0 <= m ->
  exists r1 r2,
    snd (query s (page opts o n)) = Ok r1
    /\ snd (query s (page opts (o + n) m)) = Ok r2
    /\ snd (query s (page opts o (n + m))) = Ok (r1 ++ r2).
Proof.
  intros Hs Ho Hn Hm. rewrite !(query_unfold _ _ _ _ Hs). simpl.
  eexists _, _. split; [done|]. split; [done|]. f_equal.
  unfold paginate, filter_rows, sort_rows. simpl.
  set (l := match opt_sortBy opts with
            | Some k => _
            | None => _
            end).
  rewrite !slice_take_drop by lia.
  rewrite (Z2Nat.inj_add o n), (Z2Nat.inj_add n m) by lia.
  rewrite <- drop_drop. symmetry. apply take_take_drop.
Qed.

(** X10: [query] hands a negative [offset] to [slice], which counts it
    from the end: with [offset] [-k] (for [k] between 1 and the number of
    rows that passed the filter) and no [limit] the result is empty, and
    with a [limit] [n] below [k] it is the [n] rows that start [k] before
    the end. *)
Theorem negative_offset_from_end (s : state) (opts : QueryOptions) (k : Z) h1 arr :
  snapshot s = Ok (h1, arr) ->
  let sorted := sort_rows h1 opts (filter_rows h1 opts arr) in
  opt_offset opts = Some (- k) ->
  1 <= k <= Z.of_nat (length sorted) ->
  (opt_limit opts = None -> snd (query s opts) = Ok [])
  /\ forall n,
      opt_limit opts = Some n -> 0 <= n < k ->
      snd (query s opts)
      = Ok (take (Z.to_nat n) (drop (length sorted - Z.to_nat k) sorted)).
Proof.
  intros Hs sorted Hoff Hk. rewrite (query_unfold _ _ _ _ Hs). simpl. fold sorted.
  unfold paginate. rewrite Hoff. split.
  - intros ->. f_equal. unfold slice.
    assert (H1 : (- k <? 0) = true) by lia.
    assert (H2 : (- k + Z.of_nat (length sorted) <? 0) = false) by lia.
    rewrite H1, H2.
    replace (Z.to_nat (_ - _)) with 0%nat by lia. apply take_0.
  - intros n -> Hn. f_equal. unfold slice.
    assert (H1 : (- k <? 0) = true) by lia.
    assert (H2 : (- k + n <? 0) = true) by lia.
    rewrite H1, H2. f_equal; [lia|f_equal; lia].
Qed.

(** ** Filters on objects and patterns *)

Lemma read_above n h row k :
  fresh_above n h -> val_above n row -> val_above n (read h row k).
Proof.
  intros Hf Hrow. destruct row as [| | | | |l]; try done. simpl.
  destruct (h !! l) as [[ps| | | |]|] eqn:Hl; try done.
  specialize (Hf l _ Hrow Hl). simpl in Hf. unfold read_prop.
  destruct (assoc_get k ps) as [v|] eqn:Hk; [|done].
  rewrite Forall_forall in Hf. by apply Hf, assoc_get_value with k.
Qed.

Lemma strict_eq_old_object n a l :
  val_above n a -> (l < n)%nat -> strict_eq a (VRef l) = false.
Proof.
  intros Ha Hl. unfold strict_eq.
  assert (Hne : a ≠ VRef l) by (intros ->; simpl in Ha; lia).
  destruct a as [| | |[]| |]; try done; by apply bool_decide_eq_false.
Qed.

Lemma filter_none {A : Type} (f : A -> bool) (l : list A) :
  (forall x, x ∈ l -> f x = false) -> List.filter f l = [].
Proof.
  induction l as [|x l IH]; intros Hf; simpl; [done|].
  rewrite (Hf x) by apply list_elem_of_here. apply IH.
  intros y Hy. apply Hf. by apply list_elem_of_further.
Qed.

Lemma query_of_nothing h opts : paginate opts (sort_rows h opts []) = [].
Proof.
  assert (Hs : sort_rows h opts [] = []).
  { unfold sort_rows. destruct (opt_sortBy opts) as [k|]; [|done].
    by destruct (String.eqb k ""). }
  rewrite Hs. unfold paginate. apply slice_nil.
Qed.

Lemma snapshot_fresh s h1 arr :
  snapshot s = Ok (h1, arr) ->
  (exists ext, h1 = mem s ++ ext)
  /\ Forall (val_above (length (mem s))) arr
  /\ fresh_above (length (mem s)) h1.
Proof.
  intros Hs. split; [by apply clone_all_extends in Hs|].
  apply (clone_all_fresh _ _ _ _ _ (le_n _) (fresh_above_start _) Hs).
Qed.

(** X11: a filter value that is an object of the caller (a plain object,
    an array or a [Date]) selects nothing: the rows compared are fresh
    copies, and [===] on objects is identity; so [query] with such a filter
    member returns the empty array whatever the rows hold and whatever else
    the options ask for. *)
Theorem object_filter_matches_nothing (s : state) (opts : QueryOptions)
    (f : props) (k : string) (l : loc) h1 arr :
  snapshot s = Ok (h1, arr) ->
  opt_filter opts = Some f ->
  (k, VRef l) ∈ f ->
  is_plain (mem s) (VRef l) ->
  query s opts = ({| mem := h1; rows := rows s |}, Ok []).
Proof.
  intros Hs Hf Hin Hplain. rewrite (query_unfold _ _ _ _ Hs). f_equal. f_equal.
  destruct (snapshot_fresh _ _ _ Hs) as ([ext ->] & Harr & Hfresh).
  assert (Hl : (l < length (mem s))%nat).
  { simpl in Hplain. destruct (mem s !! l) eqn:Hl; [|done].
    by apply lookup_lt_Some in Hl. }
  destruct (is_plain_extends _ ext _ Hplain) as [Hre Hfn].
  unfold filter_rows. rewrite Hf, filter_none; [apply query_of_nothing|].
  intros row Hrow. unfold row_matches.
  destruct (forallb _ f) eqn:Hall; [|done].
  rewrite forallb_forall in Hall. specialize (Hall (k, VRef l)).
  rewrite <- Hall by by apply list_elem_of_In.
  unfold field_matches. simpl fst. simpl snd. rewrite Hre, Hfn.
  apply (strict_eq_old_object (length (mem s))); [|done].
  apply read_above; [done|]. rewrite Forall_forall in Harr. by apply Harr.
Qed.

(** X12: a filter value that is a regular expression selects only rows
    whose field is a string: a row whose field is a number, a boolean,
    [null], an object or missing is never in the result, whatever the
    expression is. *)
Theorem pattern_needs_string (s s1 : state) (k : string) (p : value) (re : regexp)
    (res : list value) :
  as_regexp (mem s) p = Some re ->
  query s (with_filter [(k, p)]) = (s1, Ok res) ->
  Forall (fun row => is_string (read (mem s1) row k)) res.
Proof.
  intros Hre Hq. destruct (snapshot s) as [[h1 arr]|x|] eqn:Hs;
    [|unfold query in Hq; by rewrite Hs in Hq..].
  rewrite (query_unfold _ _ _ _ Hs) in Hq. injection Hq as <- <-. cbn [mem].
  destruct (snapshot_fresh _ _ _ Hs) as ([ext ->] & Harr & Hfresh).
  unfold with_filter, paginate, sort_rows, filter_rows. cbn [opt_filter opt_sortBy
    opt_offset opt_limit]. rewrite slice_all.
  apply Forall_forall. intros row [Hrow Hm]%list_elem_of_In%filter_In.
  apply list_elem_of_In in Hrow.
  unfold row_matches in Hm. simpl in Hm. rewrite andb_true_r in Hm.
  unfold field_matches in Hm. cbn [fst snd] in Hm.
  destruct p as [| | | | |lp]; try done. simpl in Hre.
  destruct (mem s !! lp) as [o|] eqn:Hlp; [|done].
  assert (Hlt : (lp < length (mem s))%nat) by by apply lookup_lt_Some in Hlp.
  destruct o as [| | |re'|]; try done.
  assert (Hno : strict_eq (read (mem s ++ ext) row k) (VRef lp) = false).
  { apply (strict_eq_old_object (length (mem s))); [|done].
    apply read_above; [done|]. rewrite Forall_forall in Harr. by apply Harr. }
  unfold as_regexp, as_function in Hm. rewrite (lookup_app_l_Some _ _ _ _ Hlp) in Hm.
  destruct (read (mem s ++ ext) row k); try done; by rewrite Hno in Hm.
Qed.

(** ** Descending order *)

Lemma sort_rows_sorted (opts : QueryOptions) (k : string) h pre :
  opt_sortBy opts = Some k -> k ≠ "" ->
  naturally_ordered (map (fun row => read h row k) pre) ->
  StronglySorted
    (fun a b => in_order (opt_sortOrder opts) (read h a k) (read h b k))
    (sort_rows h opts pre).
Proof.
  intros Hk Hne Hnat.
  set (key := fun row => read h row k).
  set (D := fun row : value => row ∈ pre).
  assert (HD : Forall D pre) by by apply Forall_forall.
  assert (Hpair : forall a b, D a -> D b ->
            (is_finite (key a) /\ is_finite (key b))
            \/ (is_string (key a) /\ is_string (key b))).
  { intros a b Da Db.
    destruct Hnat as [Hn|Hn]; [left|right]; rewrite Forall_forall in Hn;
      split; apply Hn; by apply (list_elem_of_fmap_2 key). }
  unfold sort_rows. rewrite Hk. apply String.eqb_neq in Hne. rewrite Hne.
  apply (array_sort_sorted _ _ D); [| | |done].
  - intros a b Da Db. apply compare_rows_in_order, Hpair; done.
  - intros a b Da Db. unfold in_order.
    destruct (opt_sortOrder opts) as [[]|]; apply val_le_total;
      destruct (Hpair a b Da Db) as [[? ?]|[? ?]]; auto.
  - intros a b c _ _ _. unfold in_order.
    destruct (opt_sortOrder opts) as [[]|]; eauto using val_le_trans.
Qed.

Lemma StronglySorted_snoc {A : Type} (R : A -> A -> Prop) (l : list A) (x : A) :
  StronglySorted R l -> Forall (fun y => R y x) l -> StronglySorted R (l ++ [x]).
Proof.
  induction 1 as [|y l Hs IH Hy]; simpl; [intros _; repeat constructor|].
  intros [Hyx Hl]%Forall_cons. constructor; [by apply IH|].
  apply Forall_app. split; [done|by constructor].
Qed.

Lemma StronglySorted_reverse {A : Type} (R : A -> A -> Prop) (l : list A) :
  StronglySorted R l -> StronglySorted (fun a b => R b a) (reverse l).
Proof.
  induction 1 as [|x l Hs IH Hx]; [rewrite reverse_nil; constructor|].
  rewrite reverse_cons. apply StronglySorted_snoc; [done|].
  apply Forall_forall. intros y Hy. rewrite elem_of_reverse in Hy.
  rewrite Forall_forall in Hx. by apply Hx.
Qed.

(** Among elements with pairwise distinct keys at most one has a given key,
    so the elements of one key are the same in every arrangement. *)
Lemma filter_key_short {A K : Type} `{EqDecision K} (key : A -> K) (v : K) (l : list A) :
  NoDup (map key l) -> (length (filter (fun a => key a = v) l) <= 1)%nat.
Proof.
  induction l as [|x l IH]; simpl; [intros _; lia|].
  intros [Hnin Hnd]%NoDup_cons. specialize (IH Hnd). rewrite filter_cons.
  destruct (decide (key x = v)) as [Hx|Hx]; [|done]. simpl.
  destruct (filter (fun a => key a = v) l) as [|y ys] eqn:Hf; [simpl; lia|].
  exfalso. apply Hnin.
  assert (Hy : y ∈ filter (fun a => key a = v) l) by (rewrite Hf; apply list_elem_of_here).
  apply list_elem_of_filter in Hy as [Hky Hy]. rewrite Hx, <- Hky.
  by apply (list_elem_of_fmap_2 key).
Qed.

Lemma filter_key_unique {A K : Type} `{EqDecision K} (key : A -> K) (v : K)
    (l pre : list A) :
  NoDup (map key pre) -> l ≡ₚ pre ->
  filter (fun a => key a = v) l = filter (fun a => key a = v) pre.
Proof.
  intros Hnd Hp. pose proof (filter_key_short key v pre Hnd) as Hlen.
  assert (Hf : filter (fun a => key a = v) l ≡ₚ filter (fun a => key a = v) pre)
    by by rewrite Hp.
  destruct (filter (fun a => key a = v) pre) as [|x [|y ys]]; simpl in Hlen; [| |lia].
  - by apply Permutation_nil_r in Hf.
  - by apply Permutation_singleton_r in Hf.
Qed.

(** X13: over rows whose [sortBy] values are pairwise distinct numbers, or
    pairwise distinct strings, ["desc"] returns the rows of ["asc"] in
    reverse; leaving [sortOrder] out is ["asc"].  (With equal values it
    does not: ties keep their order in both.) *)
Theorem desc_reverses_asc (s : state) (k : string) (f : option props) h1 arr :
  snapshot s = Ok (h1, arr) ->
  k ≠ "" ->
  let pre := filter_rows h1 (sorted_by k None f) arr in
  let key := fun row => read h1 row k in
  naturally_ordered (map key pre) ->
  NoDup (map key pre) ->
  exists r,
    snd (query s (sorted_by k (Some Asc) f)) = Ok r
    /\ snd (query s (sorted_by k None f)) = Ok r
    /\ snd (query s (sorted_by k (Some Desc) f)) = Ok (reverse r).
Proof.
  intros Hs Hne pre key Hnat Hnd.
  exists (sort_rows h1 (sorted_by k (Some Asc) f) pre).
  rewrite !(query_unfold _ _ _ _ Hs). unfold paginate. simpl. rewrite !slice_all.
  split; [done|]. split; [done|]. f_equal. symmetry.
  apply (sort_rows_unique (sorted_by k (Some Desc) f) k h1 pre); try done.
  - apply (StronglySorted_reverse
             (fun a b => in_order (Some Asc) (read h1 a k) (read h1 b k))).
    by apply (sort_rows_sorted (sorted_by k (Some Asc) f)).
  - intros v. apply (filter_key_unique key v); [done|].
    rewrite reverse_Permutation. apply sort_rows_perm.
Qed.

(** ** The copy and the original *)

(** X14: for a value that holds no object with a [toJSON] method of its
    own, [deepClone] leaves every object that exists as it is and returns a
    value made of new objects only; the value is the JSON tree that the
    original serialises to, and copying the copy gives that same tree again:
    whatever a copy loses, it loses the first time. *)
Theorem deepClone_copy (h h1 : heap) (v v1 : value) :
  plain_data h v ->
  deepClone h v = Ok (h1, v1) ->
  (exists ext, h1 = h ++ ext)
  /\ (forall l, reach h1 v1 l -> (length h <= l)%nat)
  /\ exists j,
      content h v = Ok (Some j)
      /\ represents h1 v1 j
      /\ exists h2 v2, deepClone h1 v1 = Ok (h2, v2) /\ represents h2 v2 j.
Proof.
  intros _ Hc. split; [by apply deepClone_extends in Hc|]. split.
  - intros l. apply reach_above.
    + by apply (deepClone_fresh _ _ _ _ _ (le_n _) (fresh_above_start _) Hc).
    + by apply (deepClone_fresh _ _ _ _ _ (le_n _) (fresh_above_start _) Hc).
  - rewrite deepClone_content in Hc.
    destruct (content h v) as [[j|]|x|]; try done. injection Hc as Hp.
    pose proof (parse_represents j h) as Hr. rewrite Hp in Hr. simpl in Hr.
    exists j. split; [done|]. split; [done|].
    destruct (deepClone_represents _ _ _ Hr) as (h2 & v2 & Hc2 & Hv2 & _).
    by exists h2, v2.
Qed.

(** X15: [insert] stores a shallow copy: the row in the table holds the
    objects of the caller's record themselves.  So when the caller
    overwrites one of its objects after the call, [get] returns the row as
    it reads then, with the new content of that object. *)
Theorem insert_is_shallow (s : state) (row : props) (e : entropy) (l0 : loc)
    (o' : object) (jps : list (string * json)) :
  (l0 < length (mem s))%nat ->
  let s1 := fst (insert s row e) in
  let h2 := <[l0 := o']> (mem s1) in
  represents_props h2 (assoc_set "id" (insert_id row e) row) jps ->
  mem s1 !! length (mem s) = Some (OPlain (assoc_set "id" (insert_id row e) row))
  /\ exists s2 v2,
      get {| mem := h2; rows := rows s1 |} (insert_id row e) = (s2, Ok v2)
      /\ represents (mem s2) v2 (JObj jps).
Proof.
  intros Hl0 s1 h2 Hrep.
  assert (Hs1 : exists ext,
             mem s1 = (mem s ++ [OPlain (assoc_set "id" (insert_id row e) row)]) ++ ext
             /\ rows s1 = assoc_set (insert_id row e) (length (mem s)) (rows s)).
  { subst s1. unfold insert. fold (insert_id row e).
    destruct (deepClone _ _) as [[h3 v]|x|] eqn:Hc; simpl.
    - apply deepClone_extends in Hc as [ext ->]. by exists ext.
    - exists []. by rewrite app_nil_r.
    - exists []. by rewrite app_nil_r. }
  destruct Hs1 as (ext & Hmem & Hrows).
  assert (Hrow : mem s1 !! length (mem s)
                 = Some (OPlain (assoc_set "id" (insert_id row e) row))).
  { rewrite Hmem, <- app_assoc. by apply list_lookup_middle. }
  split; [done|].
  destruct (get_representable {| mem := h2; rows := rows s1 |} (insert_id row e)
              (length (mem s)) (JObj jps)) as (h3 & v2 & Hget & Hv2).
  - simpl. rewrite Hrows. apply assoc_get_set_eq.
  - simpl. subst h2. rewrite list_lookup_insert_ne by lia. by rewrite Hrow.
  - by eexists _, _.
Qed.

(** ** What a new row serialises to *)

Lemma stringify_props_ext (rec1 rec2 : value -> result (option json)) ps :
  Forall (fun v => rec1 v = rec2 v) (map snd ps) ->
  stringify_props rec1 ps = stringify_props rec2 ps.
Proof.
  induction ps as [|[k v] ps IH]; simpl; [done|].
  intros [Hv Hps]%Forall_cons. by rewrite Hv, IH.
Qed.

Lemma stringify_elems_ext (rec1 rec2 : value -> result (option json)) vs :
  Forall (fun v => rec1 v = rec2 v) vs ->
  stringify_elems rec1 vs = stringify_elems rec2 vs.
Proof.
  induction vs as [|v vs IH]; simpl; [done|].
  intros [Hv Hvs]%Forall_cons. by rewrite Hv, IH.
Qed.

(** Objects outside a closed part of the heap are never met while a value
    of that part is serialised, so it makes no difference whether they are
    being serialised. *)
Lemma stringify_extra_stack m h :
  closed_below m h ->
  forall F stack extra v,
    val_below m v -> Forall (fun a => (m <= a)%nat) extra ->
    stringify F h (stack ++ extra) v = stringify F h stack v.
Proof.
  intros Hcl. induction F as [|f IH]; intros stack extra v Hv Hex;
    rewrite !stringify_eq; destruct v as [| | |[]| |l]; try done; simpl in Hv;
    destruct (h !! l) as [[ps|vs|[]| |]|] eqn:Hl; try done;
    (assert (Hiff : l ∈ stack ++ extra <-> l ∈ stack);
     [rewrite elem_of_app; split; [intros [?|Hin]; [done|]|by left];
      rewrite Forall_forall in Hex; specialize (Hex _ Hin); lia|]);
    destruct (decide (l ∈ stack ++ extra)) as [Hin|Hnin],
             (decide (l ∈ stack)) as [Hin'|Hnin']; try done;
    try (by apply Hiff in Hin); try (by apply Hiff in Hin').
  - rewrite (stringify_props_ext _ (stringify f h (l :: stack))); [done|].
    eapply Forall_impl; [exact (Hcl l _ Hv Hl)|]. intros v Hvm.
    by apply (IH (l :: stack)).
  - rewrite (stringify_elems_ext _ (stringify f h (l :: stack))); [done|].
    eapply Forall_impl; [exact (Hcl l _ Hv Hl)|]. intros v Hvm.
    by apply (IH (l :: stack)).
Qed.

(** A value of a closed part of the heap serialises in the same way inside
    an object that is outside this part as on its own. *)
Lemma field_content m h l v :
  closed_below m h -> (m <= l)%nat -> (l < length h)%nat -> val_below m v ->
  stringify (length h) h [l] v = content h v.
Proof.
  intros Hcl Hml Hl Hv. unfold content.
  rewrite (stringify_extra_stack m h Hcl _ [] [l] v Hv) by by repeat constructor.
  symmetry.
  apply (stringify_agree m h h Hcl (fun _ _ => eq_refl) (length h) _ [] v _ Hv eq_refl);
    [|lia].
  apply (stringify_not_stuck m); try done; [lia|constructor| |simpl; lia].
  intros a Ha. by apply elem_of_nil in Ha.
Qed.

Lemma content_fresh_object m h l ps :
  closed_below m h -> (m <= l)%nat -> h !! l = Some (OPlain ps) ->
  Forall (val_below m) (map snd ps) ->
  content h (VRef l)
  = let* jps := stringify_props (content h) ps in Ok (Some (JObj jps)).
Proof.
  intros Hcl Hml Hl Hps. unfold content at 1. rewrite stringify_eq, Hl.
  destruct (decide (l ∈ [])) as [Hin|_]; [by apply elem_of_nil in Hin|].
  rewrite (stringify_props_ext _ (content h)); [done|].
  eapply Forall_impl; [exact Hps|]. intros v Hv.
  apply (field_content m); try done. by apply lookup_lt_Some in Hl.
Qed.

Lemma content_fresh_array m h l vs :
  closed_below m h -> (m <= l)%nat -> h !! l = Some (OArray vs) ->
  Forall (val_below m) vs ->
  content h (VRef l)
  = let* js := stringify_elems (content h) vs in Ok (Some (JArr js)).
Proof.
  intros Hcl Hml Hl Hvs. unfold content at 1. rewrite stringify_eq, Hl.
  destruct (decide (l ∈ [])) as [Hin|_]; [by apply elem_of_nil in Hin|].
  rewrite (stringify_elems_ext _ (content h)); [done|].
  eapply Forall_impl; [exact Hvs|]. intros v Hv.
  apply (field_content m); try done. by apply lookup_lt_Some in Hl.
Qed.

Lemma content_date h l t :
  h !! l = Some (ODate (Fin t)) -> content h (VRef l) = Ok (Some (JStr (date_iso t))).
Proof. intros Hl. unfold content. by rewrite stringify_eq, Hl. Qed.

Lemma stringify_props_ok (rec : value -> result (option json)) ps :
  Forall (fun v => exists oj, rec v = Ok oj) (map snd ps) ->
  exists jps, stringify_props rec ps = Ok jps.
Proof.
  induction ps as [|[k v] ps IH]; simpl; [by exists []|].
  intros [[oj Hv] Hps]%Forall_cons. destruct (IH Hps) as [jps Hjps].
  rewrite Hv, Hjps. simpl. eauto.
Qed.

Lemma stringify_props_keys (rec : value -> result (option json)) ps jps k :
  stringify_props rec ps = Ok jps -> k ∈ keys jps -> k ∈ keys ps.
Proof.
  revert jps. induction ps as [|[k1 v] ps IH]; intros jps; simpl.
  - intros [= <-]. by intros ?%elem_of_nil.
  - destruct (rec v) as [oj|x|]; simpl; try done.
    destruct (stringify_props rec ps) as [js|x|]; simpl; try done.
    intros [= <-] Hin. destruct oj as [j|].
    + simpl in Hin. apply elem_of_cons in Hin as [->|Hin]; [apply list_elem_of_here|].
      apply list_elem_of_further. by apply (IH js).
    + apply list_elem_of_further. by apply (IH js).
Qed.

(** The members of the serialised object, key by key. *)
Lemma stringify_props_get (rec : value -> result (option json)) ps jps k :
  NoDup (keys ps) -> stringify_props rec ps = Ok jps ->
  assoc_get k jps
  = match assoc_get k ps with
    | Some v => match rec v with Ok oj => oj | _ => None end
    | None => None
    end.
Proof.
  revert jps. induction ps as [|[k1 v] ps IH]; intros jps; simpl.
  - by intros _ [= <-].
  - intros [Hnin Hnd]%NoDup_cons.
    destruct (rec v) as [oj|x|] eqn:Hv; simpl; try done.
    destruct (stringify_props rec ps) as [js|x|] eqn:Hps; simpl; try done.
    intros [= <-]. specialize (IH js Hnd eq_refl).
    destruct (decide (k = k1)) as [->|Hne].
    + rewrite Hv. destruct oj as [j|]; simpl.
      * by destruct (decide (k1 = k1)).
      * apply assoc_get_None. intros Hin. apply Hnin.
        by apply (stringify_props_keys rec ps js).
    + destruct oj as [j|]; simpl; [|done]. by destruct (decide (k = k1)).
Qed.

(** [insert] of any record whose fields serialise: the row is stored, and
    what is returned, and what the stored row serialises to from then on, is
    the serialised record. *)
Lemma insert_fresh_content s row e jps :
  closed_below (length (mem s)) (mem s) ->
  Forall (val_below (length (mem s))) (map snd row) ->
  stringify_props (content (mem s)) (assoc_set "id" (insert_id row e) row) = Ok jps ->
  exists ext v1,
    let h1 := mem s ++ [OPlain (assoc_set "id" (insert_id row e) row)] in
    insert s row e
    = ({| mem := h1 ++ ext; rows := assoc_set (insert_id row e) (length (mem s)) (rows s) |},
       Ok v1)
    /\ represents (h1 ++ ext) v1 (JObj jps)
    /\ content (h1 ++ ext) (VRef (length (mem s))) = Ok (Some (JObj jps))
    /\ closed_below (length (h1 ++ ext)) (h1 ++ ext).
Proof.
  intros Hcl Hrow Hjps. set (toInsert := assoc_set "id" (insert_id row e) row) in *.
  set (h1 := mem s ++ [OPlain toInsert]).
  assert (Hvals : Forall (val_below (length (mem s))) (map snd toInsert)).
  { apply assoc_set_values; [|done]. unfold insert_id.
    destruct (assoc_get "id" row) as [v|] eqn:Hid; [|done].
    apply assoc_get_value in Hid. rewrite Forall_forall in Hrow.
    specialize (Hrow _ Hid). by destruct v. }
  assert (Hcl1 : closed_below (length h1) h1).
  { subst h1. rewrite length_app. simpl. rewrite Nat.add_1_r.
    by apply closed_below_alloc. }
  assert (Hc1 : content h1 (VRef (length (mem s))) = Ok (Some (JObj jps))).
  { rewrite (content_fresh_object (length (mem s)) h1 _ toInsert).
    - rewrite (stringify_props_ext _ (content (mem s))); [by rewrite Hjps|].
      eapply Forall_impl; [exact Hvals|]. intros v Hv. by apply content_extends.
    - apply closed_below_extends; [lia|done].
    - lia.
    - by apply list_lookup_middle.
    - done. }
  unfold insert. fold (insert_id row e). fold toInsert. fold h1.
  rewrite deepClone_content, Hc1.
  pose proof (parse_represents (JObj jps) h1) as Hr.
  pose proof (parse_closed (JObj jps) h1 Hcl1) as [Hcl2 _].
  destruct (parse_extends (JObj jps) h1) as [ext Hext].
  destruct (parse h1 (JObj jps)) as [h2 v1]. simpl in Hr, Hext, Hcl2. subst h2.
  exists ext, v1. split; [done|]. split; [done|]. split; [|done].
  rewrite content_extends; [done|done|].
  subst h1. simpl. rewrite length_app. simpl. lia.
Qed.

(** X16: [insert] and [get] for a record that may have dates, [NaN] or
    [undefined] in it, but no [toJSON] method, neither its own nor in an
    object it holds: when the record with its identifier serialises,
    [insert] returns the serialised record and a following [get] of the
    identifier returns it again. *)
Theorem insert_get_serialised (s : state) (row : props) (e : entropy)
    (jps : list (string * json)) :
  wf_state s ->
  Forall (val_below (length (mem s))) (map snd row) ->
  as_function (mem s) (read_prop "toJSON" row) = None ->
  Forall (plain_data (mem s)) (map snd row) ->
  stringify_props (content (mem s)) (assoc_set "id" (insert_id row e) row) = Ok jps ->
  exists s1 v1 s2 v2,
    insert s row e = (s1, Ok v1)
    /\ represents (mem s1) v1 (JObj jps)
    /\ get s1 (insert_id row e) = (s2, Ok v2)
    /\ represents (mem s2) v2 (JObj jps).
Proof.
  intros [Hcl _] Hrow _ _ Hjps.
  destruct (insert_fresh_content s row e jps Hcl Hrow Hjps)
    as (ext & v1 & Hins & Hv1 & Hc & _).
  cbv zeta in Hins, Hv1, Hc. rewrite Hins.
  pose proof (parse_represents (JObj jps)
                ((mem s ++ [OPlain (assoc_set "id" (insert_id row e) row)]) ++ ext))
    as Hr.
  destruct (parse _ (JObj jps)) as [h3 v2] eqn:Hp.
  exists {| mem := (mem s ++ [OPlain (assoc_set "id" (insert_id row e) row)]) ++ ext;
            rows := assoc_set (insert_id row e) (length (mem s)) (rows s) |}, v1,
         {| mem := h3; rows := assoc_set (insert_id row e) (length (mem s)) (rows s) |},
         v2.
  split; [done|]. split; [done|]. split; [|done].
  unfold get. cbn [mem rows]. by rewrite assoc_get_set_eq, deepClone_content, Hc, Hp.
Qed.

Lemma content_string h x : content h (VString x) = Ok (Some (JStr x)).
Proof. done. Qed.

Lemma alloc_two_closed h o1 o2 :
  closed_below (length h) h ->
  Forall (val_below (length h)) (obj_values o1) ->
  Forall (val_below (S (length h))) (obj_values o2) ->
  closed_below (length (h ++ [o1; o2])) (h ++ [o1; o2]).
Proof.
  intros Hcl H1 H2. change (h ++ [o1; o2]) with (h ++ ([o1] ++ [o2])).
  rewrite app_assoc.
  assert (Hlen : length ((h ++ [o1]) ++ [o2]) = S (length (h ++ [o1])))
    by (rewrite !length_app; simpl; lia).
  rewrite Hlen. apply closed_below_alloc.
  - assert (Hlen1 : length (h ++ [o1]) = S (length h))
      by (rewrite length_app; simpl; lia).
    rewrite Hlen1. by apply closed_below_alloc.
  - rewrite length_app. simpl. by rewrite Nat.add_1_r.
Qed.

(** What [UserRepository.create] does to the state, and what the new row
    holds. *)
Lemma user_create_spec (s : state) (user : props) (e : entropy) (t : Z) :
  wf_state s ->
  Forall (val_below (length (mem s))) (map snd user) ->
  Forall (fun v => exists oj, content (mem s) v = Ok oj) (map snd user) ->
  let id := VString (makeId "user_" e) in
  let nowDate := VRef (length (mem s)) in
  let toCreate := assoc_set "updatedAt" nowDate
                    (assoc_set "createdAt" nowDate (assoc_set "id" id user)) in
  let h0 := mem s ++ [ODate (Fin t); OPlain toCreate] in
  let l := S (S (length (mem s))) in
  exists jps ext v1,
    stringify_props (content h0) toCreate = Ok jps
    /\ user_create s user e t
       = ({| mem := (h0 ++ [OPlain toCreate]) ++ ext; rows := assoc_set id l (rows s) |},
          Ok v1)
    /\ represents ((h0 ++ [OPlain toCreate]) ++ ext) v1 (JObj jps)
    /\ content ((h0 ++ [OPlain toCreate]) ++ ext) (VRef l) = Ok (Some (JObj jps))
    /\ closed_below (length ((h0 ++ [OPlain toCreate]) ++ ext))
         ((h0 ++ [OPlain toCreate]) ++ ext)
    /\ content h0 nowDate = Ok (Some (JStr (date_iso t)))
    /\ forall v, val_below (length (mem s)) v -> content h0 v = content (mem s) v.
Proof.
  intros [Hcl Hrows] Huser Hser id nowDate toCreate h0 l. unfold user_create.
  fold id. fold nowDate. fold toCreate. fold h0.
  assert (Hdate : h0 !! length (mem s) = Some (ODate (Fin t)))
    by (subst h0; by apply list_lookup_middle).
  assert (Hvals : Forall (val_below (S (length (mem s)))) (map snd toCreate)).
  { subst toCreate nowDate. repeat (apply assoc_set_values; [simpl; try done; lia|]).
    eapply Forall_impl; [exact Huser|]. intros v. apply val_below_mono. lia. }
  assert (Hcl0 : closed_below (length h0) h0) by by apply alloc_two_closed.
  assert (Hlen0 : length h0 = l)
    by (subst h0 l; rewrite length_app; simpl; lia).
  assert (Hold : forall v, val_below (length (mem s)) v ->
                           content h0 v = content (mem s) v).
  { intros v Hv. subst h0. by apply content_extends. }
  assert (Hnow : content h0 nowDate = Ok (Some (JStr (date_iso t))))
    by apply (content_date _ _ t Hdate).
  assert (Hid : assoc_get "id" toCreate = Some id).
  { subst toCreate. rewrite !assoc_get_set_ne by done. apply assoc_get_set_eq. }
  assert (Hiid : insert_id toCreate e = id) by (unfold insert_id; by rewrite Hid).
  assert (Hsame : assoc_set "id" (insert_id toCreate e) toCreate = toCreate)
    by (rewrite Hiid; by apply assoc_set_same).
  assert (Hok : Forall (fun v => exists oj, content h0 v = Ok oj) (map snd toCreate)).
  { subst toCreate.
    repeat (apply assoc_set_values; [by (eexists; first [apply Hnow|apply content_string])|]).
    rewrite Forall_forall in Huser, Hser. apply Forall_forall. intros v Hv.
    rewrite (Hold v (Huser v Hv)). by apply Hser. }
  destruct (stringify_props_ok _ _ Hok) as [jps Hjps].
  destruct (insert_fresh_content {| mem := h0; rows := rows s |} toCreate e jps)
    as (ext & v1 & Hins & Hv1 & Hc & Hcl2).
  { done. }
  { cbn [mem]. rewrite Hlen0. eapply Forall_impl; [exact Hvals|].
    intros v. apply val_below_mono. lia. }
  { cbn [mem]. by rewrite Hsame. }
  cbv zeta in Hins, Hv1, Hc, Hcl2. cbn [mem rows] in Hins, Hv1, Hc, Hcl2.
  rewrite Hsame, Hiid, Hlen0 in Hins. rewrite Hsame in Hv1, Hcl2.
  rewrite Hsame, Hlen0 in Hc.
  by exists jps, ext, v1.
Qed.


(** ** Registering users *)

Lemma strict_eq_string v x : strict_eq v (VString x) = true <-> v = VString x.
Proof.
  unfold strict_eq. destruct v as [| | |[]| |]; try by rewrite bool_decide_eq_true.
  all: split; intros; done.
Qed.

(** Whether a copy has the text [x] in the field [k] is whether the tree it
    was parsed from has. *)
Lemma copy_field_string h c j k x :
  represents h c j ->
  strict_eq (read h c k) (VString x) = true <-> json_field k j = Some (JStr x).
Proof.
  intros Hrep. rewrite strict_eq_string.
  destruct j as [| | | |js|jps]; simpl in Hrep; subst; try done.
  - destruct c as [| | | | |l]; try done. simpl.
    destruct (h !! l) as [[| | | |]|]; done.
  - destruct c as [| | | | |l]; try done. simpl.
    destruct (h !! l) as [[ps| | | |]|]; try done.
    pose proof (represents_props_get h ps jps k Hrep) as Hk. unfold read_prop.
    destruct (assoc_get k jps) as [j'|].
    + destruct Hk as (v & -> & Hv). split.
      * intros ->. by destruct j'; simpl in Hv; try done; injection Hv as ->.
      * intros [= ->]. simpl in Hv. by subst.
    + by rewrite Hk.
Qed.

Lemma find_copy s h1 x ls arr :
  Forall2 (fun l v => exists j, content (mem s) (VRef l) = Ok (Some j)
                                /\ represents h1 v j) ls arr ->
  to_boolean
    match List.filter (fun c => strict_eq (read h1 c "email") (VString x)) arr with
    | v :: _ => v
    | [] => VUndefined
    end = true
  <-> exists l, l ∈ ls /\ row_field s l "email" = Some (JStr x).
Proof.
  induction 1 as [|l c ls arr (j & Hc & Hr) _ IH]; simpl.
  - split; [done|]. by intros (l & Hl%elem_of_nil & _).
  - pose proof (copy_field_string h1 c j "email" x Hr) as Hcopy.
    destruct (strict_eq (read h1 c "email") (VString x)) eqn:Heq.
    + split.
      * intros _. exists l. split; [apply list_elem_of_here|].
        unfold row_field. rewrite Hc. by apply Hcopy.
      * intros _. destruct c as [| | | | |lc]; try done.
    + rewrite IH. split.
      * intros (l' & Hl' & Hf). exists l'. split; [by apply list_elem_of_further|done].
      * intros (l' & [->|Hl']%elem_of_cons & Hf); [|by exists l'].
        unfold row_field in Hf. rewrite Hc in Hf. apply Hcopy in Hf. done.
Qed.

Lemma snapshot_contents s :
  wf_state s ->
  match snapshot s with
  | Ok (h1, arr) =>
      Forall2 (fun l v => exists j, content (mem s) (VRef l) = Ok (Some j)
                                    /\ represents h1 v j) (map snd (rows s)) arr
  | Throw x => ~ rows_serialise s
  | Stuck => False
  end.
Proof.
  intros [Hcl Hrows].
  pose proof (clone_all_contents (mem s) (map snd (rows s)) Hcl) as Hall.
  rewrite Forall_fmap in Hall. specialize (Hall Hrows []). rewrite app_nil_r in Hall.
  fold (snapshot s) in Hall.
  destruct (snapshot s) as [[h1 arr]|x|]; [done| |done].
  intros Hser. apply Exists_exists in Hall as (l & Hin & Hbad).
  apply list_elem_of_fmap in Hin as (kl & -> & Hkl).
  unfold rows_serialise in Hser. rewrite Forall_forall in Hser.
  destruct (Hser _ Hkl) as [j Hj]. rewrite Hj in Hbad. by destruct Hbad as [|[]].
Qed.

Lemma email_taken_locs s x :
  email_taken s x
  <-> exists l, l ∈ map snd (rows s) /\ row_field s l "email" = Some (JStr x).
Proof.
  unfold email_taken. split.
  - intros (kl & Hkl & Hf). exists (snd kl). split; [|done].
    by apply (list_elem_of_fmap_2 snd).
  - intros (l & Hl & Hf). apply list_elem_of_fmap in Hl as (kl & -> & Hkl). by exists kl.
Qed.

(** [findByEmail], whenever the rows can be copied: a row when some row
    has the address, [undefined] when none has. *)
Lemma findByEmail_spec s x h1 arr :
  wf_state s -> snapshot s = Ok (h1, arr) ->
  exists found,
    findByEmail s x = ({| mem := h1; rows := rows s |}, Ok found)
    /\ (to_boolean found = true <-> email_taken s x).
Proof.
  intros Hwf Hs. pose proof (snapshot_contents s Hwf) as Hall. rewrite Hs in Hall.
  pose proof (query_plain_filter s "email" (VString x) h1 arr Hs I) as Hq.
  pose proof (query_unfold s (with_filter [("email", VString x)]) h1 arr Hs) as Hu.
  unfold findByEmail. unfold with_filter in *.
  destruct (query s _) as [s1 r]. simpl in Hq. subst r. injection Hu as -> _.
  eexists. split; [done|]. rewrite email_taken_locs. by apply find_copy.
Qed.

Lemma row_field_extends s ext l k :
  wf_state s -> (l < length (mem s))%nat ->
  row_field {| mem := mem s ++ ext; rows := rows s |} l k = row_field s l k.
Proof.
  intros [Hcl _] Hl. unfold row_field. cbn [mem]. by rewrite content_extends.
Qed.

Lemma wf_state_extends s h1 :
  wf_state s -> (exists ext, h1 = mem s ++ ext) -> closed_below (length h1) h1 ->
  wf_state {| mem := h1; rows := rows s |}.
Proof.
  intros [_ Hrows] [ext ->] Hcl. split; [done|]. cbn [mem rows].
  eapply Forall_impl; [exact Hrows|]. intros kl Hkl. simpl in *.
  rewrite length_app. lia.
Qed.

Lemma content_empty_array h l :
  h !! l = Some (OArray []) -> content h (VRef l) = Ok (Some (JArr [])).
Proof.
  intros Hl. unfold content. rewrite stringify_eq, Hl.
  destruct (decide (l ∈ [])) as [Hin|_]; [by apply elem_of_nil in Hin|done].
Qed.

(** The second half of [registerUser]: the argument of [create] is built,
    and [create] stores and returns the new user. *)
Lemma register_create_spec (s1 : state) (payload : RegisterPayload) (e : entropy)
    (t : Z) :
  wf_state s1 ->
  let user :=
    [("username", VString (username payload));
     ("email", VString (email payload));
     ("role", VString (role_text (default User (role payload))));
     ("addresses", VRef (length (mem s1)))] in
  let l := (length (mem s1) + 4)%nat in
  exists ext v1,
    user_create {| mem := mem s1 ++ [OArray []; OPlain user]; rows := rows s1 |}
      user e t
    = ({| mem := mem s1 ++ ext;
          rows := assoc_set (VString (makeId "user_" e)) l (rows s1) |}, Ok v1)
    /\ represents (mem s1 ++ ext) v1 (JObj (registered payload e t))
    /\ content (mem s1 ++ ext) (VRef l) = Ok (Some (JObj (registered payload e t)))
    /\ closed_below (length (mem s1 ++ ext)) (mem s1 ++ ext)
    /\ (l < length (mem s1 ++ ext))%nat.
Proof.
  intros Hwf user l. pose proof Hwf as [Hcl Hrows].
  set (s2 := {| mem := mem s1 ++ [OArray []; OPlain user]; rows := rows s1 |}).
  assert (Hlen2 : length (mem s2) = S (S (length (mem s1))))
    by (cbn [mem s2]; rewrite length_app; simpl; lia).
  assert (Hwf2 : wf_state s2).
  { apply (wf_state_extends s1); [done|by eexists|].
    apply alloc_two_closed; [done|done|].
    subst user. simpl. repeat constructor. }
  assert (Harr : content (mem s2) (VRef (length (mem s1))) = Ok (Some (JArr []))).
  { apply content_empty_array. cbn [mem s2]. by apply list_lookup_middle. }
  assert (Hbelow : Forall (val_below (length (mem s2))) (map snd user)).
  { rewrite Hlen2. subst user. simpl. repeat constructor. }
  assert (Hser : Forall (fun v => exists oj, content (mem s2) v = Ok oj) (map snd user)).
  { subst user. simpl. repeat constructor; eauto using content_string. }
  destruct (user_create_spec s2 user e t Hwf2 Hbelow Hser)
    as (jps & ext & v1 & Hjps & Hcreate & Hv1 & Hc & Hcl3 & Hnow & Hold).
  set (toCreate := assoc_set "updatedAt" (VRef (length (mem s2)))
                     (assoc_set "createdAt" (VRef (length (mem s2)))
                        (assoc_set "id" (VString (makeId "user_" e)) user))) in *.
  set (h0 := mem s2 ++ [ODate (Fin t); OPlain toCreate]) in *.
  assert (Hshape : toCreate
                   = user ++ [("id", VString (makeId "user_" e));
                              ("createdAt", VRef (length (mem s2)));
                              ("updatedAt", VRef (length (mem s2)))])
    by reflexivity.
  assert (Hexp : jps = registered payload e t).
  { rewrite Hshape in Hjps. subst user. cbn [stringify_props app] in Hjps.
    rewrite !content_string, Hnow in Hjps.
    rewrite (Hold (VRef (length (mem s1)))), Harr in Hjps
      by (unfold val_below; rewrite Hlen2; lia).
    simpl in Hjps. by injection Hjps as <-. }
  subst jps.
  exists ([OArray []; OPlain user] ++ [ODate (Fin t); OPlain toCreate]
            ++ [OPlain toCreate] ++ ext), v1.
  assert (Hheap : mem s1 ++ [OArray []; OPlain user] ++ [ODate (Fin t); OPlain toCreate]
                    ++ [OPlain toCreate] ++ ext
                  = (h0 ++ [OPlain toCreate]) ++ ext).
  { subst h0. cbn [mem s2]. by rewrite <- !app_assoc. }
  rewrite Hheap. subst l. rewrite Hlen2 in Hcreate, Hc.
  replace (length (mem s1) + 4)%nat with (S (S (S (S (length (mem s1)))))) by lia.
  split; [done|]. split; [done|]. split; [done|]. split; [done|].
  subst h0. rewrite !length_app, Hlen2. simpl. lia.
Qed.

Lemma snapshot_closed s h1 arr :
  wf_state s -> snapshot s = Ok (h1, arr) ->
  wf_state {| mem := h1; rows := rows s |} /\ exists ext, h1 = mem s ++ ext.
Proof.
  intros Hwf Hs. pose proof (clone_all_extends _ _ _ _ Hs) as Hext.
  split; [|done]. apply wf_state_extends; [done|done|].
  destruct Hwf as [Hcl _]. by apply (clone_all_closed _ _ _ _ Hcl Hs).
Qed.

(** X18: [registerUser] with an address that a stored user already has
    returns the failure ["Email already registered"] and leaves the entries
    of the table as they are. *)
Theorem register_duplicate_email (s : state) (payload : RegisterPayload)
    (e : entropy) (t : Z) :
  wf_state s -> rows_serialise s ->
  email_taken s (email payload) ->
  exists s1,
    registerUser s payload e t = (s1, Ok (Failed "Email already registered"))
    /\ rows s1 = rows s.
Proof.
  intros Hwf Hser Htaken. pose proof (snapshot_contents s Hwf) as Hall.
  destruct (snapshot s) as [[h1 arr]|x|] eqn:Hs; [|done|done].
  destruct (findByEmail_spec s (email payload) h1 arr Hwf Hs) as (found & Hfind & Hiff).
  unfold registerUser. rewrite Hfind. apply Hiff in Htaken. rewrite Htaken.
  by eexists.
Qed.

(** X19: [registerUser] with an address that no stored user has creates
    the user: it returns the record with the given name and address, the
    role given or ["user"], no addresses, the new identifier and both dates
    as the ISO text of the time of the call; the record is stored under the
    identifier, and the address is taken from then on. *)
Theorem register_new_email (s : state) (payload : RegisterPayload)
    (e : entropy) (t : Z) :
  wf_state s -> rows_serialise s ->
  ~ email_taken s (email payload) ->
  exists s1 v,
    registerUser s payload e t = (s1, Ok (Succeeded v))
    /\ represents (mem s1) v (JObj (registered payload e t))
    /\ get_content s1 (VString (makeId "user_" e))
       = Ok (Some (JObj (registered payload e t)))
    /\ email_taken s1 (email payload)
    /\ wf_state s1.
Proof.
  intros Hwf Hser Hfree. pose proof (snapshot_contents s Hwf) as Hall.
  destruct (snapshot s) as [[h1 arr]|x|] eqn:Hs; [|done|done].
  destruct (findByEmail_spec s (email payload) h1 arr Hwf Hs) as (found & Hfind & Hiff).
  destruct (snapshot_closed s h1 arr Hwf Hs) as [Hwf1 _].
  unfold registerUser. rewrite Hfind.
  destruct (to_boolean found) eqn:Hb; [by destruct Hfree; apply Hiff|].
  destruct (register_create_spec {| mem := h1; rows := rows s |} payload e t Hwf1)
    as (ext & v1 & Hcreate & Hv1 & Hc & Hcl & Hl).
  cbn [mem rows] in *. rewrite Hcreate.
  eexists _, v1. split; [done|]. split; [done|]. split; [|split].
  - rewrite get_content_row. cbn [mem rows]. by rewrite assoc_get_set_eq, Hc.
  - exists (VString (makeId "user_" e), (length h1 + 4)%nat). split.
    + apply assoc_get_elem. cbn [rows]. apply assoc_get_set_eq.
    + unfold row_field. cbn [mem snd]. by rewrite Hc.
  - split; [done|]. cbn [mem rows]. apply assoc_set_Forall; [done|].
    destruct Hwf1 as [_ Hrows1]. cbn [mem rows] in Hrows1.
    eapply Forall_impl; [exact Hrows1|]. intros kl Hkl. simpl in *.
    rewrite length_app. lia.
Qed.

Lemma emails_unique_extends s ext :
  wf_state s -> emails_unique s ->
  emails_unique {| mem := mem s ++ ext; rows := rows s |}.
Proof.
  intros Hwf Hu k1 l1 k2 l2 x H1 H2 F1 F2. cbn [rows] in *.
  pose proof Hwf as [_ Hrows]. rewrite Forall_forall in Hrows.
  rewrite row_field_extends in F1
    by (done || by apply (Hrows (k1, l1)), assoc_get_elem).
  rewrite row_field_extends in F2
    by (done || by apply (Hrows (k2, l2)), assoc_get_elem).
  by apply (Hu k1 l1 k2 l2 x).
Qed.

Lemma register_step s payload e t :
  wf_state s -> emails_unique s ->
  wf_state (fst (registerUser s payload e t))
  /\ emails_unique (fst (registerUser s payload e t)).
Proof.
  intros Hwf Hu. pose proof (snapshot_contents s Hwf) as Hall.
  destruct (snapshot s) as [[h1 arr]|x|] eqn:Hs; [| |done].
  - destruct (findByEmail_spec s (email payload) h1 arr Hwf Hs)
      as (found & Hfind & Hiff).
    destruct (snapshot_closed s h1 arr Hwf Hs) as [Hwf1 [ext1 ->]].
    unfold registerUser. rewrite Hfind.
    destruct (to_boolean found) eqn:Hb.
    { cbn [fst]. split; [done|]. by apply emails_unique_extends. }
    assert (Hfree : ~ email_taken s (email payload))
      by (intros Ht; apply Hiff in Ht; congruence).
    destruct (register_create_spec {| mem := mem s ++ ext1; rows := rows s |}
                payload e t Hwf1) as (ext & v1 & Hcreate & Hv1 & Hc & Hcl & Hl).
    cbn [mem rows] in *. rewrite Hcreate. cbn [fst].
    pose proof Hwf1 as [_ Hrows1]. cbn [mem rows] in Hrows1.
    split.
    + split; [done|]. cbn [mem rows]. apply assoc_set_Forall; [done|].
      eapply Forall_impl; [exact Hrows1|]. intros kl Hkl. simpl in *.
      rewrite length_app. lia.
    + set (id := VString (makeId "user_" e)) in *.
      set (l := (length (mem s ++ ext1) + 4)%nat) in *.
      assert (Hnew : forall k l', assoc_get k (assoc_set id l (rows s)) = Some l' ->
                (k = id /\ l' = l) \/ (k ≠ id /\ assoc_get k (rows s) = Some l')).
      { intros k l' Hk. destruct (decide (k = id)) as [->|Hne].
        - rewrite assoc_get_set_eq in Hk. left. split; [done|congruence].
        - rewrite assoc_get_set_ne in Hk by done. by right. }
      assert (Hfield_new : row_field {| mem := (mem s ++ ext1) ++ ext;
                                        rows := assoc_set id l (rows s) |} l "email"
                           = Some (JStr (email payload))).
      { unfold row_field. cbn [mem]. by rewrite Hc. }
      assert (Hfield_old : forall k l' x, assoc_get k (rows s) = Some l' ->
                row_field {| mem := (mem s ++ ext1) ++ ext;
                             rows := assoc_set id l (rows s) |} l' "email"
                = Some (JStr x) ->
                row_field s l' "email" = Some (JStr x)).
      { intros k l' x Hk Hf. rewrite <- Hf. symmetry.
        rewrite <- app_assoc. apply (row_field_extends s (ext1 ++ ext)); [done|].
        destruct Hwf as [_ Hrows]. rewrite Forall_forall in Hrows.
        by apply (Hrows (k, l')), assoc_get_elem. }
      assert (Hclash : forall k l' x, assoc_get k (rows s) = Some l' ->
                row_field s l' "email" = Some (JStr x) -> x ≠ email payload).
      { intros k l' x Hk Hf ->. apply Hfree. exists (k, l'). split; [|done].
        by apply assoc_get_elem. }
      intros k1 l1 k2 l2 x H1 H2 F1 F2. cbn [rows] in H1, H2.
      destruct (Hnew _ _ H1) as [[-> ->]|[Hk1 Hg1]],
               (Hnew _ _ H2) as [[-> ->]|[Hk2 Hg2]]; [done| | |].
      * rewrite Hfield_new in F1. injection F1 as <-.
        by destruct (Hclash _ _ _ Hg2 (Hfield_old _ _ _ Hg2 F2)).
      * rewrite Hfield_new in F2. injection F2 as <-.
        by destruct (Hclash _ _ _ Hg1 (Hfield_old _ _ _ Hg1 F1)).
      * apply (Hu k1 l1 k2 l2 x); eauto.
  - assert (Hsame : registerUser s payload e t = (s, Throw x)).
    { unfold registerUser, findByEmail, query. by rewrite Hs. }
    by rewrite Hsame.
Qed.

(** X20: through [registerUser] no two stored users get the same address:
    from a table where every address is held by one entry at most, any
    sequence of registrations, whatever their payloads, identifiers and
    times, leads to such a table again. *)
Theorem register_keeps_emails_unique (s : state) (calls : list registration) :
  wf_state s -> emails_unique s ->
  wf_state (register_all s calls) /\ emails_unique (register_all s calls).
Proof.
  revert s. induction calls as [|c calls IH]; intros s Hwf Hu; [done|].
  simpl. destruct (register_step s (reg_payload c) (reg_entropy c) (reg_time c) Hwf Hu)
    as [Hwf1 Hu1].
  by apply IH.
Qed.

(** ** Updating through a repository, and publishing *)

Lemma deepClone_plain_ref h l ps h' v :
  h !! l = Some (OPlain ps) -> deepClone h (VRef l) = Ok (h', v) ->
  exists l' jps,
    v = VRef l' /\ represents h' v (JObj jps)
    /\ stringify_props (stringify (length h) h [l]) ps = Ok jps.
Proof.
  intros Hl. unfold deepClone. rewrite stringify_eq, Hl.
  destruct (decide (l ∈ [])) as [Hin|_]; [by apply elem_of_nil in Hin|].
  destruct (stringify_props _ ps) as [jps|x|] eqn:Hp; cbn [bind]; try done.
  pose proof (parse_represents (JObj jps) h) as Hr.
  destruct (parse h (JObj jps)) as [h2 v2] eqn:Hparse. intros [= <- <-].
  cbn [fst snd] in Hr.
  simpl in Hparse. destruct (parse_props parse h jps) as [h1 ps'].
  injection Hparse as <- <-. by eexists _, jps.
Qed.

Lemma stringify_props_get_some (rec : value -> result (option json)) ps jps k v j :
  stringify_props rec ps = Ok jps -> assoc_get k ps = Some v ->
  rec v = Ok (Some j) -> assoc_get k jps = Some j.
Proof.
  revert jps. induction ps as [|[k1 v1] ps IH]; intros jps; simpl; [done|].
  destruct (rec v1) as [oj|x|] eqn:Hv1; simpl; try done.
  destruct (stringify_props rec ps) as [js|x|] eqn:Hps; simpl; try done.
  intros [= <-]. destruct (decide (k = k1)) as [->|Hne].
  - intros [= ->] Hv. rewrite Hv in Hv1. injection Hv1 as <-. simpl.
    by destruct (decide (k1 = k1)).
  - intros Hk Hv. specialize (IH js eq_refl Hk Hv).
    destruct oj as [j1|]; simpl; [|done]. by destruct (decide (k = k1)).
Qed.

Lemma get_found s id s1 p :
  get s id = (s1, Ok p) -> to_boolean p = true ->
  exists l0 ext, assoc_get id (rows s) = Some l0
                 /\ s1 = {| mem := mem s ++ ext; rows := rows s |}.
Proof.
  unfold get. destruct (assoc_get id (rows s)) as [l0|]; [|by intros [= <- <-]].
  destruct (deepClone (mem s) (VRef l0)) as [[h1 v]|x|] eqn:Hc; try done.
  intros [= <- <-] _. apply deepClone_extends in Hc as [ext ->]. by exists l0, ext.
Qed.

Lemma get_rows s id : rows (fst (get s id)) = rows s.
Proof.
  unfold get. destruct (assoc_get id (rows s)) as [l0|]; [|done].
  by destruct (deepClone (mem s) (VRef l0)) as [[h1 v]|x|].
Qed.

(** [update] of the table on an identifier that has a row, when it
    returns: the new row is the old one with the patch merged in, and the
    copy returned is an object. *)
Lemma update_result s id patch l0 s1 v :
  assoc_get id (rows s) = Some l0 ->
  update s id patch = (s1, Ok v) ->
  exists existing ext l' jps,
    let h1 := mem s ++ [OPlain (spread existing patch)] in
    mem s !! l0 = Some (OPlain existing)
    /\ s1 = {| mem := h1 ++ ext; rows := assoc_set id (length (mem s)) (rows s) |}
    /\ v = VRef l' /\ represents (h1 ++ ext) v (JObj jps)
    /\ stringify_props (stringify (length h1) h1 [length (mem s)])
         (spread existing patch) = Ok jps.
Proof.
  intros Hg. unfold update. rewrite Hg.
  destruct (mem s !! l0) as [[existing| | | |]|]; try done.
  destruct (deepClone _ _) as [[h2 v']|x|] eqn:Hc; try done.
  intros [= <- <-].
  destruct (deepClone_plain_ref _ _ (spread existing patch) _ _
              ltac:(by apply list_lookup_middle) Hc) as (l' & jps & -> & Hr & Hp).
  apply deepClone_extends in Hc as [ext ->].
  by exists existing, ext, l', jps.
Qed.

Lemma copy_read_bool h v jps k b :
  represents h v (JObj jps) -> assoc_get k jps = Some (JBool b) ->
  read h v k = VBool b.
Proof.
  intros Hr Hk. destruct v as [| | | | |l]; try done. simpl in *.
  destruct (h !! l) as [[ps| | | |]|]; try done.
  pose proof (represents_props_get h ps jps k Hr) as Hg. rewrite Hk in Hg.
  destruct Hg as (p & Hp & Hpb). simpl in Hpb. subst p. unfold read_prop. by rewrite Hp.
Qed.

Lemma copy_read_string h v jps k x :
  represents h v (JObj jps) -> assoc_get k jps = Some (JStr x) ->
  read h v k = VString x.
Proof.
  intros Hr Hk. destruct v as [| | | | |l]; try done. simpl in *.
  destruct (h !! l) as [[ps| | | |]|]; try done.
  pose proof (represents_props_get h ps jps k Hr) as Hg. rewrite Hk in Hg.
  destruct Hg as (p & Hp & Hpb). simpl in Hpb. subst p. unfold read_prop. by rewrite Hp.
Qed.

(** X21: [repository.update(id, patch)] writes to the caller's patch: the
    patch object holds a new [updatedAt] date after the call, also when the
    identifier has no row and [undefined] is returned, in which case the
    table is as before. *)
Theorem repo_update_stamps_patch (s : state) (id : value) (lp : loc) (patch : props)
    (t : Z) :
  mem s !! lp = Some (OPlain patch) ->
  let s1 := fst (repo_update s id lp t) in
  mem s1 !! lp = Some (OPlain (assoc_set "updatedAt" (VRef (length (mem s))) patch))
  /\ mem s1 !! length (mem s) = Some (ODate (Fin t))
  /\ (assoc_get id (rows s) = None ->
      snd (repo_update s id lp t) = Ok VUndefined /\ rows s1 = rows s).
Proof.
  intros Hlp s1. subst s1. unfold repo_update. rewrite Hlp.
  set (stamped := assoc_set "updatedAt" (VRef (length (mem s))) patch).
  set (s0 := {| mem := <[lp:=OPlain stamped]> (mem s) ++ [ODate (Fin t)];
                rows := rows s |}).
  destruct (step_mem_extends s0 (OpUpdate id stamped)) as [ext Hext].
  cbn [step] in Hext. rewrite Hext. cbn [mem s0].
  assert (Hlt : (lp < length (mem s))%nat) by by apply lookup_lt_Some in Hlp.
  split; [|split].
  - rewrite <- app_assoc, lookup_app_l by by rewrite length_insert.
    by apply list_lookup_insert_eq.
  - rewrite <- app_assoc. rewrite <- (length_insert (mem s) lp (OPlain stamped)).
    by apply list_lookup_middle.
  - intros Hnone. unfold update. cbn [rows s0]. by rewrite Hnone.
Qed.

(** X22: [publish] never answers ["Failed to publish"]: once [findById]
    has found the post, [update] finds it too.  When [publish] returns, it
    is either the failure ["Post not found"] with the entries of the table
    unchanged, or the updated post, in which [published] is [true] and
    [updatedAt] is the ISO text of the time of the call; the keys of the
    table are the same in both cases. *)
Theorem publish_outcome (s s1 : state) (postId : value) (t : Z) (r : Result) :
  publish s postId t = (s1, Ok r) ->
  (r = Failed "Post not found" /\ rows s1 = rows s)
  \/ exists v,
      r = Succeeded v
      /\ read (mem s1) v "published" = VBool true
      /\ read (mem s1) v "updatedAt" = VString (date_iso t)
      /\ keys (rows s1) = keys (rows s).
Proof.
  unfold publish, findById.
  destruct (get s postId) as [s0 [p|x|]] eqn:Hget; try done.
  destruct (to_boolean p) eqn:Hp.
  - destruct (get_found _ _ _ _ Hget Hp) as (l0 & ext0 & Hg & ->). cbn [mem rows].
    set (h0 := mem s ++ ext0).
    unfold repo_update. cbn [mem rows]. rewrite list_lookup_middle by done.
    set (ld := length (h0 ++ [OPlain [("published", VBool true)]])).
    change (assoc_set "updatedAt" (VRef ld) [("published", VBool true)])
      with [("published", VBool true); ("updatedAt", VRef ld)].
    set (stamped := [("published", VBool true); ("updatedAt", VRef ld)]).
    set (sp := {| mem := <[length h0:=OPlain stamped]>
                           (h0 ++ [OPlain [("published", VBool true)]])
                         ++ [ODate (Fin t)];
                  rows := rows s |}).
    destruct (update sp postId stamped) as [s2 [updated|x|]] eqn:Hup; try done.
    destruct (update_result sp postId stamped l0 s2 updated Hg Hup)
      as (existing & ext & l' & jps & Hl0 & -> & -> & Hr & Hjps).
    cbv zeta in Hr, Hjps. cbn [to_boolean]. intros [= <- <-]. right.
    exists (VRef l'). split; [done|]. cbn [mem rows].
    assert (Hdate : (mem sp ++ [OPlain (spread existing stamped)]) !! ld
                    = Some (ODate (Fin t))).
    { cbn [mem sp]. rewrite <- app_assoc.
      replace ld with (length (<[length h0:=OPlain stamped]>
                                 (h0 ++ [OPlain [("published", VBool true)]])))
        by by rewrite length_insert.
      by apply list_lookup_middle. }
    assert (Hpub : assoc_get "published" (spread existing stamped) = Some (VBool true)).
    { unfold spread, stamped. simpl. rewrite assoc_get_set_ne by done.
      apply assoc_get_set_eq. }
    assert (Hupd : assoc_get "updatedAt" (spread existing stamped) = Some (VRef ld)).
    { unfold spread, stamped. simpl. apply assoc_get_set_eq. }
    split; [|split].
    + apply (copy_read_bool _ _ jps); [done|].
      apply (stringify_props_get_some _ _ _ _ _ _ Hjps Hpub). by rewrite stringify_eq.
    + apply (copy_read_string _ _ jps); [done|].
      apply (stringify_props_get_some _ _ _ _ _ _ Hjps Hupd).
      by rewrite stringify_eq, Hdate.
    + apply keys_assoc_set_present, assoc_has_true. unfold assoc_has. cbn [rows sp].
      by rewrite Hg.
  - intros [= <- <-]. left. split; [done|].
    pose proof (get_rows s postId) as Hrows. by rewrite Hget in Hrows.
Qed.

(** ** Rows that serialise *)

Lemma stringify_props_ok_mono (rec1 rec2 : value -> result (option json)) ps jps :
  Forall (fun v => forall oj, rec1 v = Ok oj -> rec2 v = Ok oj) (map snd ps) ->
  stringify_props rec1 ps = Ok jps -> stringify_props rec2 ps = Ok jps.
Proof.
  revert jps. induction ps as [|[k v] ps IH]; intros jps; simpl; [done|].
  intros [Hv Hps]%Forall_cons.
  destruct (rec1 v) as [oj|x|] eqn:H1; simpl; try done.
  destruct (stringify_props rec1 ps) as [js|x|] eqn:H2; simpl; try done.
  intros [= <-]. by rewrite (Hv oj eq_refl), (IH js Hps eq_refl).
Qed.

Lemma stringify_elems_ok_mono (rec1 rec2 : value -> result (option json)) vs js :
  Forall (fun v => forall oj, rec1 v = Ok oj -> rec2 v = Ok oj) vs ->
  stringify_elems rec1 vs = Ok js -> stringify_elems rec2 vs = Ok js.
Proof.
  revert js. induction vs as [|v vs IH]; intros js; simpl; [done|].
  intros [Hv Hvs]%Forall_cons.
  destruct (rec1 v) as [oj|x|] eqn:H1; simpl; try done.
  destruct (stringify_elems rec1 vs) as [js'|x|] eqn:H2; simpl; try done.
  intros [= <-]. by rewrite (Hv oj eq_refl), (IH js' Hvs eq_refl).
Qed.

(** A value that serialises inside some objects serialises in the same way
    inside fewer of them. *)
Lemma stringify_less_stack h :
  forall F stack stack' v oj,
    stringify F h stack v = Ok oj -> stack' ⊆ stack ->
    stringify F h stack' v = Ok oj.
Proof.
  induction F as [|f IH]; intros stack stack' v oj; rewrite !stringify_eq;
    destruct v as [| | |[]| |l]; try done;
    destruct (h !! l) as [[ps|vs|[]| |]|] eqn:Hl; try done;
    destruct (decide (l ∈ stack)) as [Hin|Hnin]; try done;
    intros Hs Hsub;
    (destruct (decide (l ∈ stack')) as [Hin'|_]; [by destruct Hnin; apply Hsub|]);
    try done.
  - destruct (stringify_props _ ps) as [jps|x|] eqn:Hp; simpl in Hs; try done.
    rewrite (stringify_props_ok_mono (stringify f h (l :: stack))
               (stringify f h (l :: stack')) ps jps); [done| |done].
    apply Forall_forall. intros v _ oj' Hv. apply (IH (l :: stack)); [done|].
    intros a [->|Ha]%elem_of_cons; [apply list_elem_of_here|].
    by apply list_elem_of_further, Hsub.
  - destruct (stringify_elems _ vs) as [js|x|] eqn:Hp; simpl in Hs; try done.
    rewrite (stringify_elems_ok_mono (stringify f h (l :: stack))
               (stringify f h (l :: stack')) vs js); [done| |done].
    apply Forall_forall. intros v _ oj' Hv. apply (IH (l :: stack)); [done|].
    intros a [->|Ha]%elem_of_cons; [apply list_elem_of_here|].
    by apply list_elem_of_further, Hsub.
Qed.

(** A row that serialises is the object of its serialised fields. *)
Lemma fields_serialise h l ps j :
  closed_below (length h) h -> h !! l = Some (OPlain ps) ->
  content h (VRef l) = Ok (Some j) ->
  exists jps, j = JObj jps /\ stringify_props (content h) ps = Ok jps.
Proof.
  intros Hcl Hl. unfold content at 1. rewrite stringify_eq, Hl.
  destruct (decide (l ∈ [])) as [Hin|_]; [by apply elem_of_nil in Hin|].
  destruct (stringify_props _ ps) as [jps|x|] eqn:Hp; cbn [bind]; try done.
  intros [= <-]. exists jps. split; [done|].
  apply (stringify_props_ok_mono (stringify (length h) h [l])); [|done].
  assert (Hlt : (l < length h)%nat) by by apply lookup_lt_Some in Hl.
  eapply Forall_impl; [exact (Hcl l _ Hlt Hl)|]. intros v Hv oj Hoj.
  unfold content.
  apply (stringify_agree (length h) h h Hcl (fun _ _ => eq_refl) (length h) _ [] v
           _ Hv); [|done|lia].
  apply (stringify_less_stack h _ [l]); [done|]. by intros a Ha%elem_of_nil.
Qed.

Lemma closed_below_app h ext :
  closed_below (length h) h ->
  Forall (fun o => Forall (val_below (length (h ++ ext))) (obj_values o)) ext ->
  closed_below (length (h ++ ext)) (h ++ ext).
Proof.
  intros Hcl Hext l o Hl Hlook.
  destruct (decide (l < length h)%nat) as [Hlt|Hge].
  - rewrite lookup_app_l in Hlook by done.
    eapply Forall_impl; [by eapply Hcl|]. intros v. apply val_below_mono.
    rewrite length_app. lia.
  - rewrite lookup_app_r in Hlook by lia.
    rewrite Forall_forall in Hext. apply Hext. by eapply list_elem_of_lookup_2.
Qed.

(** [update] of a row that serialises, with a patch whose fields
    serialise: the merged row is stored, and what is returned, and what the
    stored row serialises to from then on, is the serialised merged row. *)
Lemma update_fresh_content s id l0 existing patch jps :
  closed_below (length (mem s)) (mem s) ->
  assoc_get id (rows s) = Some l0 ->
  mem s !! l0 = Some (OPlain existing) ->
  Forall (val_below (length (mem s))) (map snd patch) ->
  stringify_props (content (mem s)) (spread existing patch) = Ok jps ->
  exists ext v1,
    let h1 := mem s ++ [OPlain (spread existing patch)] in
    update s id patch
    = ({| mem := h1 ++ ext; rows := assoc_set id (length (mem s)) (rows s) |}, Ok v1)
    /\ represents (h1 ++ ext) v1 (JObj jps)
    /\ content (h1 ++ ext) (VRef (length (mem s))) = Ok (Some (JObj jps))
    /\ closed_below (length (h1 ++ ext)) (h1 ++ ext).
Proof.
  intros Hcl Hg Hl0 Hpatch Hjps. set (updated := spread existing patch) in *.
  set (h1 := mem s ++ [OPlain updated]).
  assert (Hvals : Forall (val_below (length (mem s))) (map snd updated)).
  { apply spread_values; [|done].
    apply (Hcl l0 (OPlain existing)); [by apply lookup_lt_Some in Hl0|done]. }
  assert (Hcl1 : closed_below (length h1) h1).
  { subst h1. rewrite length_app. simpl. rewrite Nat.add_1_r.
    by apply closed_below_alloc. }
  assert (Hc1 : content h1 (VRef (length (mem s))) = Ok (Some (JObj jps))).
  { rewrite (content_fresh_object (length (mem s)) h1 _ updated).
    - rewrite (stringify_props_ext _ (content (mem s))); [by rewrite Hjps|].
      eapply Forall_impl; [exact Hvals|]. intros v Hv. by apply content_extends.
    - apply closed_below_extends; [lia|done].
    - lia.
    - by apply list_lookup_middle.
    - done. }
  unfold update. rewrite Hg, Hl0. fold updated. fold h1.
  rewrite deepClone_content, Hc1.
  pose proof (parse_represents (JObj jps) h1) as Hr.
  pose proof (parse_closed (JObj jps) h1 Hcl1) as [Hcl2 _].
  destruct (parse_extends (JObj jps) h1) as [ext Hext].
  destruct (parse h1 (JObj jps)) as [h2 v1]. simpl in Hr, Hext, Hcl2. subst h2.
  exists ext, v1. split; [done|]. split; [done|]. split; [|done].
  rewrite content_extends; [done|done|].
  subst h1. simpl. rewrite length_app. simpl. lia.
Qed.

Lemma stringify_props_ok_inv (rec : value -> result (option json)) ps jps :
  stringify_props rec ps = Ok jps ->
  Forall (fun v => exists oj, rec v = Ok oj) (map snd ps).
Proof.
  revert jps. induction ps as [|[k v] ps IH]; intros jps; simpl; [by constructor|].
  destruct (rec v) as [oj|x|] eqn:H1; simpl; try done.
  destruct (stringify_props rec ps) as [js|x|] eqn:H2; simpl; try done.
  intros _. constructor; [by exists oj|by apply (IH js)].
Qed.

Lemma insert_last {A : Type} (l : list A) (x y : A) :
  <[length l := y]> (l ++ [x]) = l ++ [y].
Proof. induction l as [|a l IH]; simpl; [done|]. by rewrite IH. Qed.

Lemma spread_NoDup (base extra : props) :
  NoDup (keys base) -> NoDup (keys (spread base extra)).
Proof.
  unfold spread. revert base. induction extra as [|[k v] extra IH]; intros base Hnd;
    simpl; [done|].
  by apply IH, assoc_set_NoDup.
Qed.

(** X23: [publish] of a post that is in the table and serialises returns
    the post with [published] set to [true] and [updatedAt] set to the ISO
    text of the time of the call, every other member as it was; the post is
    stored like this, as [findById] shows. *)
Theorem publish_succeeds (s : state) (postId : value) (t : Z) (l0 : loc)
    (existing : props) (jps0 : list (string * json)) :
  wf_state s ->
  assoc_get postId (rows s) = Some l0 ->
  mem s !! l0 = Some (OPlain existing) ->
  NoDup (keys existing) ->
  content (mem s) (VRef l0) = Ok (Some (JObj jps0)) ->
  exists s1 v jps,
    publish s postId t = (s1, Ok (Succeeded v))
    /\ represents (mem s1) v (JObj jps)
    /\ get_content s1 postId = Ok (Some (JObj jps))
    /\ assoc_get "published" jps = Some (JBool true)
    /\ assoc_get "updatedAt" jps = Some (JStr (date_iso t))
    /\ forall k, k ∉ ["published"; "updatedAt"] -> assoc_get k jps = assoc_get k jps0.
Proof.
  intros [Hcl Hrows] Hg Hl0 Hnd Hc.
  assert (Hlt0 : (l0 < length (mem s))%nat) by by apply lookup_lt_Some in Hl0.
  destruct (fields_serialise _ _ _ _ Hcl Hl0 Hc) as (jps0' & [= <-] & Hf).
  unfold publish, findById, get. rewrite Hg, deepClone_content, Hc.
  pose proof (parse_closed (JObj jps0) (mem s) Hcl) as [Hcl0 _].
  destruct (parse_extends (JObj jps0) (mem s)) as [ext0 Hext0].
  pose proof (parse_represents (JObj jps0) (mem s)) as Hp.
  destruct (parse (mem s) (JObj jps0)) as [h0 p]. cbn [fst snd] in *. subst h0.
  assert (Htrue : to_boolean p = true) by by destruct p.
  rewrite Htrue. unfold repo_update. cbn [mem rows].
  rewrite list_lookup_middle by done. rewrite insert_last.
  set (h0 := mem s ++ ext0) in *.
  set (ld := length (h0 ++ [OPlain [("published", VBool true)]])).
  assert (Hld : ld = S (length h0)) by (subst ld; rewrite length_app; simpl; lia).
  change (assoc_set "updatedAt" (VRef ld) [("published", VBool true)])
    with [("published", VBool true); ("updatedAt", VRef ld)].
  set (stamped := [("published", VBool true); ("updatedAt", VRef ld)]).
  rewrite <- app_assoc. cbn [app].
  set (hp := h0 ++ [OPlain stamped; ODate (Fin t)]).
  assert (Hlenp : length hp = S (S (length h0)))
    by (subst hp; rewrite length_app; simpl; lia).
  assert (Hclp : closed_below (length hp) hp).
  { apply closed_below_app; [done|]. fold hp. rewrite Hlenp.
    repeat (first [apply Forall_nil_2|apply Forall_cons_2]); simpl; try done.
    rewrite Hld. lia. }
  assert (Hdate : content hp (VRef ld) = Ok (Some (JStr (date_iso t)))).
  { apply content_date. subst hp. rewrite Hld.
    change (h0 ++ [OPlain stamped; ODate (Fin t)])
      with (h0 ++ ([OPlain stamped] ++ [ODate (Fin t)])).
    rewrite app_assoc.
    replace (S (length h0)) with (length (h0 ++ [OPlain stamped]))
      by (rewrite length_app; simpl; lia).
    by apply list_lookup_middle. }
  assert (Hold : forall v, val_below (length (mem s)) v -> content hp v = content (mem s) v).
  { intros v Hv. subst hp h0. rewrite <- app_assoc. by apply content_extends. }
  assert (Hexv : Forall (val_below (length (mem s))) (map snd existing))
    by apply (Hcl l0 (OPlain existing) Hlt0 Hl0).
  assert (Hok : Forall (fun v => exists oj, content hp v = Ok oj)
                  (map snd (spread existing stamped))).
  { apply spread_values.
    - pose proof (stringify_props_ok_inv _ _ _ Hf) as Hall.
      rewrite Forall_forall in Hall, Hexv. apply Forall_forall. intros v Hv.
      rewrite (Hold v (Hexv v Hv)). by apply Hall.
    - subst stamped. simpl. repeat constructor; [by eexists|by eexists]. }
  destruct (stringify_props_ok _ _ Hok) as [jps Hjps].
  destruct (update_fresh_content {| mem := hp; rows := rows s |} postId l0 existing
              stamped jps) as (ext & v1 & Hup & Hv1 & Hcv & _).
  { done. }
  { done. }
  { cbn [mem]. subst hp h0. rewrite <- app_assoc. by apply lookup_app_l_Some. }
  { cbn [mem]. rewrite Hlenp. subst stamped. simpl.
    repeat (first [apply Forall_nil_2|apply Forall_cons_2]); simpl; try done.
    rewrite Hld. lia. }
  { done. }
  cbv zeta in Hup, Hv1, Hcv. cbn [mem rows] in Hup, Hv1, Hcv. rewrite Hup.
  assert (Hv1true : to_boolean v1 = true) by by destruct v1.
  rewrite Hv1true.
  assert (HndU : NoDup (keys (spread existing stamped))) by by apply spread_NoDup.
  pose proof (fun k => stringify_props_get _ _ _ k HndU Hjps) as Hget.
  pose proof (fun k => stringify_props_get _ _ _ k Hnd Hf) as Hget0.
  assert (Hshape : spread existing stamped
                   = assoc_set "updatedAt" (VRef ld)
                       (assoc_set "published" (VBool true) existing)) by done.
  eexists _, v1, jps. split; [done|]. split; [done|]. split; [|split; [|split]].
  - rewrite get_content_row. cbn [mem rows]. by rewrite assoc_get_set_eq, Hcv.
  - rewrite Hget, Hshape. rewrite assoc_get_set_ne by done.
    by rewrite assoc_get_set_eq.
  - by rewrite Hget, Hshape, assoc_get_set_eq, Hdate.
  - intros k Hk. rewrite Hget, Hget0, Hshape.
    rewrite !assoc_get_set_ne; [|intros ->; apply Hk..].
    + destruct (assoc_get k existing) as [v|] eqn:Hkv; [|done].
      rewrite Hold; [done|]. rewrite Forall_forall in Hexv.
      by apply Hexv, assoc_get_value with k.
    + apply list_elem_of_here.
    + apply list_elem_of_further, list_elem_of_here.
Qed.

(** ** Objects that do not hold themselves *)

Lemma reach_trans_step h l o v a :
  h !! l = Some o -> v ∈ obj_values o -> reach h v a -> reach h (VRef l) a.
Proof. intros. by eapply reach_step. Qed.

(** Objects that a value does not reach are never met while it is
    serialised. *)
Lemma stringify_unreached_stack h :
  forall F stack extra v,
    Forall (fun a => ~ reach h v a) extra ->
    stringify F h (stack ++ extra) v = stringify F h stack v.
Proof.
  induction F as [|f IH]; intros stack extra v Hex;
    rewrite !stringify_eq; destruct v as [| | |[]| |l]; try done;
    destruct (h !! l) as [[ps|vs|[]| |]|] eqn:Hl; try done;
    (assert (Hiff : l ∈ stack ++ extra <-> l ∈ stack);
     [rewrite elem_of_app; split; [intros [?|Hin]; [done|]|by left];
      rewrite Forall_forall in Hex; destruct (Hex _ Hin); apply reach_here|]);
    destruct (decide (l ∈ stack ++ extra)) as [Hin|Hnin],
             (decide (l ∈ stack)) as [Hin'|Hnin']; try done;
    try (by apply Hiff in Hin); try (by apply Hiff in Hin').
  - rewrite (stringify_props_ext _ (stringify f h (l :: stack))); [done|].
    apply Forall_forall. intros v Hv. apply (IH (l :: stack)).
    eapply Forall_impl; [exact Hex|]. intros a Ha Hr. apply Ha.
    by apply (reach_step h l (OPlain ps) v).
  - rewrite (stringify_elems_ext _ (stringify f h (l :: stack))); [done|].
    apply Forall_forall. intros v Hv. apply (IH (l :: stack)).
    eapply Forall_impl; [exact Hex|]. intros a Ha Hr. apply Ha.
    by apply (reach_step h l (OArray vs) v).
Qed.

(** A value that does not reach the object [l] serialises in the same way
    inside [l] as on its own. *)
Lemma member_content h l v :
  closed_below (length h) h -> (l < length h)%nat -> val_below (length h) v ->
  ~ reach h v l ->
  stringify (length h) h [l] v = content h v.
Proof.
  intros Hcl Hl Hv Hnr. unfold content.
  assert (Hns : stringify (length h) h [l] v ≠ Stuck).
  { apply (stringify_not_stuck (length h)); try done.
    - apply NoDup_singleton.
    - by intros a ->%list_elem_of_singleton.
    - simpl. lia. }
  assert (Heq : stringify (length h) h [l] v = stringify (length h) h [] v).
  { apply (stringify_unreached_stack h _ [] [l] v). by repeat constructor. }
  rewrite Heq in Hns |- *. symmetry.
  by apply (stringify_agree (length h) h h Hcl (fun _ _ => eq_refl) (length h) _ [] v
              _ Hv eq_refl); [|lia].
Qed.

Lemma content_object h l ps :
  closed_below (length h) h -> h !! l = Some (OPlain ps) ->
  Forall (fun v => ~ reach h v l) (map snd ps) ->
  content h (VRef l)
  = let* jps := stringify_props (content h) ps in Ok (Some (JObj jps)).
Proof.
  intros Hcl Hl Hps. unfold content at 1. rewrite stringify_eq, Hl.
  destruct (decide (l ∈ [])) as [Hin|_]; [by apply elem_of_nil in Hin|].
  assert (Hlt : (l < length h)%nat) by by apply lookup_lt_Some in Hl.
  rewrite (stringify_props_ext _ (content h)); [done|].
  pose proof (Hcl l _ Hlt Hl) as Hbelow. simpl in Hbelow.
  rewrite Forall_forall in Hps, Hbelow. apply Forall_forall. intros v Hv.
  apply member_content; auto.
Qed.

Lemma content_array h l vs :
  closed_below (length h) h -> h !! l = Some (OArray vs) ->
  Forall (fun v => ~ reach h v l) vs ->
  content h (VRef l)
  = let* js := stringify_elems (content h) vs in Ok (Some (JArr js)).
Proof.
  intros Hcl Hl Hvs. unfold content at 1. rewrite stringify_eq, Hl.
  destruct (decide (l ∈ [])) as [Hin|_]; [by apply elem_of_nil in Hin|].
  assert (Hlt : (l < length h)%nat) by by apply lookup_lt_Some in Hl.
  rewrite (stringify_elems_ext _ (content h)); [done|].
  pose proof (Hcl l _ Hlt Hl) as Hbelow. simpl in Hbelow.
  rewrite Forall_forall in Hvs, Hbelow. apply Forall_forall. intros v Hv.
  apply member_content; auto.
Qed.

(** What a JSON tree reaches are its subtrees. *)
Lemma represents_reach h v a :
  reach h v a ->
  forall j, represents h v j ->
  exists j', represents h (VRef a) j' /\ (depth j' <= depth j)%nat.
Proof.
  induction 1 as [l|l o v l' Hl Hin Hr IH]; intros j Hj; [by exists j|].
  destruct j as [| | | |js|jps]; simpl in Hj; try done; rewrite Hl in Hj;
    destruct o as [ps|vs| | |]; try done; simpl in Hin.
  - apply all2_Forall2 in Hj.
    apply list_elem_of_lookup in Hin as [i Hi].
    destruct (Forall2_lookup_l _ _ _ _ _ Hj Hi) as (jv & Hjv & Hv).
    destruct (IH jv Hv) as (j' & Hj' & Hd). exists j'. split; [done|].
    simpl. etrans; [exact Hd|]. apply Nat.le_le_succ_r, list_max_elem.
    apply list_elem_of_fmap. exists jv. split; [done|].
    by apply list_elem_of_lookup_2 with i.
  - apply all2_Forall2 in Hj.
    apply list_elem_of_fmap in Hin as (kv & -> & Hkv).
    apply list_elem_of_lookup in Hkv as [i Hi].
    destruct (Forall2_lookup_l _ _ _ _ _ Hj Hi) as (kj & Hkj & _ & Hv).
    destruct (IH (snd kj) Hv) as (j' & Hj' & Hd). exists j'. split; [done|].
    simpl. etrans; [exact Hd|]. apply Nat.le_le_succ_r, list_max_elem.
    apply list_elem_of_fmap. exists kj. split; [done|].
    by apply list_elem_of_lookup_2 with i.
Qed.

(** A heap that has the objects a value reaches as they were has nothing
    more to reach from it, and the value is the same tree in it. *)
Lemma reach_agree h h' v b :
  (forall a, reach h v a -> h' !! a = h !! a) -> reach h' v b -> reach h v b.
Proof.
  intros Hag Hr. induction Hr as [l|l o v l' Hl Hin Hr IH]; [apply reach_here|].
  rewrite (Hag l (reach_here h l)) in Hl. eapply reach_step; [done|done|].
  apply IH. intros a Ha. apply Hag. by eapply reach_step.
Qed.

Lemma represents_agree h h' j :
  forall v,
    (forall a, reach h v a -> h' !! a = h !! a) ->
    represents h v j -> represents h' v j.
Proof.
  induction j as [ | b | z | str | js IH | jps IH] using json_ind2;
    intros v Hag; simpl; try done.
  - destruct v as [| | | | |l]; try done.
    rewrite (Hag l (reach_here h l)).
    destruct (h !! l) as [[ps|vs| | |]|] eqn:Hl; try done.
    rewrite !all2_Forall2, !Forall2_same_length_lookup. intros [Hlen Hall].
    split; [done|]. intros i x y Hx Hy.
    rewrite Forall_forall in IH. apply IH; [by eapply list_elem_of_lookup_2| |by eapply Hall].
    intros a Ha. apply Hag. eapply reach_step; [done| |done].
    simpl. by eapply list_elem_of_lookup_2.
  - destruct v as [| | | | |l]; try done.
    rewrite (Hag l (reach_here h l)).
    destruct (h !! l) as [[ps|vs| | |]|] eqn:Hl; try done.
    rewrite !all2_Forall2, !Forall2_same_length_lookup. intros [Hlen Hall].
    split; [done|]. intros i x y Hx Hy. destruct (Hall i x y Hx Hy) as [Hk Hv].
    split; [done|].
    rewrite Forall_forall in IH. apply (IH y); [by eapply list_elem_of_lookup_2| |done].
    intros a Ha. apply Hag. eapply reach_step; [done| |done].
    simpl. apply (list_elem_of_fmap_2 snd). by eapply list_elem_of_lookup_2.
Qed.

Lemma closed_below_insert h l o :
  closed_below (length h) h -> Forall (val_below (length h)) (obj_values o) ->
  closed_below (length (<[l:=o]> h)) (<[l:=o]> h).
Proof.
  intros Hcl Ho l' o' Hl' Hlook. rewrite length_insert in *.
  destruct (decide (l = l')) as [->|Hne].
  - rewrite list_lookup_insert_eq in Hlook by done. by injection Hlook as <-.
  - rewrite list_lookup_insert_ne in Hlook by done. by eapply Hcl.
Qed.

(** ** Adding an address *)

(** X24: [addAddress] hands out the address object that the stored row
    holds: the object it returns is an element of the array that is the
    [addresses] of the row stored under the user's identifier.  No copy is
    made on this path, so the caller holds a part of the table. *)
Theorem addAddress_shares_address (s s1 : state) (userId : value) (addr : props)
    (e : entropy) (t1 t2 : Z) (a : value) :
  addAddress s userId addr e t1 t2 = (s1, Ok (Succeeded a)) ->
  exists l arr elems la address,
    a = VRef la
    /\ mem s1 !! la = Some (OPlain address)
    /\ assoc_get "id" address = Some (VString (makeId "addr_" e))
    /\ assoc_get userId (rows s1) = Some l
    /\ read (mem s1) (VRef l) "addresses" = VRef arr
    /\ mem s1 !! arr = Some (OArray (elems ++ [VRef la]))
    /\ reach (mem s1) (VRef l) la.
Proof.
  unfold addAddress, findById.
  destruct (get s userId) as [s0 [user|x|]] eqn:Hget; try done.
  destruct (to_boolean user) eqn:Hu; [|done].
  destruct (get_found _ _ _ _ Hget Hu) as (l0 & ext0 & Hg & ->). cbn [mem rows].
  set (h0 := mem s ++ ext0).
  set (address := assoc_set "createdAt" (VRef (length h0))
                    (assoc_set "id" (VString (makeId "addr_" e)) addr)).
  set (h2 := h0 ++ [ODate (Fin t1); OPlain address]).
  destruct (read h2 user "addresses") as [| | | | |arr] eqn:Hread; try done.
  destruct (h2 !! arr) as [[|elems| | |]|] eqn:Harr; try done.
  set (la := S (length h0)).
  set (h3 := <[arr:=OArray (elems ++ [VRef la])]> h2).
  assert (Hlen3 : length h3 = length h2) by apply length_insert.
  assert (Harr_lt : (arr < length h2)%nat) by by apply lookup_lt_Some in Harr.
  assert (Hla : h2 !! la = Some (OPlain address)).
  { subst h2 la. change (h0 ++ [ODate (Fin t1); OPlain address])
      with (h0 ++ ([ODate (Fin t1)] ++ [OPlain address])).
    rewrite app_assoc.
    replace (S (length h0)) with (length (h0 ++ [ODate (Fin t1)]))
      by (rewrite length_app; simpl; lia).
    by apply list_lookup_middle. }
  assert (Hne : arr ≠ la) by (intros ->; congruence).
  unfold repo_update. cbn [mem rows]. rewrite list_lookup_middle by done.
  rewrite insert_last.
  set (ld := length (h3 ++ [OPlain [("addresses", VRef arr)]])).
  change (assoc_set "updatedAt" (VRef ld) [("addresses", VRef arr)])
    with [("addresses", VRef arr); ("updatedAt", VRef ld)].
  set (stamped := [("addresses", VRef arr); ("updatedAt", VRef ld)]).
  set (hp := (h3 ++ [OPlain stamped]) ++ [ODate (Fin t2)]).
  destruct (update {| mem := hp; rows := rows s |} userId stamped)
    as [s2 [v|x|]] eqn:Hup; try done.
  intros [= <- <-].
  destruct (update_result {| mem := hp; rows := rows s |} _ _ l0 _ _ Hg Hup)
    as (existing & ext & l' & jps & Hl0 & -> & -> & Hr & Hjps).
  cbn [mem rows] in *.
  assert (Hold : forall i o, (i < length h2)%nat -> h3 !! i = Some o ->
                   ((hp ++ [OPlain (spread existing stamped)]) ++ ext) !! i = Some o).
  { intros i o Hi Ho. subst hp. rewrite <- !app_assoc.
    rewrite lookup_app_l by lia. done. }
  assert (Haddr : assoc_get "addresses" (spread existing stamped) = Some (VRef arr)).
  { unfold spread, stamped. simpl. rewrite assoc_get_set_ne by done.
    apply assoc_get_set_eq. }
  assert (Hrow : ((hp ++ [OPlain (spread existing stamped)]) ++ ext) !! length hp
                 = Some (OPlain (spread existing stamped))).
  { rewrite <- app_assoc. by apply list_lookup_middle. }
  assert (Harr3 : ((hp ++ [OPlain (spread existing stamped)]) ++ ext) !! arr
                  = Some (OArray (elems ++ [VRef la]))).
  { apply Hold; [done|]. subst h3. by apply list_lookup_insert_eq. }
  assert (Hla_lt : (la < length h2)%nat) by by apply lookup_lt_Some in Hla.
  exists (length hp), arr, elems, la, address.
  split; [done|]. split; [|split; [|split; [|split; [|split]]]].
  - apply Hold; [done|]. subst h3. by rewrite list_lookup_insert_ne.
  - subst address. rewrite assoc_get_set_ne by done. apply assoc_get_set_eq.
  - apply assoc_get_set_eq.
  - unfold read. rewrite Hrow. unfold read_prop. by rewrite Haddr.
  - done.
  - eapply reach_step; [exact Hrow| |].
    + simpl. by apply assoc_get_value with "addresses".
    + eapply reach_step; [exact Harr3| |apply reach_here].
      simpl. apply elem_of_app. right. apply list_elem_of_here.
Qed.

Lemma reach_inv h l o b :
  h !! l = Some o -> reach h (VRef l) b ->
  b = l \/ exists v, v ∈ obj_values o /\ reach h v b.
Proof.
  intros Hl Hr. inversion Hr as [|l1 o1 v l2 Hl1 Hin Hr1]; subst; [by left|].
  rewrite Hl in Hl1. injection Hl1 as <-. right. by exists v.
Qed.

Lemma reach_leaf h l o b :
  h !! l = Some o -> obj_values o = [] -> reach h (VRef l) b -> b = l.
Proof.
  intros Hl Ho Hr. inversion Hr as [|l1 o1 v l2 Hl1 Hin Hr1]; subst; [done|].
  rewrite Hl in Hl1. injection Hl1 as <-. rewrite Ho in Hin.
  by apply elem_of_nil in Hin.
Qed.

Lemma reach_primitive h v b : is_primitive v -> ~ reach h v b.
Proof. intros Hv Hr. by inversion Hr; subst. Qed.

(** X28: [addAddress] for a stored user whose [addresses] is an array
    appends: it returns, and [findById] then shows the user with the
    addresses it had followed by the new one, which carries the identifier
    ["addr_..."], [createdAt] as the ISO text of its time and the
    serialised fields of the argument; [updatedAt] of the user is the ISO
    text of the second time, and every other member is as it was. *)
Theorem addAddress_appends (s : state) (userId : value) (addr : props) (e : entropy)
    (t1 t2 : Z) (l0 : loc) (existing : props) (jps0 : list (string * json))
    (jaddrs : list json) :
  wf_state s ->
  assoc_get userId (rows s) = Some l0 ->
  mem s !! l0 = Some (OPlain existing) ->
  NoDup (keys existing) ->
  content (mem s) (VRef l0) = Ok (Some (JObj jps0)) ->
  assoc_get "addresses" jps0 = Some (JArr jaddrs) ->
  Forall (val_below (length (mem s))) (map snd addr) ->
  NoDup (keys addr) ->
  Forall (fun v => exists oj, content (mem s) v = Ok oj) (map snd addr) ->
  exists s1 a jps jaddress,
    addAddress s userId addr e t1 t2 = (s1, Ok (Succeeded a))
    /\ get_content s1 userId = Ok (Some (JObj jps))
    /\ assoc_get "addresses" jps = Some (JArr (jaddrs ++ [JObj jaddress]))
    /\ assoc_get "updatedAt" jps = Some (JStr (date_iso t2))
    /\ (forall k, k ∉ ["addresses"; "updatedAt"] ->
          assoc_get k jps = assoc_get k jps0)
    /\ assoc_get "id" jaddress = Some (JStr (makeId "addr_" e))
    /\ assoc_get "createdAt" jaddress = Some (JStr (date_iso t1))
    /\ forall k, k ∉ ["id"; "createdAt"] ->
         assoc_get k jaddress
         = match assoc_get k addr with
           | Some v => match content (mem s) v with Ok oj => oj | _ => None end
           | None => None
           end.
Proof.
  intros [Hcl Hrows] Hg Hl0 HndE Hc Hja Haddr HndA HserA.
  set (n := length (mem s)) in *.
  assert (Hlt0 : (l0 < n)%nat) by by apply lookup_lt_Some in Hl0.
  destruct (fields_serialise _ _ _ _ Hcl Hl0 Hc) as (jps0' & [= <-] & Hf).
  unfold addAddress, findById, get. rewrite Hg, deepClone_content, Hc.
  pose proof (parse_closed (JObj jps0) (mem s) Hcl) as [Hcl0 _].
  pose proof (parse_fresh n (JObj jps0) (mem s) (le_n _) (fresh_above_start _))
    as [Hab Hfr].
  destruct (parse_extends (JObj jps0) (mem s)) as [ext0 Hext0].
  pose proof (parse_represents (JObj jps0) (mem s)) as Hp.
  destruct (parse (mem s) (JObj jps0)) as [h0' user]. cbn [fst snd] in *. subst h0'.
  set (h0 := mem s ++ ext0) in *.
  assert (Hlen0 : (n <= length h0)%nat) by (subst h0 n; rewrite length_app; lia).
  destruct user as [| | | | |lu]; try done. cbn [to_boolean mem rows].
  simpl in Hp. destruct (h0 !! lu) as [[psu| | | |]|] eqn:Hlu; try done.
  pose proof (represents_props_get h0 psu jps0 "addresses" Hp) as Hga.
  rewrite Hja in Hga. destruct Hga as (va & Hva & Hra).
  destruct va as [| | | | |arr]; try done. simpl in Hra.
  destruct (h0 !! arr) as [[|elems| | |]|] eqn:Harr; try done.
  apply all2_Forall2 in Hra.
  assert (Harr_ge : (n <= arr)%nat).
  { pose proof (Hfr lu _ Hab Hlu) as Hvals. simpl in Hvals.
    rewrite Forall_forall in Hvals.
    by apply (Hvals (VRef arr)), assoc_get_value with "addresses". }
  assert (Harr_lt : (arr < length h0)%nat) by by apply lookup_lt_Some in Harr.
  set (la := S (length h0)).
  set (ld1 := length h0).
  set (address := assoc_set "createdAt" (VRef ld1)
                    (assoc_set "id" (VString (makeId "addr_" e)) addr)).
  set (h2 := h0 ++ [ODate (Fin t1); OPlain address]).
  assert (Hlen2 : length h2 = S (S (length h0)))
    by (subst h2; rewrite length_app; simpl; lia).
  assert (Hread : read h2 (VRef lu) "addresses" = VRef arr).
  { unfold read. subst h2. rewrite (lookup_app_l_Some _ _ _ _ Hlu).
    unfold read_prop. by rewrite Hva. }
  rewrite Hread.
  assert (Harr2 : h2 !! arr = Some (OArray elems))
    by (subst h2; by apply lookup_app_l_Some).
  rewrite Harr2.
  set (h3 := <[arr:=OArray (elems ++ [VRef la])]> h2).
  assert (Hlen3 : length h3 = length h2) by apply length_insert.
  unfold repo_update. cbn [mem rows]. rewrite list_lookup_middle by done.
  rewrite insert_last.
  set (ld2 := length (h3 ++ [OPlain [("addresses", VRef arr)]])).
  assert (Hld2 : ld2 = S (length h2))
    by (subst ld2; rewrite length_app, Hlen3; simpl; lia).
  change (assoc_set "updatedAt" (VRef ld2) [("addresses", VRef arr)])
    with [("addresses", VRef arr); ("updatedAt", VRef ld2)].
  set (stamped := [("addresses", VRef arr); ("updatedAt", VRef ld2)]).
  set (hp := (h3 ++ [OPlain stamped]) ++ [ODate (Fin t2)]).
  assert (Hlenp : length hp = S (S (length h2)))
    by (subst hp; rewrite !length_app, Hlen3; simpl; lia).
  (* the objects of [hp] *)
  assert (Hp3 : forall i o, h3 !! i = Some o -> hp !! i = Some o).
  { intros i o Hi. subst hp. rewrite <- app_assoc. by apply lookup_app_l_Some. }
  assert (Hp_h0 : forall a, (a < length h0)%nat -> a ≠ arr -> hp !! a = h0 !! a).
  { intros a Ha Hne. destruct (h0 !! a) as [o|] eqn:Hoa;
      [|apply lookup_ge_None in Hoa; lia].
    apply Hp3. subst h3. rewrite list_lookup_insert_ne by done.
    subst h2. by apply lookup_app_l_Some. }
  assert (Hp_old : forall a, (a < n)%nat -> hp !! a = mem s !! a).
  { intros a Ha. rewrite Hp_h0 by lia. subst h0. by apply lookup_app_l. }
  assert (Hp_arr : hp !! arr = Some (OArray (elems ++ [VRef la]))).
  { apply Hp3. subst h3. apply list_lookup_insert_eq. lia. }
  assert (Hla2 : h2 !! la = Some (OPlain address)).
  { subst h2 la. change (h0 ++ [ODate (Fin t1); OPlain address])
      with (h0 ++ ([ODate (Fin t1)] ++ [OPlain address])).
    rewrite app_assoc.
    replace (S (length h0)) with (length (h0 ++ [ODate (Fin t1)]))
      by (rewrite length_app; simpl; lia).
    by apply list_lookup_middle. }
  assert (Hp_la : hp !! la = Some (OPlain address)).
  { apply Hp3. subst h3. rewrite list_lookup_insert_ne by (subst la; lia). done. }
  assert (Hp_d1 : hp !! ld1 = Some (ODate (Fin t1))).
  { apply Hp3. subst h3. rewrite list_lookup_insert_ne by (subst ld1; lia).
    subst h2 ld1. by apply list_lookup_middle. }
  assert (Hp_d2 : hp !! ld2 = Some (ODate (Fin t2))).
  { subst hp. rewrite Hld2. replace (S (length h2)) with (length (h3 ++ [OPlain stamped]))
      by (rewrite length_app, Hlen3; simpl; lia).
    by apply list_lookup_middle. }
  (* [hp] has no dangling reference *)
  assert (Haddr_below : Forall (val_below (length h2)) (map snd address)).
  { subst address.
    apply assoc_set_values; [unfold val_below; subst ld1; lia|].
    apply assoc_set_values; [done|].
    eapply Forall_impl; [exact Haddr|]. intros v. apply val_below_mono. lia. }
  assert (Hcl2 : closed_below (length h2) h2).
  { apply closed_below_app; [done|]. fold h2.
    repeat (first [apply Forall_nil_2|apply Forall_cons_2]). exact Haddr_below. }
  assert (Hcl3 : closed_below (length h3) h3).
  { apply closed_below_insert; [done|]. simpl. apply Forall_app. split.
    - eapply Forall_impl; [exact (Hcl0 arr _ Harr_lt Harr)|].
      intros v. apply val_below_mono. lia.
    - repeat constructor. unfold val_below. subst la. lia. }
  assert (Hclp : closed_below (length hp) hp).
  { subst hp. rewrite <- app_assoc. apply closed_below_app; [done|].
    rewrite length_app, Hlen3. simpl.
    repeat (first [apply Forall_nil_2|apply Forall_cons_2]); simpl;
      repeat (first [apply Forall_nil_2|apply Forall_cons_2]); simpl; try done; lia. }
  assert (Hcln : closed_below n hp).
  { intros a o Ha Ho. rewrite (Hp_old a Ha) in Ho. by apply (Hcl a o). }
  (* what the values serialise to in [hp] *)
  assert (Hold : forall v, val_below n v -> content hp v = content (mem s) v).
  { intros v Hv. apply (content_agree n); try done. rewrite Hlenp. lia. }
  assert (Hreach_old : forall v b, val_below n v -> reach hp v b -> (b < n)%nat).
  { intros v b Hv. by apply reach_below. }
  assert (Hreach_d1 : forall b, reach hp (VRef ld1) b -> b = ld1).
  { intros b. by apply (reach_leaf hp ld1 (ODate (Fin t1))). }
  assert (PA : Forall (fun v => forall b, reach hp v b -> (b < n)%nat \/ b = ld1)
                 (map snd address)).
  { subst address. apply assoc_set_values; [intros b Hb; right; by apply Hreach_d1|].
    apply assoc_set_values; [intros b Hb; by apply reach_primitive in Hb|].
    eapply Forall_impl; [exact Haddr|]. intros v Hv b Hb. left. by eapply Hreach_old. }
  assert (Hokaddr : Forall (fun v => exists oj, content hp v = Ok oj) (map snd address)).
  { subst address.
    apply assoc_set_values; [eexists; by apply (content_date _ _ t1)|].
    apply assoc_set_values; [by eexists|].
    rewrite Forall_forall in Haddr, HserA. apply Forall_forall. intros v Hv.
    rewrite (Hold v (Haddr v Hv)). by apply HserA. }
  destruct (stringify_props_ok _ _ Hokaddr) as [jaddress Hjaddress].
  assert (Hc_la : content hp (VRef la) = Ok (Some (JObj jaddress))).
  { rewrite (content_object hp la address Hclp Hp_la); [by rewrite Hjaddress|].
    eapply Forall_impl; [exact PA|]. intros v Hv Hr.
    destruct (Hv la Hr) as [Hlt|Heq]; subst la ld1; lia. }
  assert (Helems : Forall2 (fun v j => content hp v = Ok (Some j) /\ ~ reach hp v arr)
                     elems jaddrs).
  { assert (Hdepth : forall j, j ∈ jaddrs -> (depth j < depth (JArr jaddrs))%nat).
    { intros j Hj. simpl. apply Nat.lt_succ_r, list_max_elem.
      by apply (list_elem_of_fmap_2 depth). }
    assert (Hrarr : represents h0 (VRef arr) (JArr jaddrs)).
    { simpl. rewrite Harr. by apply all2_Forall2. }
    pose proof (Hcl0 arr _ Harr_lt Harr) as Hbelow. simpl in Hbelow.
    apply Forall2_same_length_lookup. apply Forall2_same_length_lookup in Hra as [Hlen Hra].
    split; [done|]. intros i v j Hv Hj. specialize (Hra i v j Hv Hj).
    assert (Hvb : val_below (length h0) v).
    { rewrite Forall_forall in Hbelow. by eapply Hbelow, list_elem_of_lookup_2. }
    assert (Hfacts : forall a, reach h0 v a -> (a < length h0)%nat /\ a ≠ arr).
    { intros a Ha. split; [by eapply reach_below|]. intros ->.
      destruct (represents_reach _ _ _ Ha j Hra) as (j' & Hj' & Hd).
      rewrite (represents_fun _ _ _ _ Hj' Hrarr) in Hd.
      specialize (Hdepth j ltac:(by eapply list_elem_of_lookup_2)). lia. }
    assert (Hag : forall a, reach h0 v a -> hp !! a = h0 !! a).
    { intros a Ha. destruct (Hfacts a Ha). by apply Hp_h0. }
    split.
    - apply content_represents. by apply (represents_agree h0).
    - intros Hr. apply (reach_agree h0 hp) in Hr; [|done]. by destruct (Hfacts arr Hr). }
  assert (Hnr_elems : Forall (fun v => ~ reach hp v arr) elems).
  { apply Forall_forall. intros v Hv. apply list_elem_of_lookup in Hv as [i Hi].
    by destruct (Forall2_lookup_l _ _ _ _ _ Helems Hi) as (j & _ & _ & Hnr). }
  assert (Hc_arr : content hp (VRef arr) = Ok (Some (JArr (jaddrs ++ [JObj jaddress])))).
  { rewrite (content_array hp arr _ Hclp Hp_arr).
    - rewrite (stringify_elems_all _ _ (jaddrs ++ [JObj jaddress])); [done|].
      apply Forall2_app; [|by repeat constructor].
      eapply Forall2_impl; [exact Helems|]. by intros v j [? _].
    - apply Forall_app. split; [done|].
      apply Forall_cons_2; [|apply Forall_nil_2]. intros Hr.
      destruct (reach_inv _ _ _ _ Hp_la Hr) as [Heq|(v & Hv & Hrv)];
        [subst la; lia|].
      rewrite Forall_forall in PA. destruct (PA v Hv arr Hrv); subst ld1; lia. }
  (* the update *)
  assert (Hexv : Forall (val_below n) (map snd existing))
    by apply (Hcl l0 (OPlain existing) Hlt0 Hl0).
  assert (Hok : Forall (fun v => exists oj, content hp v = Ok oj)
                  (map snd (spread existing stamped))).
  { apply spread_values.
    - pose proof (stringify_props_ok_inv _ _ _ Hf) as Hall.
      rewrite Forall_forall in Hall, Hexv. apply Forall_forall. intros v Hv.
      rewrite (Hold v (Hexv v Hv)). by apply Hall.
    - subst stamped. simpl.
      repeat (first [apply Forall_nil_2|apply Forall_cons_2]);
        [by eexists|eexists; by apply (content_date _ _ t2)]. }
  destruct (stringify_props_ok _ _ Hok) as [jps Hjps].
  destruct (update_fresh_content {| mem := hp; rows := rows s |} userId l0 existing
              stamped jps) as (ext & v1 & Hup & Hv1 & Hcv & _).
  { done. }
  { done. }
  { cbn [mem]. by rewrite Hp_old. }
  { cbn [mem]. rewrite Hlenp. subst stamped. simpl.
    repeat (first [apply Forall_nil_2|apply Forall_cons_2]); simpl;
      try rewrite Hld2; lia. }
  { done. }
  cbv zeta in Hup, Hv1, Hcv. cbn [mem rows] in Hup, Hv1, Hcv. rewrite Hup.
  assert (HndU : NoDup (keys (spread existing stamped))) by by apply spread_NoDup.
  pose proof (fun k => stringify_props_get _ _ _ k HndU Hjps) as Hget.
  pose proof (fun k => stringify_props_get _ _ _ k HndE Hf) as Hget0.
  assert (HndAd : NoDup (keys address))
    by (unfold address; by repeat apply assoc_set_NoDup).
  pose proof (fun k => stringify_props_get _ _ _ k HndAd Hjaddress) as HgetA.
  assert (Hshape : spread existing stamped
                   = assoc_set "updatedAt" (VRef ld2)
                       (assoc_set "addresses" (VRef arr) existing)) by done.
  eexists _, (VRef la), jps, jaddress. split; [done|].
  split; [|split; [|split; [|split; [|split; [|split]]]]].
  - rewrite get_content_row. cbn [mem rows]. by rewrite assoc_get_set_eq, Hcv.
  - rewrite Hget, Hshape. rewrite assoc_get_set_ne by done.
    by rewrite assoc_get_set_eq, Hc_arr.
  - by rewrite Hget, Hshape, assoc_get_set_eq, (content_date _ _ t2 Hp_d2).
  - intros k Hk. rewrite Hget, Hget0, Hshape.
    rewrite !assoc_get_set_ne
      by (intros ->; apply Hk;
          repeat (first [apply list_elem_of_here|apply list_elem_of_further])).
    destruct (assoc_get k existing) as [v|] eqn:Hkv; [|done].
    rewrite Hold; [done|]. rewrite Forall_forall in Hexv.
    by apply Hexv, assoc_get_value with k.
  - rewrite HgetA. unfold address. rewrite assoc_get_set_ne by done.
    by rewrite assoc_get_set_eq.
  - rewrite HgetA. unfold address.
    by rewrite assoc_get_set_eq, (content_date _ _ t1 Hp_d1).
  - intros k Hk. rewrite HgetA. unfold address.
    rewrite !assoc_get_set_ne
      by (intros ->; apply Hk;
          repeat (first [apply list_elem_of_here|apply list_elem_of_further])).
    destruct (assoc_get k addr) as [v|] eqn:Hkv; [|done].
    rewrite Hold; [done|]. rewrite Forall_forall in Haddr.
    by apply Haddr, assoc_get_value with k.
Qed.

(** ** Recent posts *)

(** X25: [listRecent(limit)], for a [limit] that is not negative (10 when
    left out) and posts whose [createdAt] comes back as text, returns the
    first [limit] posts of the table sorted by that text from the greatest
    down, which for ISO dates is from the newest: [limit] posts, or all of
    them when there are fewer. *)
Theorem listRecent_newest_first (s : state) (limit : option Z) h1 arr :
  snapshot s = Ok (h1, arr) ->
  0 <= default 10 limit ->
  let key := fun row => read h1 row "createdAt" in
  Forall is_string (map key arr) ->
  exists sorted,
    snd (listRecent s limit) = Ok (take (Z.to_nat (default 10 limit)) sorted)
    /\ Permutation sorted arr
    /\ StronglySorted (fun a b => val_le (key b) (key a)) sorted
    /\ length (take (Z.to_nat (default 10 limit)) sorted)
       = Nat.min (Z.to_nat (default 10 limit)) (length (rows s)).
Proof.
  intros Hs Hn key Hstr. unfold listRecent.
  set (opts := {| opt_limit := Some (default 10 limit); opt_offset := None;
                  opt_sortBy := Some "createdAt"; opt_sortOrder := Some Desc;
                  opt_filter := None |}).
  exists (sort_rows h1 opts arr). rewrite (query_unfold _ _ _ _ Hs). cbn [snd].
  assert (Hperm : Permutation (sort_rows h1 opts arr) arr) by apply sort_rows_perm.
  split; [|split; [done|split]].
  - f_equal. rewrite paginate_take_drop; [done|done|]. by unfold limit_of.
  - apply (sort_rows_sorted opts "createdAt" h1 arr); [done|done|by right].
  - rewrite length_take, (Permutation_length Hperm).
    unfold snapshot in Hs. apply clone_all_length in Hs.
    rewrite length_map in Hs. by rewrite Hs.
Qed.

(** ** Retrying *)

Section RetryFacts.
Context {St T E : Type} (fn : St -> St * (T + E)).

Lemma backoff_shift (b i : Z) (k : nat) :
  b * (i + 1) :: map (fun j => b * (i + 1 + Z.of_nat j)) (seq 1 k)
  = map (fun j => b * (i + Z.of_nat j)) (seq 1 (S k)).
Proof.
  cbn [seq map]. replace (i + Z.of_nat 1) with (i + 1) by lia. f_equal.
  rewrite <- (seq_shift k 1), map_map. apply map_ext. intros j. f_equal. lia.
Qed.

Lemma retry_loop_success (b : Z) (v : T) (k : nat) :
  forall r i lastErr st,
    (k < r)%nat ->
    (forall n, (n < k)%nat -> exists err, fails_with fn st n err) ->
    snd (fn (state_before fn k st)) = inl v ->
    retry_loop fn r i b lastErr st
    = {| final := state_before fn (S k) st;
         delays := map (fun j => b * (i + Z.of_nat j)) (seq 1 k);
         outcome := inl v |}.
Proof.
  induction k as [|k IH]; intros r i lastErr st Hk Hfail Hok;
    (destruct r as [|r]; [lia|]).
  - cbn [state_before] in *. cbn [retry_loop].
    destruct (fn st) as [st1 [v'|err]]; cbn [fst snd] in *; [|done].
    by injection Hok as ->.
  - destruct (Hfail O ltac:(lia)) as [err Herr]. unfold fails_with in Herr.
    cbn [state_before] in Hok, Herr |- *. cbn [retry_loop].
    destruct (fn st) as [st1 [v'|err']] eqn:Hfn; cbn [fst snd] in *; [done|].
    rewrite (IH r (i + 1) (Some err') st1); [| lia | | done].
    + cbn [final delays outcome state_before]. f_equal.
      apply (backoff_shift b i k).
    + intros n Hn. destruct (Hfail (S n) ltac:(lia)) as [err2 H2].
      exists err2. unfold fails_with in *. cbn [state_before] in H2.
      by rewrite Hfn in H2.
Qed.

Lemma retry_loop_exhausted (b : Z) (r : nat) :
  forall i lastErr st,
    (forall n, (n < r)%nat -> exists err, fails_with fn st n err) ->
    retry_loop fn r i b lastErr st
    = {| final := state_before fn r st;
         delays := map (fun j => b * (i + Z.of_nat j)) (seq 1 r);
         outcome := inr (match r with
                         | O => lastErr
                         | S k => match snd (fn (state_before fn k st)) with
                                  | inr err => Some err
                                  | inl _ => lastErr
                                  end
                         end) |}.
Proof.
  induction r as [|r IH]; intros i lastErr st Hfail; [done|].
  destruct (Hfail O ltac:(lia)) as [err Herr]. unfold fails_with in Herr.
  cbn [state_before] in Herr |- *. cbn [retry_loop].
  destruct (fn st) as [st1 [v'|err']] eqn:Hfn; cbn [fst snd] in *; [done|].
  rewrite (IH (i + 1) (Some err') st1).
  - cbn [final delays outcome]. f_equal; [apply (backoff_shift b i r)|]. f_equal.
    destruct r as [|k]; cbn [state_before]; [by rewrite Hfn|].
    destruct (Hfail (S k) ltac:(lia)) as [err2 H2]. unfold fails_with in H2.
    cbn [state_before] in H2. rewrite Hfn in H2. cbn [fst] in H2.
    rewrite Hfn. cbn [fst]. by rewrite H2.
  - intros n Hn. destruct (Hfail (S n) ltac:(lia)) as [err2 H2].
    exists err2. unfold fails_with in *. cbn [state_before] in H2.
    by rewrite Hfn in H2.
Qed.

(** X26: [retry] returns the value of the first call of [fn] that is
    fulfilled, when there is one among the first [attempts] calls: after
    [k] rejected calls it has called [fn] [k + 1] times and has waited
    [backoffMs], [2 * backoffMs], up to [k * backoffMs] between them. *)
Theorem retry_first_success (attempts backoffMs : Z) (st : St) (k : nat) (v : T) :
  (k < Z.to_nat attempts)%nat ->
  (forall n, (n < k)%nat -> exists err, fails_with fn st n err) ->
  snd (fn (state_before fn k st)) = inl v ->
  retry fn attempts backoffMs st
  = {| final := state_before fn (S k) st;
       delays := map (fun j => backoffMs * Z.of_nat j) (seq 1 k);
       outcome := inl v |}.
Proof.
  intros Hk Hfail Hok. unfold retry.
  by rewrite (retry_loop_success backoffMs v k _ 0 None st Hk Hfail Hok).
Qed.

(** X27: when the first [attempts] calls of [fn] are all rejected, [retry]
    throws the error of the last of them, after [attempts] calls and as many
    delays: it waits [attempts * backoffMs] once more before it gives up.
    With [attempts] zero or negative it calls nothing and throws
    [undefined]. *)
Theorem retry_gives_up (attempts backoffMs : Z) (st : St) :
  (forall n, (n < Z.to_nat attempts)%nat -> exists err, fails_with fn st n err) ->
  (1 <= attempts ->
   exists err,
     fails_with fn st (Z.to_nat attempts - 1) err
     /\ retry fn attempts backoffMs st
        = {| final := state_before fn (Z.to_nat attempts) st;
             delays := map (fun j => backoffMs * Z.of_nat j)
                         (seq 1 (Z.to_nat attempts));
             outcome := inr (Some err) |})
  /\ (attempts <= 0 ->
      retry fn attempts backoffMs st
      = {| final := st; delays := []; outcome := inr None |}).
Proof.
  intros Hfail. split.
  - intros Hpos. unfold retry.
    rewrite (retry_loop_exhausted backoffMs _ 0 None st Hfail).
    destruct (Z.to_nat attempts) as [|k] eqn:Hn; [lia|].
    destruct (Hfail k ltac:(lia)) as [err Herr]. exists err.
    replace (S k - 1)%nat with k by lia. split; [done|].
    unfold fails_with in Herr. by rewrite Herr.
  - intros Hneg. unfold retry. by replace (Z.to_nat attempts) with O by lia.
Qed.

End RetryFacts.

(** ** Creating posts *)

Lemma content_empty_object h l :
  h !! l = Some (OPlain []) -> content h (VRef l) = Ok (Some (JObj [])).
Proof.
  intros Hl. unfold content. rewrite stringify_eq, Hl.
  destruct (decide (l ∈ [])) as [Hin|_]; [by apply elem_of_nil in Hin|done].
Qed.

(** X30: [PostRepository.create] returns the post with the identifier
    ["post_..."], with [createdAt] and [updatedAt] both the ISO text of the
    time of the call and with [reactions] an empty object, whatever the
    argument had under these four names; every other field is the
    serialised field of the argument, and [findById] of the new identifier
    returns the same record. *)
Theorem post_create_fills_in (s : state) (post : props) (e : entropy) (t : Z) :
  wf_state s ->
  Forall (val_below (length (mem s))) (map snd post) ->
  NoDup (keys post) ->
  Forall (fun v => exists oj, content (mem s) v = Ok oj) (map snd post) ->
  exists s1 v1 jps,
    post_create s post e t = (s1, Ok v1)
    /\ represents (mem s1) v1 (JObj jps)
    /\ get_content s1 (VString (makeId "post_" e)) = Ok (Some (JObj jps))
    /\ assoc_get "id" jps = Some (JStr (makeId "post_" e))
    /\ assoc_get "createdAt" jps = Some (JStr (date_iso t))
    /\ assoc_get "updatedAt" jps = Some (JStr (date_iso t))
    /\ assoc_get "reactions" jps = Some (JObj [])
    /\ forall k,
        k ∉ ["id"; "createdAt"; "updatedAt"; "reactions"] ->
        assoc_get k jps
        = match assoc_get k post with
          | Some v => match content (mem s) v with Ok oj => oj | _ => None end
          | None => None
          end.
Proof.
  intros [Hcl Hrows] Hpost Hnd Hser. unfold post_create.
  set (id := VString (makeId "post_" e)).
  set (reactions := VRef (S (length (mem s)))).
  set (nowDate := VRef (length (mem s))).
  set (toCreate := assoc_set "reactions" reactions
                     (assoc_set "updatedAt" nowDate
                        (assoc_set "createdAt" nowDate (assoc_set "id" id post)))).
  set (h0 := mem s ++ [ODate (Fin t); OPlain []; OPlain toCreate]).
  assert (Hlen0 : length h0 = S (S (S (length (mem s)))))
    by (unfold h0; rewrite length_app; simpl; lia).
  assert (Hdate : h0 !! length (mem s) = Some (ODate (Fin t)))
    by (unfold h0; by apply list_lookup_middle).
  assert (Hempty : h0 !! S (length (mem s)) = Some (OPlain [])).
  { unfold h0. rewrite lookup_app_r by lia.
    by replace (S (length (mem s)) - length (mem s))%nat with 1%nat by lia. }
  assert (Hvals : Forall (val_below (length h0)) (map snd toCreate)).
  { rewrite Hlen0. unfold toCreate, nowDate, reactions.
    repeat (apply assoc_set_values; [simpl; try done; lia|]).
    eapply Forall_impl; [exact Hpost|]. intros v. apply val_below_mono. lia. }
  assert (Hcl0 : closed_below (length h0) h0).
  { unfold h0. apply closed_below_app; [done|]. fold h0.
    repeat (first [apply Forall_nil_2|apply Forall_cons_2]); simpl; done. }
  assert (Hold : forall v, val_below (length (mem s)) v ->
                           content h0 v = content (mem s) v).
  { intros v Hv. unfold h0. by apply content_extends. }
  assert (Hnow : content h0 nowDate = Ok (Some (JStr (date_iso t))))
    by apply (content_date _ _ t Hdate).
  assert (Hre : content h0 reactions = Ok (Some (JObj [])))
    by apply (content_empty_object _ _ Hempty).
  assert (Hrc : assoc_get "reactions" toCreate = Some reactions)
    by apply assoc_get_set_eq.
  assert (Hua : assoc_get "updatedAt" toCreate = Some nowDate).
  { unfold toCreate. rewrite assoc_get_set_ne by done. apply assoc_get_set_eq. }
  assert (Hca : assoc_get "createdAt" toCreate = Some nowDate).
  { unfold toCreate. rewrite !assoc_get_set_ne by done. apply assoc_get_set_eq. }
  assert (Hid : assoc_get "id" toCreate = Some id).
  { unfold toCreate. rewrite !assoc_get_set_ne by done. apply assoc_get_set_eq. }
  assert (Hother : forall k, k ∉ ["id"; "createdAt"; "updatedAt"; "reactions"] ->
                             assoc_get k toCreate = assoc_get k post).
  { intros k Hk. unfold toCreate.
    rewrite !assoc_get_set_ne; [done|intros ->; apply Hk..].
    - apply list_elem_of_here.
    - apply list_elem_of_further, list_elem_of_here.
    - do 2 apply list_elem_of_further. apply list_elem_of_here.
    - do 3 apply list_elem_of_further. apply list_elem_of_here. }
  assert (Hiid : insert_id toCreate e = id) by (unfold insert_id; by rewrite Hid).
  assert (Hsame : assoc_set "id" (insert_id toCreate e) toCreate = toCreate)
    by (rewrite Hiid; by apply assoc_set_same).
  assert (HndC : NoDup (keys toCreate))
    by (unfold toCreate; by repeat apply assoc_set_NoDup).
  assert (Hok : Forall (fun v => exists oj, content h0 v = Ok oj) (map snd toCreate)).
  { unfold toCreate.
    repeat (apply assoc_set_values;
            [by (eexists; first [apply Hre|apply Hnow|apply content_string])|]).
    rewrite Forall_forall in Hpost, Hser. apply Forall_forall. intros v Hv.
    rewrite (Hold v (Hpost v Hv)). by apply Hser. }
  destruct (stringify_props_ok _ _ Hok) as [jps Hjps].
  pose proof (fun k => stringify_props_get _ _ _ k HndC Hjps) as Hget.
  destruct (insert_fresh_content {| mem := h0; rows := rows s |} toCreate e jps)
    as (ext & v1 & Hins & Hv1 & Hc & _).
  { done. }
  { done. }
  { cbn [mem]. by rewrite Hsame. }
  cbv zeta in Hins, Hv1, Hc. cbn [mem rows] in Hins, Hv1, Hc.
  rewrite Hsame, Hiid in Hins. rewrite Hsame in Hv1, Hc.
  eexists _, v1, jps. split; [exact Hins|]. cbn [mem].
  split; [exact Hv1|]. split; [|split; [|split; [|split; [|split]]]].
  - rewrite get_content_row. cbn [mem rows]. by rewrite assoc_get_set_eq, Hc.
  - by rewrite Hget, Hid.
  - by rewrite Hget, Hca, Hnow.
  - by rewrite Hget, Hua, Hnow.
  - by rewrite Hget, Hrc, Hre.
  - intros k Hk. rewrite Hget, (Hother k Hk).
    destruct (assoc_get k post) as [v|] eqn:Hkv; [|done].
    rewrite Hold; [done|]. rewrite Forall_forall in Hpost.
    by apply Hpost, assoc_get_value with k.
Qed.

(** A heap that passes the test has no [toJSON] method anywhere. *)
Lemma no_toJSONb_spec h v : no_toJSONb h = true -> plain_data h v.
Proof.
  intros Hb l _ Hhas. unfold has_toJSON in Hhas.
  destruct (h !! l) as [o|] eqn:Hl; [|done].
  unfold no_toJSONb in Hb. rewrite forallb_forall in Hb.
  specialize (Hb o). destruct o as [ps| | | |]; try done.
  destruct (as_function h (read_prop "toJSON" ps)); [|done].
  discriminate Hb. apply list_elem_of_In. by apply list_elem_of_lookup_2 with l.
Qed.

(** ** Predicates in a filter *)




(** ** A record that cannot be copied *)

(** X29: [insert] is not atomic: when copying the record throws (as for a
    record that holds itself), the row is in the table all the same, under
    its identifier;
    from then on [get] of the identifier throws the same error, and every
    [query] throws, whatever its options. *)
Theorem failed_insert_poisons (s : state) (row : props) (e : entropy) (x : exn) :
  wf_state s ->
  Forall (val_below (length (mem s))) (map snd row) ->
  snd (insert s row e) = Throw x ->
  let s1 := fst (insert s row e) in
  assoc_get (insert_id row e) (rows s1) = Some (length (mem s))
  /\ get s1 (insert_id row e) = (s1, Throw x)
  /\ forall opts, exists y, query s1 opts = (s1, Throw y).
Proof.
  intros Hwf Hargs Hthrow s1.
  assert (Hwf1 : wf_state s1) by apply (step_wf s (OpInsert row e) Hwf Hargs).
  assert (Hs1 : s1 = {| mem := mem s ++ [OPlain (assoc_set "id" (insert_id row e) row)];
                        rows := assoc_set (insert_id row e) (length (mem s)) (rows s) |}
                /\ deepClone (mem s ++ [OPlain (assoc_set "id" (insert_id row e) row)])
                     (VRef (length (mem s))) = Throw x).
  { subst s1. revert Hthrow. unfold insert. fold (insert_id row e).
    destruct (deepClone _ _) as [[h2 v]|y|]; simpl; try done. by intros [= ->]. }
  destruct Hs1 as [Hs1 Hc]. split; [|split].
  - rewrite Hs1. cbn [rows]. apply assoc_get_set_eq.
  - rewrite Hs1. unfold get. cbn [mem rows].
    by rewrite assoc_get_set_eq, Hc.
  - intros opts. pose proof (snapshot_contents s1 Hwf1) as Hall.
    unfold query. destruct (snapshot s1) as [[h1 arr]|y|]; [|by exists y|done].
    exfalso. rewrite Forall2_fmap_l in Hall.
    assert (Hin : (insert_id row e, length (mem s)) ∈ rows s1).
    { apply assoc_get_elem. rewrite Hs1. cbn [rows]. apply assoc_get_set_eq. }
    apply list_elem_of_lookup in Hin as [i Hi].
    destruct (Forall2_lookup_l _ _ _ _ _ Hall Hi) as (v & _ & j & Hj & _).
    cbn [snd] in Hj. rewrite deepClone_content in Hc. rewrite Hs1 in Hj. cbn [mem] in Hj.
    by rewrite Hj in Hc.
Qed.

End Facts.

(** ** The theorems at work, and where the specification and the table part *)

#[local] Existing Instance example_runtime.

Lemma ids_preserved_witness :
  Forall op_keeps_ids careful_ops /\ ids_ok (run (empty_table []) careful_ops).
Proof.
  assert (H : Forall op_keeps_ids careful_ops).
  { repeat constructor; simpl; try discriminate; intros; congruence. }
  split; [exact H|exact (ids_preserved [] careful_ops H)].
Defined.

(** C1 as stated fails: after [insert({id:"a"})] and
    [update("a", {id:"b"})] the row kept under the key ["a"] has the
    identifier ["b"]. *)
Lemma update_breaks_ids : ~ ids_ok (run (empty_table []) renaming_ops).
Proof.
  intros (_ & Hkey & _). vm_compute in Hkey.
  inversion Hkey as [|kl rs Hk Hrest]. discriminate Hk.
Qed.

Lemma insert_overwrites_witness :
  assoc_get "id" same_id = Some (VString "a")
  /\ assoc_has (VString "a") (rows one_row) = true
  /\ represents_props (mem one_row) same_id [("id", JStr "a"); ("v", JNum 2)]
  /\ exists s1 v1 s2 v2,
      insert one_row same_id some_entropy = (s1, Ok v1)
      /\ represents (mem s1) v1 (JObj [("id", JStr "a"); ("v", JNum 2)])
      /\ keys (rows s1) = keys (rows one_row)
      /\ assoc_get (VString "a") (rows s1) = Some (length (mem one_row))
      /\ mem s1 !! length (mem one_row) = Some (OPlain same_id)
      /\ get s1 (VString "a") = (s2, Ok v2)
      /\ represents (mem s2) v2 (JObj [("id", JStr "a"); ("v", JNum 2)]).
Proof.
  assert (H1 : assoc_get "id" same_id = Some (VString "a")) by reflexivity.
  assert (H2 : assoc_has (VString "a") (rows one_row) = true) by reflexivity.
  assert (H3 : represents_props (mem one_row) same_id
                 [("id", JStr "a"); ("v", JNum 2)]).
  { vm_compute. repeat split. }
  split; [exact H1|]. split; [exact H2|]. split; [exact H3|].
  exact (insert_overwrites one_row same_id some_entropy "a" _ H1 H2 H3).
Defined.

(** C2 as stated fails: [insert] of a record whose identifier is already a
    key returns a copy of the record, and [get] then returns the new
    record. *)
Lemma duplicate_insert_returns :
  assoc_has (VString "a") (rows one_row) = true
  /\ snd (insert one_row same_id some_entropy) = Ok (VRef 3%nat)
  /\ get_content (fst (insert one_row same_id some_entropy)) (VString "a")
     = Ok (Some (JObj [("id", JStr "a"); ("v", JNum 2)])).
Proof. vm_compute. repeat split. Qed.

Lemma insert_get_roundtrip_witness :
  assoc_get "id" ann = None
  /\ represents_props (mem (empty_table ann_heap)) ann ann_json
  /\ exists s1 v1 s2 v2,
      insert (empty_table ann_heap) ann some_entropy = (s1, Ok v1)
      /\ represents (mem s1) v1
           (JObj (ann_json ++ [("id", JStr (makeId "" some_entropy))]))
      /\ read (mem s1) v1 "id" = VString (makeId "" some_entropy)
      /\ get s1 (read (mem s1) v1 "id") = (s2, Ok v2)
      /\ represents (mem s2) v2
           (JObj (ann_json ++ [("id", JStr (makeId "" some_entropy))])).
Proof.
  assert (H1 : assoc_get "id" ann = None) by reflexivity.
  assert (H2 : represents_props (mem (empty_table ann_heap)) ann ann_json).
  { vm_compute. repeat split. }
  split; [exact H1|]. split; [exact H2|].
  exact (insert_get_roundtrip (empty_table ann_heap) ann some_entropy ann_json H1 H2).
Defined.

(** C3 as stated fails: a record whose [createdAt] is a [Date] comes back
    from [get] with a string in that field. *)
Lemma date_field_lost :
  let s1 := fst (insert (empty_table dated_heap) dated some_entropy) in
  let s2 := fst (get s1 (VString (makeId "" some_entropy))) in
  assoc_get "createdAt" dated = Some (VRef 0%nat)
  /\ dated_heap !! 0%nat = Some (ODate (Fin 0))
  /\ snd (insert (empty_table dated_heap) dated some_entropy) = Ok (VRef 2%nat)
  /\ read (mem s1) (VRef 2%nat) "id" = VString (makeId "" some_entropy)
  /\ snd (get s1 (VString (makeId "" some_entropy))) = Ok (VRef 3%nat)
  /\ read (mem s2) (VRef 3%nat) "createdAt" = VString "1970-01-01T00:00:00.000Z".
Proof. vm_compute. repeat split. Qed.

Lemma copy_isolation_witness :
  wf_state staff /\ op_args_ok staff (OpGet (VString "u2"))
  /\ let s1 := step staff (OpGet (VString "u2")) in
     (forall r l, r ∈ returned staff (OpGet (VString "u2")) -> reach (mem s1) r l ->
        (length (mem staff) <= l)%nat
        /\ forall kl, kl ∈ rows s1 -> ~ reach (mem s1) (VRef (snd kl)) l)
     /\ forall h2,
         (length (mem s1) <= length h2)%nat ->
         (forall l, (l < length (mem s1))%nat ->
            (forall r, r ∈ returned staff (OpGet (VString "u2")) ->
               ~ reach (mem s1) r l) ->
            h2 !! l = mem s1 !! l) ->
         forall id,
           get_content {| mem := h2; rows := rows s1 |} id = get_content s1 id.
Proof.
  assert (H1 : wf_state staff) by (apply wf_stateb_spec; vm_compute; reflexivity).
  assert (H2 : op_args_ok staff (OpGet (VString "u2"))) by exact I.
  split; [exact H1|]. split; [exact H2|].
  exact (copy_isolation staff (OpGet (VString "u2")) H1 H2).
Defined.





Lemma update_missing_witness :
  assoc_get (VString "u9") (rows staff) = None
  /\ update staff (VString "u9") [("role", VString "admin")] = (staff, Ok VUndefined)
  /\ length (rows (fst (update staff (VString "u9") [("role", VString "admin")])))
     = length (rows staff).
Proof.
  assert (H1 : assoc_get (VString "u9") (rows staff) = None) by reflexivity.
  split; [exact H1|].
  exact (update_missing staff (VString "u9") [("role", VString "admin")] H1).
Defined.

Lemma sort_is_stable_witness :
  snapshot ages = Ok (fst ages_copies, snd ages_copies)
  /\ opt_sortBy second_oldest = Some "age"
  /\ "age" ≠ ""
  /\ naturally_ordered
       (map (fun row => read (fst ages_copies) row "age")
          (filter_rows (fst ages_copies) second_oldest (snd ages_copies)))
  /\ let pre := filter_rows (fst ages_copies) second_oldest (snd ages_copies) in
     let key := fun row => read (fst ages_copies) row "age" in
     let sorted := sort_rows (fst ages_copies) second_oldest pre in
     snd (query ages second_oldest) = Ok (paginate second_oldest sorted)
     /\ Permutation sorted pre
     /\ StronglySorted
          (fun a b => in_order (opt_sortOrder second_oldest) (key a) (key b)) sorted
     /\ forall v, filter (fun row => key row = v) sorted
                  = filter (fun row => key row = v) pre.
Proof.
  assert (H1 : snapshot ages = Ok (fst ages_copies, snd ages_copies))
    by (vm_compute; reflexivity).
  assert (H2 : opt_sortBy second_oldest = Some "age") by reflexivity.
  assert (H3 : "age" ≠ "") by discriminate.
  assert (H4 : naturally_ordered
                 (map (fun row => read (fst ages_copies) row "age")
                    (filter_rows (fst ages_copies) second_oldest (snd ages_copies)))).
  { left. vm_compute. repeat constructor. }
  split; [exact H1|]. split; [exact H2|]. split; [exact H3|]. split; [exact H4|].
  exact (sort_is_stable ages second_oldest "age" _ _ H1 H2 H3 H4).
Defined.

(** C7 as stated fails: with [sortBy] the empty string the rows come back
    in the order of the table, here with 2 before 1 in the field of that
    name. *)
Lemma empty_sortBy_unsorted :
  query_view unnamed_field by_unnamed
  = Ok [Some [("id", VString "a"); ("", VNumber (Fin 2))];
        Some [("id", VString "b"); ("", VNumber (Fin 1))]]
  /\ ~ val_le (VNumber (Fin 2)) (VNumber (Fin 1)).
Proof. split; [vm_compute; reflexivity|simpl; lia]. Qed.


Lemma pagination_slice_witness :
  snapshot ages = Ok (fst ages_copies, snd ages_copies)
  /\ 0 <= offset_of second_oldest
  /\ 0 <= limit_of second_oldest
           (sort_rows (fst ages_copies) second_oldest
              (filter_rows (fst ages_copies) second_oldest (snd ages_copies)))
  /\ let sorted := sort_rows (fst ages_copies) second_oldest
                     (filter_rows (fst ages_copies) second_oldest (snd ages_copies)) in
     snd (query ages second_oldest)
     = Ok (take (Z.to_nat (limit_of second_oldest sorted))
             (drop (Z.to_nat (offset_of second_oldest)) sorted)).
Proof.
  assert (H1 : snapshot ages = Ok (fst ages_copies, snd ages_copies))
    by (vm_compute; reflexivity).
  assert (H2 : 0 <= offset_of second_oldest) by (vm_compute; discriminate).
  assert (H3 : 0 <= limit_of second_oldest
                      (sort_rows (fst ages_copies) second_oldest
                         (filter_rows (fst ages_copies) second_oldest
                            (snd ages_copies)))) by (vm_compute; discriminate).
  split; [exact H1|]. split; [exact H2|]. split; [exact H3|].
  exact (proj1 pagination_slice ages second_oldest _ _ H1 H2 H3).
Defined.

(** C9 as stated fails: with [limit] -1 the three rows of the scenario come
    back without the last one, two rows where at most -1 were asked for. *)
Lemma negative_limit_keeps_rows :
  query_view ages negative_limit = Ok [Some (aged "a" 30); Some (aged "b" 20)]
  /\ ~ (Z.of_nat (length [Some (aged "a" 30); Some (aged "b" 20)])
        <= limit_of negative_limit (snd ages_copies)).
Proof.
  split; [vm_compute; reflexivity|].
  unfold limit_of, negative_limit. simpl. lia.
Qed.

Lemma delete_idempotent_witness :
  NoDup (keys (rows staff))
  /\ assoc_has (VString "u2") (rows staff) = true
  /\ snd (delete staff (VString "u2")) = true
  /\ (length (rows (fst (delete staff (VString "u2")))) + 1 = length (rows staff))%nat
  /\ delete (fst (delete staff (VString "u2"))) (VString "u2")
     = (fst (delete staff (VString "u2")), false).
Proof.
  assert (H1 : NoDup (keys (rows staff))).
  { refine (bool_decide_unpack (NoDup (keys (rows staff))) _). vm_compute. exact I. }
  assert (H2 : assoc_has (VString "u2") (rows staff) = true) by reflexivity.
  split; [exact H1|]. split; [exact H2|].
  exact (proj1 (delete_idempotent staff (VString "u2") H1) H2).
Defined.

(** Other losses of the JSON round trip: [NaN] comes back as [null], and a
    field that is [undefined] does not come back. *)
Example nan_field_comes_back_null :
  get_content (fst (insert (empty_table []) [("score", VNumber NaN)] some_entropy))
    (VString (makeId "" some_entropy))
  = Ok (Some (JObj [("score", JNull); ("id", JStr (makeId "" some_entropy))])).
Proof. vm_compute. reflexivity. Qed.

Example undefined_field_dropped :
  get_content (fst (insert (empty_table []) [("updatedAt", VUndefined)] some_entropy))
    (VString (makeId "" some_entropy))
  = Ok (Some (JObj [("id", JStr (makeId "" some_entropy))])).
Proof. vm_compute. reflexivity. Qed.

(** A record that holds itself: [insert] throws, and the row stays in the
    table. *)
Example cyclic_record_throws :
  let h := [OPlain [("self", VRef 0%nat)]] in
  insert (empty_table h) [("id", VString "c"); ("me", VRef 0%nat)] some_entropy
  = ({| mem := h ++ [OPlain [("id", VString "c"); ("me", VRef 0%nat)]];
        rows := [(VString "c", 1%nat)] |},
     Throw TypeError).
Proof. vm_compute. reflexivity. Qed.

Example toISOString_epoch : toISOString 0 = "1970-01-01T00:00:00.000Z".
Proof. vm_compute. reflexivity. Qed.

Example toISOString_leap_day : toISOString 951782400000 = "2000-02-29T00:00:00.000Z".
Proof. vm_compute. reflexivity. Qed.

Example toISOString_before_epoch : toISOString (-1) = "1969-12-31T23:59:59.999Z".
Proof. vm_compute. reflexivity. Qed.

(** ** The further properties at work *)

Lemma update_merges_witness :
  assoc_get (VString "a") (rows one_row) = Some 0%nat
  /\ exists s1 v1 s2 v2,
      update one_row (VString "a") raise_v = (s1, Ok v1)
      /\ represents (mem s1) v1
           (JObj [("id", JStr "a"); ("v", JNum 2); ("w", JBool true)])
      /\ keys (rows s1) = keys (rows one_row)
      /\ get s1 (VString "a") = (s2, Ok v2)
      /\ represents (mem s2) v2
           (JObj [("id", JStr "a"); ("v", JNum 2); ("w", JBool true)]).
Proof.
  assert (H1 : assoc_get (VString "a") (rows one_row) = Some 0%nat) by reflexivity.
  assert (H2 : mem one_row !! 0%nat
               = Some (OPlain [("id", VString "a"); ("v", VNumber (Fin 1))]))
    by reflexivity.
  assert (H3 : represents_props (mem one_row)
                 [("id", VString "a"); ("v", VNumber (Fin 1))]
                 [("id", JStr "a"); ("v", JNum 1)]) by (vm_compute; repeat split).
  assert (H4 : represents_props (mem one_row) raise_v
                 [("v", JNum 2); ("w", JBool true)]) by (vm_compute; repeat split).
  assert (H5 : NoDup (keys [("v", JNum 2); ("w", JBool true)])).
  { refine (bool_decide_unpack _ _). vm_compute. exact I. }
  split; [exact H1|].
  exact (proj1 (update_merges one_row (VString "a") 0%nat _ raise_v _ _
                  H1 H2 H3 H4 H5)).
Defined.

Lemma other_rows_untouched_witness :
  wf_state staff
  /\ ~ writes_to (OpUpdate (VString "u1") [("role", VString "guest")]) (VString "u2")
  /\ get_content (step staff (OpUpdate (VString "u1") [("role", VString "guest")]))
       (VString "u2")
     = get_content staff (VString "u2").
Proof.
  assert (H1 : wf_state staff) by (apply wf_stateb_spec; vm_compute; reflexivity).
  assert (H2 : ~ writes_to (OpUpdate (VString "u1") [("role", VString "guest")])
                   (VString "u2")) by (simpl; discriminate).
  split; [exact H1|]. split; [exact H2|].
  exact (proj1 (other_rows_untouched staff _ (VString "u2") H1 H2)).
Defined.

Lemma get_returns_json_witness :
  no_toJSONb (mem staff) = true
  /\ get staff (VString "u2") = (fst (get staff (VString "u2")), Ok (VRef 7%nat))
  /\ exists l j,
      assoc_get (VString "u2") (rows staff) = Some l
      /\ content (mem staff) (VRef l) = Ok (Some j)
      /\ represents (mem (fst (get staff (VString "u2")))) (VRef 7%nat) j.
Proof.
  assert (H0 : no_toJSONb (mem staff) = true) by (vm_compute; reflexivity).
  assert (H1 : get staff (VString "u2")
               = (fst (get staff (VString "u2")), Ok (VRef 7%nat)))
    by (vm_compute; reflexivity).
  split; [exact H0|]. split; [exact H1|].
  destruct (proj2 (get_returns_json staff _ (VString "u2") _
                     (fun l _ => no_toJSONb_spec _ (VRef l) H0) H1)) as [[Hn _]|H];
    [discriminate Hn|exact H].
Defined.

Lemma delete_then_get_witness :
  NoDup (keys (rows staff))
  /\ get (fst (delete staff (VString "u2"))) (VString "u2")
     = (fst (delete staff (VString "u2")), Ok VUndefined).
Proof.
  assert (H1 : NoDup (keys (rows staff))).
  { refine (bool_decide_unpack (NoDup (keys (rows staff))) _). vm_compute. exact I. }
  split; [exact H1|]. exact (proj1 (delete_then_get staff (VString "u2") H1)).
Defined.

Lemma query_within_snapshot_witness :
  snapshot ages = Ok (fst ages_copies, snd ages_copies)
  /\ exists res,
      query ages negative_limit
      = ({| mem := fst ages_copies; rows := rows ages |}, Ok res)
      /\ res ⊆+ snd ages_copies
      /\ (length res <= length (rows ages))%nat.
Proof.
  assert (H1 : snapshot ages = Ok (fst ages_copies, snd ages_copies))
    by (vm_compute; reflexivity).
  split; [exact H1|]. exact (query_within_snapshot ages negative_limit _ _ H1).
Defined.

Lemma query_all_contents_witness :
  wf_state dated_table
  /\ no_toJSONb (mem dated_table) = true
  /\ content (mem dated_table) (VRef 1%nat)
     = Ok (Some (JObj [("createdAt", JStr "1970-01-01T00:00:00.000Z");
                       ("id", JStr (makeId "" some_entropy))]))
  /\ exists h1 arr,
      query dated_table no_options = ({| mem := h1; rows := rows dated_table |}, Ok arr)
      /\ Forall2 (fun (kl : value * loc) v =>
                    exists j, content (mem dated_table) (VRef (snd kl)) = Ok (Some j)
                              /\ represents h1 v j)
           (rows dated_table) arr.
Proof.
  assert (H1 : wf_state dated_table) by (apply wf_stateb_spec; vm_compute; reflexivity).
  assert (H0 : no_toJSONb (mem dated_table) = true) by (vm_compute; reflexivity).
  assert (H2 : content (mem dated_table) (VRef 1%nat)
               = Ok (Some (JObj [("createdAt", JStr "1970-01-01T00:00:00.000Z");
                                 ("id", JStr (makeId "" some_entropy))])))
    by (vm_compute; reflexivity).
  assert (H3 : Forall (fun kl : value * loc =>
                         exists j, content (mem dated_table) (VRef (snd kl)) = Ok (Some j))
                 (rows dated_table)).
  { repeat constructor. eexists. exact H2. }
  assert (H4 : rows_plain dated_table).
  { apply Forall_forall. intros kl _. exact (no_toJSONb_spec _ _ H0). }
  split; [exact H1|]. split; [exact H0|]. split; [exact H2|].
  exact (query_all_contents dated_table H1 H4 H3).
Defined.

Lemma pages_concatenate_witness :
  snapshot ages = Ok (fst ages_copies, snd ages_copies)
  /\ exists r1 r2,
      snd (query ages (page by_age 0 1)) = Ok r1
      /\ snd (query ages (page by_age (0 + 1) 2)) = Ok r2
      /\ snd (query ages (page by_age 0 (1 + 2))) = Ok (r1 ++ r2).
Proof.
  assert (H1 : snapshot ages = Ok (fst ages_copies, snd ages_copies))
    by (vm_compute; reflexivity).
  split; [exact H1|].
  exact (pages_concatenate ages by_age 0 1 2 _ _ H1
           ltac:(lia) ltac:(lia) ltac:(lia)).
Defined.

Lemma negative_offset_from_end_witness :
  snapshot ages = Ok (fst ages_copies, snd ages_copies)
  /\ opt_offset two_from_end = Some (- 2)
  /\ snd (query ages two_from_end) = Ok [].
Proof.
  assert (H1 : snapshot ages = Ok (fst ages_copies, snd ages_copies))
    by (vm_compute; reflexivity).
  assert (H2 : opt_offset two_from_end = Some (- 2)) by reflexivity.
  assert (H3 : 1 <= 2 <= Z.of_nat (length (sort_rows (fst ages_copies) two_from_end
                                      (filter_rows (fst ages_copies) two_from_end
                                         (snd ages_copies)))))
    by (vm_compute; split; discriminate).
  split; [exact H1|]. split; [exact H2|].
  exact (proj1 (negative_offset_from_end ages two_from_end 2 _ _ H1 H2 H3) eq_refl).
Defined.

Lemma object_filter_matches_nothing_witness :
  mem ann_table !! 1%nat = Some (OPlain (ann ++ [("id", VString (makeId "" some_entropy))]))
  /\ is_plain (mem ann_table) (VRef 0%nat)
  /\ exists h1,
      query ann_table (with_filter [("teams", VRef 0%nat)])
      = ({| mem := h1; rows := rows ann_table |}, Ok []).
Proof.
  assert (H0 : mem ann_table !! 1%nat
               = Some (OPlain (ann ++ [("id", VString (makeId "" some_entropy))])))
    by reflexivity.
  assert (H1 : snapshot ann_table
               = Ok (fst (result_or ([], []) (snapshot ann_table)),
                     snd (result_or ([], []) (snapshot ann_table))))
    by (vm_compute; reflexivity).
  assert (H2 : opt_filter (with_filter [("teams", VRef 0%nat)])
               = Some [("teams", VRef 0%nat)]) by reflexivity.
  assert (H3 : ("teams", VRef 0%nat) ∈ [("teams", VRef 0%nat)])
    by apply list_elem_of_here.
  assert (H4 : is_plain (mem ann_table) (VRef 0%nat)) by exact I.
  split; [exact H0|]. split; [exact H4|]. eexists.
  exact (object_filter_matches_nothing ann_table _ _ "teams" 0%nat _ _ H1 H2 H3 H4).
Defined.

Lemma pattern_needs_string_witness :
  as_regexp (mem named) (VRef 0%nat) = Some 0%nat
  /\ (forall str, regexp_test 0%nat str = true)
  /\ length (rows named) = 2%nat
  /\ query named (with_filter [("name", VRef 0%nat)])
     = (fst (query named (with_filter [("name", VRef 0%nat)])), Ok [VRef 5%nat])
  /\ Forall (fun row =>
               is_string
                 (read (mem (fst (query named (with_filter [("name", VRef 0%nat)]))))
                    row "name"))
       [VRef 5%nat].
Proof.
  assert (H1 : as_regexp (mem named) (VRef 0%nat) = Some 0%nat) by reflexivity.
  assert (H2 : query named (with_filter [("name", VRef 0%nat)])
               = (fst (query named (with_filter [("name", VRef 0%nat)])),
                  Ok [VRef 5%nat])) by (vm_compute; reflexivity).
  split; [exact H1|]. split; [intros str; reflexivity|]. split; [reflexivity|].
  split; [exact H2|].
  exact (pattern_needs_string named _ "name" (VRef 0%nat) 0%nat _ H1 H2).
Defined.

Lemma desc_reverses_asc_witness :
  snapshot ages = Ok (fst ages_copies, snd ages_copies)
  /\ exists r,
      snd (query ages (sorted_by "age" (Some Asc) None)) = Ok r
      /\ snd (query ages (sorted_by "age" None None)) = Ok r
      /\ snd (query ages (sorted_by "age" (Some Desc) None)) = Ok (reverse r).
Proof.
  assert (H1 : snapshot ages = Ok (fst ages_copies, snd ages_copies))
    by (vm_compute; reflexivity).
  assert (H2 : "age" ≠ "") by discriminate.
  assert (H3 : naturally_ordered
                 (map (fun row => read (fst ages_copies) row "age")
                    (filter_rows (fst ages_copies) (sorted_by "age" None None)
                       (snd ages_copies)))).
  { left. vm_compute. repeat constructor. }
  assert (H4 : NoDup (map (fun row => read (fst ages_copies) row "age")
                        (filter_rows (fst ages_copies) (sorted_by "age" None None)
                           (snd ages_copies)))).
  { refine (bool_decide_unpack _ _). vm_compute. exact I. }
  split; [exact H1|].
  exact (desc_reverses_asc ages "age" None _ _ H1 H2 H3 H4).
Defined.

Lemma deepClone_copy_witness :
  no_toJSONb event_heap = true
  /\ deepClone event_heap (VRef 1%nat)
     = Ok (event_heap ++ [OPlain [("at", VString "1970-01-01T00:00:00.000Z")]],
           VRef 2%nat)
  /\ exists j,
      content event_heap (VRef 1%nat) = Ok (Some j)
      /\ represents (event_heap ++ [OPlain [("at", VString "1970-01-01T00:00:00.000Z")]])
           (VRef 2%nat) j
      /\ exists h2 v2,
          deepClone (event_heap ++ [OPlain [("at", VString "1970-01-01T00:00:00.000Z")]])
            (VRef 2%nat) = Ok (h2, v2)
          /\ represents h2 v2 j.
Proof.
  assert (H0 : no_toJSONb event_heap = true) by (vm_compute; reflexivity).
  assert (H1 : deepClone event_heap (VRef 1%nat)
               = Ok (event_heap
                       ++ [OPlain [("at", VString "1970-01-01T00:00:00.000Z")]],
                     VRef 2%nat)) by (vm_compute; reflexivity).
  split; [exact H0|]. split; [exact H1|].
  exact (proj2 (proj2 (deepClone_copy event_heap _ (VRef 1%nat) _
                         (no_toJSONb_spec _ _ H0) H1))).
Defined.

Lemma insert_is_shallow_witness :
  (0 < length (mem (empty_table ann_heap)))%nat
  /\ get_content (fst (insert (empty_table ann_heap) ann some_entropy))
       (VString (makeId "" some_entropy))
     = Ok (Some (JObj [("name", JStr "Ann"); ("teams", JArr [JStr "ops"; JStr "dev"]);
                       ("id", JStr (makeId "" some_entropy))]))
  /\ exists s2 v2,
      get {| mem := <[0%nat := OArray [VString "hr"]]>
                      (mem (fst (insert (empty_table ann_heap) ann some_entropy)));
             rows := rows (fst (insert (empty_table ann_heap) ann some_entropy)) |}
        (insert_id ann some_entropy)
      = (s2, Ok v2)
      /\ represents (mem s2) v2
           (JObj [("name", JStr "Ann"); ("teams", JArr [JStr "hr"]);
                  ("id", JStr (makeId "" some_entropy))]).
Proof.
  assert (H1 : (0 < length (mem (empty_table ann_heap)))%nat) by (simpl; lia).
  assert (H2 : represents_props
                 (<[0%nat := OArray [VString "hr"]]>
                    (mem (fst (insert (empty_table ann_heap) ann some_entropy))))
                 (assoc_set "id" (insert_id ann some_entropy) ann)
                 [("name", JStr "Ann"); ("teams", JArr [JStr "hr"]);
                  ("id", JStr (makeId "" some_entropy))])
    by (vm_compute; repeat split).
  split; [exact H1|]. split; [vm_compute; reflexivity|].
  exact (proj2 (insert_is_shallow (empty_table ann_heap) ann some_entropy 0%nat
                  (OArray [VString "hr"]) _ H1 H2)).
Defined.

(** ** Repositories and services at work *)

Lemma insert_get_serialised_witness :
  wf_state (empty_table dated_heap)
  /\ no_toJSONb dated_heap = true
  /\ read_prop "toJSON" dated = VUndefined
  /\ exists s1 v1 s2 v2,
      insert (empty_table dated_heap) dated some_entropy = (s1, Ok v1)
      /\ represents (mem s1) v1
           (JObj [("createdAt", JStr "1970-01-01T00:00:00.000Z");
                  ("id", JStr (makeId "" some_entropy))])
      /\ get s1 (insert_id dated some_entropy) = (s2, Ok v2)
      /\ represents (mem s2) v2
           (JObj [("createdAt", JStr "1970-01-01T00:00:00.000Z");
                  ("id", JStr (makeId "" some_entropy))]).
Proof.
  assert (H1 : wf_state (empty_table dated_heap))
    by (apply wf_stateb_spec; vm_compute; reflexivity).
  assert (H0 : no_toJSONb dated_heap = true) by (vm_compute; reflexivity).
  assert (H2 : Forall (val_below (length (mem (empty_table dated_heap))))
                 (map snd dated)) by (repeat constructor).
  assert (H3 : stringify_props (content (mem (empty_table dated_heap)))
                 (assoc_set "id" (insert_id dated some_entropy) dated)
               = Ok [("createdAt", JStr "1970-01-01T00:00:00.000Z");
                     ("id", JStr (makeId "" some_entropy))])
    by (vm_compute; reflexivity).
  assert (H4 : as_function (mem (empty_table dated_heap)) (read_prop "toJSON" dated)
               = None) by reflexivity.
  assert (H5 : Forall (plain_data (mem (empty_table dated_heap))) (map snd dated)).
  { apply Forall_forall. intros v _. exact (no_toJSONb_spec _ _ H0). }
  split; [exact H1|]. split; [exact H0|]. split; [reflexivity|].
  exact (insert_get_serialised (empty_table dated_heap) dated some_entropy _
           H1 H2 H4 H5 H3).
Defined.


Lemma register_duplicate_email_witness :
  wf_state registry /\ rows_serialise registry
  /\ email_taken registry (email ann_again)
  /\ exists s1,
      registerUser registry ann_again other_entropy 2000
      = (s1, Ok (Failed "Email already registered"))
      /\ rows s1 = rows registry.
Proof.
  assert (H1 : wf_state registry) by (apply wf_stateb_spec; vm_compute; reflexivity).
  assert (H2 : rows_serialise registry).
  { repeat (first [apply Forall_nil_2|apply Forall_cons_2]).
    eexists. vm_compute. reflexivity. }
  assert (H3 : email_taken registry (email ann_again)).
  { exists (VString (makeId "user_" some_entropy), 4%nat).
    split; [apply list_elem_of_here|vm_compute; reflexivity]. }
  split; [exact H1|]. split; [exact H2|]. split; [exact H3|].
  exact (register_duplicate_email registry ann_again other_entropy 2000 H1 H2 H3).
Defined.

Lemma register_new_email_witness :
  wf_state (empty_table []) /\ rows_serialise (empty_table [])
  /\ ~ email_taken (empty_table []) (email ann_payload)
  /\ exists s1 v,
      registerUser (empty_table []) ann_payload some_entropy 1000
      = (s1, Ok (Succeeded v))
      /\ represents (mem s1) v (JObj (registered ann_payload some_entropy 1000))
      /\ get_content s1 (VString (makeId "user_" some_entropy))
         = Ok (Some (JObj (registered ann_payload some_entropy 1000)))
      /\ email_taken s1 (email ann_payload)
      /\ wf_state s1.
Proof.
  assert (H1 : wf_state (empty_table [])) by (apply wf_stateb_spec; reflexivity).
  assert (H2 : rows_serialise (empty_table [])) by apply Forall_nil_2.
  assert (H3 : ~ email_taken (empty_table []) (email ann_payload)).
  { intros (kl & Hin & _). by apply elem_of_nil in Hin. }
  split; [exact H1|]. split; [exact H2|]. split; [exact H3|].
  exact (register_new_email (empty_table []) ann_payload some_entropy 1000 H1 H2 H3).
Defined.

Lemma register_keeps_emails_unique_witness :
  wf_state (empty_table []) /\ emails_unique (empty_table [])
  /\ emails_unique
       (register_all (empty_table [])
          [{| reg_payload := ann_payload; reg_entropy := some_entropy;
              reg_time := 1000 |};
           {| reg_payload := ann_again; reg_entropy := other_entropy;
              reg_time := 2000 |}]).
Proof.
  assert (H1 : wf_state (empty_table [])) by (apply wf_stateb_spec; reflexivity).
  assert (H2 : emails_unique (empty_table [])).
  { intros k1 l1 k2 l2 x Hk1. discriminate Hk1. }
  split; [exact H1|]. split; [exact H2|].
  exact (proj2 (register_keeps_emails_unique (empty_table []) _ H1 H2)).
Defined.

Lemma repo_update_stamps_patch_witness :
  mem (empty_table patch_heap) !! 0%nat = Some (OPlain [("published", VBool true)])
  /\ snd (repo_update (empty_table patch_heap) (VString "p9") 0%nat 5) = Ok VUndefined
  /\ mem (fst (repo_update (empty_table patch_heap) (VString "p9") 0%nat 5)) !! 0%nat
     = Some (OPlain (assoc_set "updatedAt" (VRef 1%nat) [("published", VBool true)])).
Proof.
  assert (H1 : mem (empty_table patch_heap) !! 0%nat
               = Some (OPlain [("published", VBool true)])) by reflexivity.
  split; [exact H1|]. split; [reflexivity|].
  exact (proj1 (repo_update_stamps_patch (empty_table patch_heap) (VString "p9")
                  0%nat _ 5 H1)).
Defined.

Lemma publish_outcome_witness :
  publish posts (VString (makeId "post_" some_entropy)) 2000
  = (fst (publish posts (VString (makeId "post_" some_entropy)) 2000),
     Ok (Succeeded (VRef 18%nat)))
  /\ exists v,
      Succeeded (VRef 18%nat) = Succeeded v
      /\ read (mem (fst (publish posts (VString (makeId "post_" some_entropy)) 2000)))
           v "published" = VBool true
      /\ read (mem (fst (publish posts (VString (makeId "post_" some_entropy)) 2000)))
           v "updatedAt" = VString (date_iso 2000).
Proof.
  assert (H1 : publish posts (VString (makeId "post_" some_entropy)) 2000
               = (fst (publish posts (VString (makeId "post_" some_entropy)) 2000),
                  Ok (Succeeded (VRef 18%nat)))) by (vm_compute; reflexivity).
  split; [exact H1|].
  destruct (publish_outcome posts _ (VString (makeId "post_" some_entropy)) 2000 _ H1)
    as [[H0 _]|(v & Hv & Hp & Hu & _)]; [discriminate H0|].
  exists v. repeat split; assumption.
Defined.

Lemma publish_succeeds_witness :
  wf_state posts
  /\ assoc_get (VString (makeId "post_" some_entropy)) (rows posts) = Some 3%nat
  /\ exists s1 v jps,
      publish posts (VString (makeId "post_" some_entropy)) 2000
      = (s1, Ok (Succeeded v))
      /\ represents (mem s1) v (JObj jps)
      /\ get_content s1 (VString (makeId "post_" some_entropy)) = Ok (Some (JObj jps))
      /\ assoc_get "published" jps = Some (JBool true)
      /\ assoc_get "updatedAt" jps = Some (JStr (date_iso 2000))
      /\ assoc_get "title" jps = Some (JStr "Hello").
Proof.
  assert (H1 : wf_state posts) by (apply wf_stateb_spec; vm_compute; reflexivity).
  assert (H2 : assoc_get (VString (makeId "post_" some_entropy)) (rows posts)
               = Some 3%nat) by reflexivity.
  assert (H3 : mem posts !! 3%nat
               = Some (OPlain [("authorId", VString "u1"); ("title", VString "Hello");
                               ("published", VBool false);
                               ("id", VString (makeId "post_" some_entropy));
                               ("createdAt", VRef 0%nat); ("updatedAt", VRef 0%nat);
                               ("reactions", VRef 1%nat)])) by reflexivity.
  assert (H4 : NoDup (keys [("authorId", VString "u1"); ("title", VString "Hello");
                            ("published", VBool false);
                            ("id", VString (makeId "post_" some_entropy));
                            ("createdAt", VRef 0%nat); ("updatedAt", VRef 0%nat);
                            ("reactions", VRef 1%nat)])).
  { refine (bool_decide_unpack _ _). vm_compute. exact I. }
  assert (H5 : content (mem posts) (VRef 3%nat)
               = Ok (Some (JObj [("authorId", JStr "u1"); ("title", JStr "Hello");
                                 ("published", JBool false);
                                 ("id", JStr (makeId "post_" some_entropy));
                                 ("createdAt", JStr "1970-01-01T00:00:01.000Z");
                                 ("updatedAt", JStr "1970-01-01T00:00:01.000Z");
                                 ("reactions", JObj [])])))
    by (vm_compute; reflexivity).
  split; [exact H1|]. split; [exact H2|].
  destruct (publish_succeeds posts (VString (makeId "post_" some_entropy)) 2000
              3%nat _ _ H1 H2 H3 H4 H5)
    as (s1 & v & jps & Hp & Hr & Hg & Hpub & Hupd & Hother).
  exists s1, v, jps. split; [exact Hp|]. split; [exact Hr|]. split; [exact Hg|].
  split; [exact Hpub|]. split; [exact Hupd|].
  rewrite (Hother "title"); [reflexivity|].
  intros Hin. repeat (apply elem_of_cons in Hin as [Hin|Hin]; [discriminate Hin|]).
  by apply elem_of_nil in Hin.
Defined.

Lemma addAddress_shares_address_witness :
  addAddress registry (VString (makeId "user_" some_entropy))
    [("city", VString "Paris")] other_entropy 2000 3000
  = (fst (addAddress registry (VString (makeId "user_" some_entropy))
            [("city", VString "Paris")] other_entropy 2000 3000),
     Ok (Succeeded (VRef 10%nat)))
  /\ exists l,
      assoc_get (VString (makeId "user_" some_entropy))
        (rows (fst (addAddress registry (VString (makeId "user_" some_entropy))
                      [("city", VString "Paris")] other_entropy 2000 3000)))
      = Some l
      /\ reach (mem (fst (addAddress registry (VString (makeId "user_" some_entropy))
                            [("city", VString "Paris")] other_entropy 2000 3000)))
           (VRef l) 10%nat.
Proof.
  assert (H1 : addAddress registry (VString (makeId "user_" some_entropy))
                 [("city", VString "Paris")] other_entropy 2000 3000
               = (fst (addAddress registry (VString (makeId "user_" some_entropy))
                         [("city", VString "Paris")] other_entropy 2000 3000),
                  Ok (Succeeded (VRef 10%nat)))) by (vm_compute; reflexivity).
  split; [exact H1|].
  destruct (addAddress_shares_address registry _ _ _ _ _ _ _ H1)
    as (l & arr & elems & la & address & Ha & _ & _ & Hl & _ & _ & Hreach).
  injection Ha as <-. exists l. split; [exact Hl|exact Hreach].
Defined.

Lemma listRecent_newest_first_witness :
  snapshot posts = Ok (fst posts_copies, snd posts_copies)
  /\ 0 <= default 10 (Some 1)
  /\ exists sorted,
      snd (listRecent posts (Some 1)) = Ok (take (Z.to_nat (default 10 (Some 1))) sorted)
      /\ Permutation sorted (snd posts_copies).
Proof.
  assert (H1 : snapshot posts = Ok (fst posts_copies, snd posts_copies))
    by (vm_compute; reflexivity).
  assert (H2 : 0 <= default 10 (Some 1)) by (simpl; lia).
  assert (H3 : Forall is_string
                 (map (fun row => read (fst posts_copies) row "createdAt")
                    (snd posts_copies))).
  { vm_compute. repeat constructor. }
  split; [exact H1|]. split; [exact H2|].
  destruct (listRecent_newest_first posts (Some 1) _ _ H1 H2 H3)
    as (sorted & Hq & Hperm & _).
  exists sorted. split; [exact Hq|exact Hperm].
Defined.

Lemma retry_first_success_witness :
  (2 < Z.to_nat 5)%nat
  /\ retry flaky 5 50 O
     = {| final := 3%nat; delays := [50; 100]; outcome := inl "done" |}.
Proof.
  assert (H1 : (2 < Z.to_nat 5)%nat) by (simpl; lia).
  assert (H2 : forall n, (n < 2)%nat -> exists err, fails_with flaky O n err).
  { intros n Hn. exists "busy". destruct n as [|[|n]]; [reflexivity|reflexivity|lia]. }
  assert (H3 : snd (flaky (state_before flaky 2 O)) = inl "done") by reflexivity.
  split; [exact H1|].
  exact (retry_first_success flaky 5 50 O 2 "done" H1 H2 H3).
Defined.

Lemma retry_gives_up_witness :
  exists err,
    fails_with broken O (Z.to_nat 3 - 1) err
    /\ retry broken 3 50 O
       = {| final := state_before broken (Z.to_nat 3) O;
            delays := map (fun j => 50 * Z.of_nat j) (seq 1 (Z.to_nat 3));
            outcome := inr (Some err) |}.
Proof.
  assert (H1 : forall n, (n < Z.to_nat 3)%nat -> exists err, fails_with broken O n err).
  { intros n _. exists "down". reflexivity. }
  exact (proj1 (retry_gives_up broken 3 50 O H1) ltac:(lia)).
Defined.

Lemma addAddress_appends_witness :
  wf_state registry
  /\ mem registry !! 4%nat = Some (OPlain ann_row)
  /\ exists s1 a jps jaddress,
      addAddress registry (VString (makeId "user_" some_entropy)) paris
        other_entropy 2000 3000 = (s1, Ok (Succeeded a))
      /\ get_content s1 (VString (makeId "user_" some_entropy)) = Ok (Some (JObj jps))
      /\ assoc_get "addresses" jps = Some (JArr ([] ++ [JObj jaddress]))
      /\ assoc_get "updatedAt" jps = Some (JStr (date_iso 3000))
      /\ assoc_get "id" jaddress = Some (JStr (makeId "addr_" other_entropy))
      /\ assoc_get "createdAt" jaddress = Some (JStr (date_iso 2000)).
Proof.
  assert (H1 : wf_state registry) by (apply wf_stateb_spec; vm_compute; reflexivity).
  assert (H2 : assoc_get (VString (makeId "user_" some_entropy)) (rows registry)
               = Some 4%nat) by reflexivity.
  assert (H3 : mem registry !! 4%nat = Some (OPlain ann_row)) by reflexivity.
  assert (H4 : NoDup (keys ann_row)).
  { refine (bool_decide_unpack _ _). vm_compute. exact I. }
  assert (H5 : content (mem registry) (VRef 4%nat)
               = Ok (Some (JObj (registered ann_payload some_entropy 1000))))
    by (vm_compute; reflexivity).
  assert (H6 : assoc_get "addresses" (registered ann_payload some_entropy 1000)
               = Some (JArr [])) by reflexivity.
  assert (H7 : Forall (val_below (length (mem registry))) (map snd paris))
    by (repeat constructor).
  assert (H8 : NoDup (keys paris)).
  { refine (bool_decide_unpack _ _). vm_compute. exact I. }
  assert (H9 : Forall (fun v => exists oj, content (mem registry) v = Ok oj)
                 (map snd paris)).
  { repeat (first [apply Forall_nil_2|apply Forall_cons_2]). eexists. reflexivity. }
  split; [exact H1|]. split; [exact H3|].
  destruct (addAddress_appends registry (VString (makeId "user_" some_entropy)) paris
              other_entropy 2000 3000 4%nat ann_row _ [] H1 H2 H3 H4 H5 H6 H7 H8 H9)
    as (s1 & a & jps & jaddress & Ha & Hg & Hadd & Hupd & _ & Hid & Hca & _).
  exists s1, a, jps, jaddress.
  split; [exact Ha|]. split; [exact Hg|]. split; [exact Hadd|]. split; [exact Hupd|].
  split; [exact Hid|exact Hca].
Defined.

Lemma failed_insert_poisons_witness :
  let s := empty_table [OPlain [("self", VRef 0%nat)]] in
  let row := [("id", VString "c"); ("me", VRef 0%nat)] in
  let s1 := fst (insert s row some_entropy) in
  wf_state s
  /\ snd (insert s row some_entropy) = Throw TypeError
  /\ assoc_get (insert_id row some_entropy) (rows s1) = Some 1%nat
  /\ get s1 (insert_id row some_entropy) = (s1, Throw TypeError)
  /\ forall opts, exists y, query s1 opts = (s1, Throw y).
Proof.
  intros s row s1.
  assert (H1 : wf_state s) by (apply wf_stateb_spec; vm_compute; reflexivity).
  assert (H2 : Forall (val_below (length (mem s))) (map snd row)).
  { repeat (first [apply Forall_nil_2|apply Forall_cons_2]); simpl; lia. }
  assert (H3 : snd (insert s row some_entropy) = Throw TypeError)
    by (vm_compute; reflexivity).
  split; [exact H1|]. split; [exact H3|].
  exact (failed_insert_poisons s row some_entropy TypeError H1 H2 H3).
Defined.

Lemma post_create_fills_in_witness :
  let s := fst (post_create (empty_table []) first_post some_entropy 1000) in
  wf_state s /\ NoDup (keys second_post)
  /\ exists s1 v1 jps,
      post_create s second_post other_entropy 86400000 = (s1, Ok v1)
      /\ represents (mem s1) v1 (JObj jps)
      /\ get_content s1 (VString (makeId "post_" other_entropy)) = Ok (Some (JObj jps))
      /\ assoc_get "id" jps = Some (JStr (makeId "post_" other_entropy))
      /\ assoc_get "createdAt" jps = Some (JStr "1970-01-02T00:00:00.000Z")
      /\ assoc_get "updatedAt" jps = Some (JStr "1970-01-02T00:00:00.000Z")
      /\ assoc_get "reactions" jps = Some (JObj []).
Proof.
  intros s.
  assert (H1 : wf_state s) by (apply wf_stateb_spec; vm_compute; reflexivity).
  assert (H2 : Forall (val_below (length (mem s))) (map snd second_post))
    by (repeat (first [apply Forall_nil_2|apply Forall_cons_2]); exact I).
  assert (H3 : NoDup (keys second_post)).
  { refine (bool_decide_unpack _ _). vm_compute. exact I. }
  assert (H4 : Forall (fun v => exists oj, content (mem s) v = Ok oj)
                 (map snd second_post)).
  { repeat (first [apply Forall_nil_2|apply Forall_cons_2]); eexists; reflexivity. }
  split; [exact H1|]. split; [exact H3|].
  destruct (post_create_fills_in s second_post other_entropy 86400000 H1 H2 H3 H4)
    as (s1 & v1 & jps & Hc & Hr & Hg & Hid & Hca & Hua & Hre & _).
  exists s1, v1, jps.
  split; [exact Hc|]. split; [exact Hr|]. split; [exact Hg|]. split; [exact Hid|].
  split; [exact Hca|]. split; [exact Hua|exact Hre].
Defined.

Section PredicateWitness.

#[local] Existing Instance prefix_runtime.


End PredicateWitness.
